(** * MeetMind front end: transcript, playback, polling, streaming and
      citation logic of the recording and project views.

    Shallow embedding of the script blocks of
    [src/frontend/src/views/TranscriptionView.vue] and
    [src/frontend/src/views/MinutesView.vue].

    Conventions of the embedding.
    - A JavaScript string is the list of its UTF-16 code units ([jsstring]),
      so [charCodeAt], the regular expression [.] and the line terminators
      U+2028 / U+2029 are single elements.
    - A JavaScript number that the code only ever builds from integral
      millisecond offsets is a [Z]; the non-finite results of a division by
      zero are the extra constructors of [jsnum].  A [Z] stands for the
      double of the same value, which exists and is printed digit for
      digit when its magnitude is below 2^53 ([maxSafe]): the theorems
      on printed numbers carry that bound.  Fractional values are not
      modelled, except in [percentageOf], where the two roundings of the
      quotient are computed exactly.
    - A plain object used as a map inherits the members of
      [Object.prototype]; a read of such a key that is not an own
      property gives the inherited member ([prototypeMembers]).
    - Reactive [ref] cells are fields of explicit state records; every
      [async] function is cut at its [await]s, the outcome of the awaited
      request being an argument of the continuation. *)

From Stdlib Require Import ZArith NArith List String Ascii Lia Bool Sorted.
From stdpp Require Import gmap list.
Import ListNotations.
Local Open Scope Z_scope.

(** ** JavaScript strings and numbers *)

Module Js.

Definition jsstring := list N.

(** An ASCII literal of the source as code units. *)
Definition lit (s : string) : jsstring :=
  map N_of_ascii (list_ascii_of_string s).

Inductive jsnum :=
| Num (z : Z)
| NaN
| PosInf
| NegInf.

(** Decimal digits of a natural number, most significant first.  The fuel
    is the number of binary digits, which bounds the number of decimal
    ones. *)
Fixpoint digits_go (fuel : nat) (n : N) (acc : jsstring) : jsstring :=
  match fuel with
  | O => acc
  | S fuel' =>
      let acc' := (48 + n mod 10)%N :: acc in
      if (n / 10 =? 0)%N then acc' else digits_go fuel' (n / 10)%N acc'
  end.

Definition digits (n : N) : jsstring :=
  digits_go (S (N.to_nat (N.log2 n))) n [].

(** The number a run of decimal digits denotes. *)
Definition digitsValue (s : jsstring) : N :=
  fold_left (fun v c => (v * 10 + (c - 48))%N) s 0%N.

(** [Number.prototype.toString] on the values of [jsnum]: digit for
    digit, as the code prints an integer of magnitude below 2^53. *)
Definition toString (x : jsnum) : jsstring :=
  match x with
  | Num z => if z <? 0 then 45%N :: digits (Z.to_N (- z)) else digits (Z.to_N z)
  | NaN => lit "NaN"
  | PosInf => lit "Infinity"
  | NegInf => lit "-Infinity"
  end.

(** [s.padStart(n, c)] for a one-unit filler [c]. *)
Definition padStart (n : nat) (c : N) (s : jsstring) : jsstring :=
  repeat c (n - length s) ++ s.

(** [Math.floor(x / d)] for a positive integral divisor [d]; for
    [d <= 1000] and an integer of magnitude below 2^53 the rounded
    quotient of the code has the same floor as the exact one. *)
Definition floorDiv (x : jsnum) (d : Z) : jsnum :=
  match x with
  | Num z => Num (z / d)
  | other => other
  end.

(** [x % d] for a positive integral divisor: the remainder takes the sign
    of the dividend, and is NaN on a non-finite dividend. *)
Definition remainder (x : jsnum) (d : Z) : jsnum :=
  match x with
  | Num z => Num (Z.rem z d)
  | _ => NaN
  end.

(** [s.startsWith(p)]. *)
Fixpoint startsWith (p s : jsstring) : bool :=
  match p, s with
  | [], _ => true
  | a :: p', b :: s' => (a =? b)%N && startsWith p' s'
  | _ :: _, [] => false
  end.

(** [s.includes(p)]. *)
Fixpoint includes (p s : jsstring) : bool :=
  startsWith p s
  || match s with
     | [] => false
     | _ :: s' => includes p s'
     end.

(** [String.prototype.toLowerCase].  Besides the ASCII capitals, the two
    code units outside ASCII whose lower case contains an ASCII letter
    are mapped as the standard does (U+0130 to "i" and U+0307, U+212A
    KELVIN SIGN to "k"); every other unit outside ASCII maps outside
    ASCII and is left as it is, which no comparison against the ASCII
    patterns of the source can observe. *)
Definition lowerUnit (c : N) : jsstring :=
  if ((65 <=? c) && (c <=? 90))%N then [(c + 32)%N]
  else if (c =? 304)%N then [105%N; 775%N]
  else if (c =? 8490)%N then [107%N]
  else [c].

Definition toLowerCase (s : jsstring) : jsstring := flat_map lowerUnit s.

(** White space and line terminators removed by [String.prototype.trim]. *)
Definition isWhiteSpace (c : N) : bool :=
  ((9 <=? c) && (c <=? 13) || (c =? 32) || (c =? 160) || (c =? 5760)
   || (8192 <=? c) && (c <=? 8202) || (c =? 8232) || (c =? 8233)
   || (c =? 8239) || (c =? 8287) || (c =? 12288) || (c =? 65279))%N.

Fixpoint trimStart (s : jsstring) : jsstring :=
  match s with
  | c :: r => if isWhiteSpace c then trimStart r else s
  | [] => []
  end.

Definition trim (s : jsstring) : jsstring :=
  rev (trimStart (rev (trimStart s))).

(** [s.split(sep)] for a non-empty separator: the pieces between the
    occurrences of [sep], found from the left without overlap.  [skip]
    counts the units of a separator just matched that are still to be
    passed over; [cur] is the piece being read. *)
Fixpoint split_go (sep : jsstring) (skip : nat) (cur : jsstring)
    (s : jsstring) : list jsstring :=
  match s with
  | [] => [cur]
  | c :: rest =>
      match skip with
      | S k => split_go sep k cur rest
      | O =>
          if startsWith sep s
          then cur :: split_go sep (length sep - 1) [] rest
          else split_go sep 0 (cur ++ [c]) rest
      end
  end.

Definition split (sep s : jsstring) : list jsstring := split_go sep 0 [] s.

(** [parts.join(sep)]. *)
Fixpoint join (sep : jsstring) (parts : list jsstring) : jsstring :=
  match parts with
  | [] => []
  | [x] => x
  | x :: r => x ++ sep ++ join sep r
  end.

(** [s.replace(pat, rep)] for a non-empty string pattern: only the first
    occurrence is replaced. *)
Fixpoint replaceFirst (pat rep s : jsstring) : jsstring :=
  if startsWith pat s then rep ++ drop (length pat) s
  else match s with
       | [] => []
       | c :: r => c :: replaceFirst pat rep r
       end.

(** The integers of magnitude below [maxSafe] are doubles, their sums,
    differences and floored quotients by a small divisor are computed
    exactly, and [Number.prototype.toString] prints them digit for
    digit. *)
Definition maxSafe : Z := 2 ^ 53.

(** The names of the members of [Object.prototype], which every plain
    object inherits. *)
Definition prototypeMembers : list jsstring :=
  [lit "constructor"; lit "__defineGetter__"; lit "__defineSetter__";
   lit "hasOwnProperty"; lit "__lookupGetter__"; lit "__lookupSetter__";
   lit "isPrototypeOf"; lit "propertyIsEnumerable"; lit "toString";
   lit "valueOf"; lit "__proto__"; lit "toLocaleString"].

(** A key that names no member of [Object.prototype]. *)
Definition plainKey (k : jsstring) : Prop := k ∉ prototypeMembers.

(** Values a caller can pass where the source declares [ms: number]. *)
Inductive jsarg :=
| Undefined
| Null
| Number (n : jsnum).

End Js.
Import Js.

(** ** Time formatter ([formatTime], both views) *)

Module TimeFormat.

(** [Math.floor(Math.floor(ms / 1000) / 60)] printed and padded. *)
Definition minutesField (ms : jsnum) : jsstring :=
  padStart 2 48%N (toString (floorDiv (floorDiv ms 1000) 60)).

(** [Math.floor(ms / 1000) % 60] printed and padded. *)
Definition secondsField (ms : jsnum) : jsstring :=
  padStart 2 48%N (toString (remainder (floorDiv ms 1000) 60)).

(** [if (!ms && ms !== 0) return '00:00'] holds for [undefined], [null]
    and [NaN]; [0] is falsy but excluded by the second test.  The
    numbers are those without a fraction (of magnitude below 2^53). *)
Definition formatTime (ms : jsarg) : jsstring :=
  match ms with
  | Undefined | Null | Number NaN => lit "00:00"
  | Number n => minutesField n ++ lit ":" ++ secondsField n
  end.

(** [formatDuration] of the project view, on [undefined], [null] and
    the numbers without a fraction (of magnitude below 2^53).  [if (!seconds) return '--:--'] holds
    for [undefined], [null], NaN and 0; the minutes are printed as they
    are, the seconds padded to two digits. *)
Definition formatDuration (seconds : jsarg) : jsstring :=
  match seconds with
  | Undefined | Null | Number NaN | Number (Num 0) => lit "--:--"
  | Number n =>
      toString (floorDiv n 60) ++ lit ":"
        ++ padStart 2 48%N (toString (remainder n 60))
  end.

End TimeFormat.

(** ** Transcript segment store (TranscriptionView.vue) *)

Module Segments.

(** A transcript segment; [seg_start] and [seg_end] are the source's
    [start] and [end] offsets in milliseconds. *)
Record Segment := mkSegment {
  speaker_id : jsstring;
  seg_start : Z;
  seg_end : Z;
  text : jsstring
}.

Record Transcript := mkTranscript {
  content : list Segment;
  plain_text : jsstring
}.

(** [Array.prototype.findIndex]: the index of the first element that
    satisfies the predicate, [-1] when there is none. *)
Fixpoint findIndex_from {A} (p : A -> bool) (i : Z) (l : list A) : Z :=
  match l with
  | [] => -1
  | x :: r => if p x then i else findIndex_from p (i + 1) r
  end.

Definition findIndex {A} (p : A -> bool) (l : list A) : Z :=
  findIndex_from p 0 l.

(** The callback of [activeSegmentIndex]:
    [currentTime.value >= seg.start && currentTime.value <= seg.end]. *)
Definition covers (currentTime : Z) (seg : Segment) : bool :=
  (seg_start seg <=? currentTime) && (currentTime <=? seg_end seg).

Definition activeSegmentIndex (transcript : option Transcript)
    (currentTime : Z) : Z :=
  match transcript with
  | None => -1
  | Some t => findIndex (covers currentTime) (content t)
  end.

(** The [stats] object of [speakerStats], as its own string-keyed
    properties in creation order.  [bump] is
    [stats[k] = (stats[k] || 0) + dur].  (Labels that are canonical array
    indices are enumerated first by [Object.entries], and labels naming a
    property of [Object.prototype] read that property; neither is
    modelled.) *)
Fixpoint bump (k : jsstring) (dur : Z) (stats : list (jsstring * Z))
    : list (jsstring * Z) :=
  match stats with
  | [] => [(k, dur)]
  | (k', v) :: r =>
      if decide (k = k') then (k', v + dur) :: r else (k', v) :: bump k dur r
  end.

(** The body of the [forEach]: one segment updates [stats] and
    [totalDuration]. *)
Definition accumulate (acc : list (jsstring * Z) * Z) (seg : Segment)
    : list (jsstring * Z) * Z :=
  let dur := seg_end seg - seg_start seg in
  (bump (speaker_id seg) dur (fst acc), snd acc + dur).

(** The factors of a scaling by [2^e] for an [e] of either sign: [2^e]
    is [scaleUp e / scaleDown e]. *)
Definition scaleUp (e : Z) : Z := 2 ^ Z.max e 0.
Definition scaleDown (e : Z) : Z := 2 ^ Z.max (- e) 0.

(** The integer nearest to [num / den], a tie going to the even one. *)
Definition roundHalfEven (num den : Z) : Z :=
  let q := num / den in
  let r := num mod den in
  if 2 * r <? den then q
  else if den <? 2 * r then q + 1
  else if Z.even q then q else q + 1.

(** The double nearest to the positive rational [a / b], as a fraction:
    a mantissa of 53 bits, rounded to nearest with ties to even, times
    a power of two.  This is the result of the division of the doubles
    [a] and [b], and of a product of doubles whose exact value is
    [a / b].  (Nothing the code computes here leaves the range of the
    normal doubles.) *)
Definition nearestDouble (a b : Z) : Z * Z :=
  let e0 := Z.log2 a - Z.log2 b - 53 in
  let e := if 2 ^ 53 * (b * scaleUp e0) <=? a * scaleDown e0
           then e0 + 1 else e0 in
  (roundHalfEven (a * scaleDown e) (b * scaleUp e) * scaleUp e,
   scaleDown e).

(** [Math.round((dur / totalDuration) * 100)] on durations that are
    doubles (integers of magnitude below 2^53).  A zero divisor gives NaN
    or an infinity, which [* 100] and [Math.round] leave as they are.
    Otherwise the quotient is rounded to a double, its product with 100
    is rounded to a double, and [Math.round] gives the nearest integer,
    a half going upwards; so 29 of 200, whose product is
    14.499999999999998, gives 14. *)
Definition percentageOf (dur totalDuration : Z) : jsnum :=
  if totalDuration =? 0 then
    if dur =? 0 then NaN else if 0 <? dur then PosInf else NegInf
  else if dur =? 0 then Num 0
  else
    let sign := Z.sgn dur * Z.sgn totalDuration in
    let quotient := nearestDouble (Z.abs dur) (Z.abs totalDuration) in
    let product := nearestDouble (fst quotient * 100) (snd quotient) in
    Num ((2 * sign * fst product + snd product) / (2 * snd product)).

Record Stat := mkStat {
  speaker : jsstring;
  percentage : jsnum
}.

(** [b.percentage - a.percentage > 0], the only case in which the sort
    moves [b] before [a]; a NaN difference counts as zero. *)
Definition sortsAfter (a b : Stat) : bool :=
  match percentage a, percentage b with
  | Num x, Num y => x <? y
  | Num _, PosInf => true
  | NegInf, Num _ => true
  | NegInf, PosInf => true
  | _, _ => false
  end.

(** [Array.prototype.sort] is stable; on a comparator that is consistent
    (as here on finite percentages) the result is that of this stable
    insertion sort. *)
Fixpoint insertStat (x : Stat) (l : list Stat) : list Stat :=
  match l with
  | [] => [x]
  | y :: r => if sortsAfter x y then y :: insertStat x r else x :: y :: r
  end.

Definition sortStats (l : list Stat) : list Stat :=
  fold_right insertStat [] l.

Definition speakerStats (transcript : option Transcript) : list Stat :=
  match transcript with
  | None => []
  | Some t =>
      let '(stats, totalDuration) := fold_left accumulate (content t) ([], 0) in
      sortStats
        (map (fun e => mkStat (fst e) (percentageOf (snd e) totalDuration))
             stats)
  end.

(** Sum of the finite percentages of a result, [None] when one of them
    is not finite. *)
Fixpoint sumPercentages (l : list Stat) : option Z :=
  match l with
  | [] => Some 0
  | s :: r =>
      match percentage s, sumPercentages r with
      | Num p, Some t => Some (p + t)
      | _, _ => None
      end
  end.

(** Total spoken duration: the sum of [end - start] over all segments. *)
Definition totalSpoken (segs : list Segment) : Z :=
  fold_right (fun seg acc => (seg_end seg - seg_start seg) + acc) 0 segs.

Definition sumValues (stats : list (jsstring * Z)) : Z :=
  fold_right (fun e acc => snd e + acc) 0 stats.

(** [filteredTranscript], for any lower-casing function: the source calls
    [String.prototype.toLowerCase] on the query, the text and the label. *)
Section Filter.

Variable lowerCase : jsstring -> jsstring.

(** The callback of the [filter]; [query] is the lower-cased search text. *)
Definition matchesQuery (query : jsstring) (seg : Segment) : bool :=
  includes query (lowerCase (text seg))
  || includes query (lowerCase (speaker_id seg)).

Definition filteredTranscript (transcript : option Transcript)
    (searchQuery : jsstring) : list Segment :=
  match transcript with
  | None => []
  | Some t =>
      match searchQuery with
      | [] => content t
      | _ => List.filter (matchesQuery (lowerCase searchQuery)) (content t)
      end
  end.

End Filter.

(** The segments whose times and durations the code handles exactly:
    every offset and the sum of the magnitudes of all durations are
    below 2^53, so that every sum the code forms is an exact double. *)
Definition exactTimes (segs : list Segment) : Prop :=
  Forall (fun seg => Z.abs (seg_start seg) < maxSafe
                     /\ Z.abs (seg_end seg) < maxSafe) segs
  /\ fold_right (fun seg acc => Z.abs (seg_end seg - seg_start seg) + acc)
                0 segs < maxSafe.

(** The finite percentage of an entry (0 for one that is not finite). *)
Definition percentValue (s : Stat) : Z :=
  match percentage s with
  | Num p => p
  | _ => 0
  end.

(** The order of a result sorted by percentage, largest first. *)
Definition descending (a b : Stat) : Prop := percentValue b <= percentValue a.

End Segments.

(** ** Speaker identity: colour cache and rename (TranscriptionView.vue) *)

Module Speakers.
Import Segments.

Definition colors : list jsstring :=
  [lit "bg-blue-500"; lit "bg-green-500"; lit "bg-yellow-500";
   lit "bg-purple-500"; lit "bg-pink-500"; lit "bg-indigo-500";
   lit "bg-red-500"; lit "bg-orange-500"; lit "bg-teal-500";
   lit "bg-cyan-500"].

(** [ToInt32]: the value modulo 2^32 in the signed 32-bit range. *)
Definition toInt32 (z : Z) : Z := (z + 2 ^ 31) mod 2 ^ 32 - 2 ^ 31.

(** [x << k] on numbers: both the operand and the result are int32. *)
Definition shiftLeft (x : Z) (k : Z) : Z := toInt32 (Z.shiftl (toInt32 x) k).

(** One round of the loop:
    [hash = speakerId.charCodeAt(i) + ((hash << 5) - hash)].  Only the
    shift wraps; the sum is an exact double for every label shorter than
    2^21 units. *)
Definition hashStep (hash : Z) (c : N) : Z :=
  Z.of_N c + (shiftLeft hash 5 - hash).

Definition generateColor (speakerId : jsstring) : jsstring :=
  let hash := fold_left hashStep speakerId 0 in
  let index := Z.abs hash mod Z.of_nat (length colors) in
  nth (Z.to_nat index) colors [].

(** A value held in, or read from, the [speakerColors] object: a colour
    class, or the member of [Object.prototype] of the given name (a
    function; for [__proto__] the prototype itself). *)
Inductive Value :=
| Text (s : jsstring)
| Member (name : jsstring).

(** [speakerColors.value[k]]: the own property when there is one, else
    the member inherited from [Object.prototype]; [None] is
    [undefined]. *)
Definition colorOf (speakerColors : gmap jsstring Value) (k : jsstring)
    : option Value :=
  match speakerColors !! k with
  | Some v => Some v
  | None =>
      if bool_decide (k ∈ prototypeMembers) then Some (Member k) else None
  end.

(** Truthiness of [speakerColors.value[k]]: a non-empty string, or an
    inherited member. *)
Definition cached (speakerColors : gmap jsstring Value) (k : jsstring)
    : bool :=
  match colorOf speakerColors k with
  | Some (Text (_ :: _)) | Some (Member _) => true
  | _ => false
  end.

(** [getAvatarColor]: fills the cache when the read is falsy and returns
    what the read then gives.  (An assignment happens only under a falsy
    read, so never to an inherited key that is not shadowed: it always
    sets an own property.) *)
Definition getAvatarColor (speakerId : jsstring)
    (speakerColors : gmap jsstring Value)
    : option Value * gmap jsstring Value :=
  let speakerColors' :=
    if cached speakerColors speakerId then speakerColors
    else <[speakerId := Text (generateColor speakerId)]> speakerColors in
  (colorOf speakerColors' speakerId, speakerColors').

Record Editing := mkEditing {
  id : jsstring;
  name : jsstring
}.

Record State := mkState {
  transcript : option Transcript;
  editingSpeaker : option Editing;
  speakerColors : gmap jsstring Value
}.

(** What [saveSpeakerName] asks of its collaborators. *)
Inductive Effect :=
| PutSpeakers (original_speaker_id new_speaker_id : jsstring)
| MessageSuccess
| MessageError
| FetchTranscript.

(** The callback of the optimistic [forEach]. *)
Definition relabel (originalId newName : jsstring) (seg : Segment) : Segment :=
  if decide (speaker_id seg = originalId)
  then mkSegment newName (seg_start seg) (seg_end seg) (text seg)
  else seg.

(** [saveSpeakerName]; [putOk] tells whether the awaited [api.put]
    resolves.  On rejection [fetchTranscript()] is started and not
    awaited: the state given is the one the function returns with, before
    that request settles and replaces the transcript with the server's
    copy. *)
Definition saveSpeakerName (st : State) (putOk : bool) : State * list Effect :=
  match editingSpeaker st, transcript st with
  | Some ed, Some t =>
      let originalId := id ed in
      let newName := trim (name ed) in
      if decide (newName = []) then
        (mkState (transcript st) None (speakerColors st), [])
      else if decide (newName = originalId) then
        (mkState (transcript st) None (speakerColors st), [])
      else
        let speakerColors' :=
          if negb (cached (speakerColors st) newName)
             && cached (speakerColors st) originalId
          then match colorOf (speakerColors st) originalId with
               | Some c => <[newName := c]> (speakerColors st)
               | None => speakerColors st
               end
          else speakerColors st in
        let t' := mkTranscript (map (relabel originalId newName) (content t))
                               (plain_text t) in
        (mkState (Some t') None speakerColors',
         PutSpeakers originalId newName
           :: (if putOk then [MessageSuccess]
               else [MessageError; FetchTranscript]))
  | _, _ => (st, [])
  end.

Definition example_segments : list Segment :=
  [mkSegment (lit "Speaker 1") 0 1000 (lit "a");
   mkSegment (lit "Speaker 2") 1000 2000 (lit "b");
   mkSegment (lit "Speaker 1") 2000 3000 (lit "c");
   mkSegment (lit "Speaker 2") 3000 4000 (lit "d");
   mkSegment (lit "Speaker 1") 4000 5000 (lit "e")].


End Speakers.

(** ** Media playback controller (TranscriptionView.vue) *)

Module Player.

(** Methods of the media element that the controller calls. *)
Inductive Call :=
| CallPlay
| CallPause
| CallLoad.

#[global] Instance Call_eq_dec : EqDecision Call.
Proof. solve_decision. Defined.

(** The media element.  Times are kept in milliseconds (the element's
    seconds times 1000, which is what the controller converts to and
    from); [duration] is [None] while it is NaN.  [onLoaded] holds the
    one-shot [loadedmetadata] listeners that [seekTo] registered, each
    with the [startMs] and [endMs] its closure captured. *)
Record Element := mkElement {
  readyState : Z;
  duration : option Z;
  elementTime : Z;
  calls : list Call;
  onLoaded : list (Z * option Z)
}.

Record State := mkState {
  audioRef : option Element;
  currentTime : Z;
  durationMs : option Z;
  isPlaying : bool;
  stopAt : option Z
}.

(** Truthiness of a number or of [null] / [undefined]. *)
Definition truthy (x : option Z) : bool :=
  match x with
  | Some v => negb (v =? 0)
  | None => false
  end.

Definition withCall (c : Call) (el : Element) : Element :=
  mkElement (readyState el) (duration el) (elementTime el)
            (calls el ++ [c]) (onLoaded el).

Definition withTime (t : Z) (el : Element) : Element :=
  mkElement (readyState el) (duration el) t (calls el) (onLoaded el).

(** [onTimeUpdate]. *)
Definition onTimeUpdate (st : State) : State :=
  match audioRef st with
  | Some el =>
      let now := elementTime el in
      match stopAt st with
      | Some bound =>
          if truthy (Some bound) && (bound <=? now)
          then mkState (Some (withCall CallPause el)) now (durationMs st)
                       false None
          else mkState (audioRef st) now (durationMs st) (isPlaying st)
                       (stopAt st)
      | None =>
          mkState (audioRef st) now (durationMs st) (isPlaying st) (stopAt st)
      end
  | None => st
  end.

(** Playback reaches [t] and the element fires [timeupdate]. *)
Definition tick (t : Z) (st : State) : State :=
  onTimeUpdate
    (mkState (option_map (withTime t) (audioRef st)) (currentTime st)
             (durationMs st) (isPlaying st) (stopAt st)).

Definition ticks (ts : list Z) (st : State) : State :=
  fold_left (fun s t => tick t s) ts st.

(** The position [doSeekAndPlay] assigns to [element.currentTime]. *)
Definition seekPosition (startMs : Z) (el : Element) : Z :=
  match duration el with
  | Some d =>
      if (0 <=? startMs) && (startMs <=? d) then startMs
      else if truthy (Some d) && (d <? startMs) then d else 0
  | None => 0
  end.

(** [doSeekAndPlay] of [seekTo]; [playOk] tells whether the promise of
    [element.play()] resolves. *)
Definition doSeekAndPlay (startMs : Z) (endMs : option Z) (playOk : bool)
    (el : Element) (st : State) : State :=
  let el' := withCall CallPlay (withTime (seekPosition startMs el) el) in
  mkState (Some el') (currentTime st) (durationMs st)
          (if playOk then true else isPlaying st)
          (if truthy endMs then endMs else None).

(** [seekTo(ms, endMs)]; [ms] is [None] when [Number(ms)] is NaN, [endMs]
    is [None] when the argument is left out. *)
Definition seekTo (ms : option Z) (endMs : option Z) (playOk : bool)
    (st : State) : State :=
  match audioRef st, ms with
  | Some el, Some startMs =>
      if 1 <=? readyState el then doSeekAndPlay startMs endMs playOk el st
      else
        let el' := mkElement (readyState el) (duration el) (elementTime el)
                             (calls el ++ [CallLoad])
                             (onLoaded el ++ [(startMs, endMs)]) in
        mkState (Some el') (currentTime st) (durationMs st) (isPlaying st)
                (stopAt st)
  | _, _ => st
  end.

(** The element learns its duration [d] and fires [loadedmetadata]: the
    template's [onLoadedMetadata] runs, then every pending one-shot
    listener runs [doSeekAndPlay] and removes itself. *)
Definition loadedMetadata (d : Z) (playOk : bool) (st : State) : State :=
  match audioRef st with
  | Some el =>
      let el0 := mkElement 1 (Some d) (elementTime el) (calls el) [] in
      fold_left
        (fun s pending =>
           match audioRef s with
           | Some e => doSeekAndPlay (fst pending) (snd pending) playOk e s
           | None => s
           end)
        (onLoaded el)
        (mkState (Some el0) (currentTime st) (Some d) (isPlaying st)
                 (stopAt st))
  | None => st
  end.

(** [seek(seconds)], the relative seek, with the offset in
    milliseconds.  With a NaN duration the assignment of a NaN position
    is refused by the element, after [stopAt] has been cleared. *)
Definition seek (deltaMs : Z) (st : State) : State :=
  match audioRef st with
  | Some el =>
      let target :=
        match duration el with
        | Some d => Z.max 0 (Z.min d (elementTime el + deltaMs))
        | None => elementTime el
        end in
      mkState (Some (withTime target el)) (currentTime st) (durationMs st)
              (isPlaying st) None
  | None => st
  end.

(** How often the element has been told to pause. *)
Definition pauseCount (st : State) : nat :=
  match audioRef st with
  | Some el => length (filter (fun c => c = CallPause) (calls el))
  | None => 0
  end.

Definition example_player : State :=
  mkState (Some (mkElement 4 (Some 60000) 0 [] [])) 0 (Some 60000) false None.

(** The playback rates of [changeSpeed], in hundredths (0.5, 1.0, 1.25,
    1.5 and 2.0 are exact doubles, so [indexOf] compares them exactly). *)
Definition rates : list Z := [50; 100; 125; 150; 200].

(** [Array.prototype.indexOf]. *)
Fixpoint indexOf_from (x : Z) (i : Z) (l : list Z) : Z :=
  match l with
  | [] => -1
  | y :: r => if x =? y then i else indexOf_from x (i + 1) r
  end.

Definition indexOf (x : Z) (l : list Z) : Z := indexOf_from x 0 l.

(** The [playbackRate] ref and the element's own rate ([None] when no
    element is mounted). *)
Record Speed := mkSpeed {
  playbackRate : Z;
  elementRate : option Z
}.

(** [changeSpeed]. *)
Definition changeSpeed (sp : Speed) : Speed :=
  let currentIndex := indexOf (playbackRate sp) rates in
  let nextRate :=
    nth (Z.to_nat (Z.rem (currentIndex + 1) (Z.of_nat (length rates)))) rates 0 in
  mkSpeed nextRate (option_map (fun _ => nextRate) (elementRate sp)).

End Player.

(** ** Long-poll watchers of the recording view (TranscriptionView.vue) *)

Module Poll.
Import Segments.

(** The function an interval timer calls. *)
Inductive Callback :=
| CbFetchTranscript
| CbFetchRecording.

#[global] Instance Callback_eq_dec : EqDecision Callback.
Proof. solve_decision. Defined.

(** How [api.get('/recordings/id/transcript')] settles. *)
Inductive TranscriptResponse :=
| TranscriptOk (data : Transcript)
| NotFound (detail : jsstring)
| OtherStatus
| NoResponse.

(** How [api.get('/recordings/id')] settles: the recording's [status]
    and [error_message], or a rejection. *)
Inductive RecordingResponse :=
| RecordingOk (status error_message : jsstring)
| RecordingFailed.

Inductive Phase :=
| NotMounted
| Mounted
| Unmounted.

(** The refs of the view that the watchers touch, the interval timers of
    the runtime that are active, and the requests that are in flight.
    [recordingOk] tells whether [recording.value] is set. *)
Record State := mkState {
  phase : Phase;
  transcript : option Transcript;
  recordingOk : bool;
  errorState : jsstring;
  pollInterval : option positive;
  statusInterval : option positive;
  timers : gmap positive Callback;
  pendingTranscript : nat;
  pendingRecording : nat;
  pendingRetry : nat
}.

Definition init : State :=
  mkState NotMounted None false [] None None ∅ 0 0 0.

(** [clearInterval(id)] for an [id] held in a ref that may be [null]:
    the guard [if (ref.value)] of the source. *)
Definition clearInterval (ref : option positive)
    (ts : gmap positive Callback) : gmap positive Callback :=
  match ref with
  | Some i => delete i ts
  | None => ts
  end.

(** [detail && detail.toLowerCase().includes('failed')]. *)
Definition terminalFailure (detail : jsstring) : bool :=
  match detail with
  | [] => false
  | _ => includes (lit "failed") (toLowerCase detail)
  end.

(** The continuation of [fetchTranscript] once its request has settled
    with [r]; [fresh] is the identifier [setInterval] returns if it is
    called. *)
Definition fetchTranscript_settled (r : TranscriptResponse)
    (fresh : positive) (st : State) : State :=
  match r with
  | TranscriptOk data =>
      mkState (phase st) (Some data) (recordingOk st) (errorState st)
              None (statusInterval st)
              (clearInterval (pollInterval st) (timers st))
              (pendingTranscript st) (pendingRecording st) (pendingRetry st)
  | NotFound detail =>
      if terminalFailure detail then
        mkState (phase st) (transcript st) (recordingOk st) detail
                None (statusInterval st)
                (clearInterval (pollInterval st) (timers st))
                (pendingTranscript st) (pendingRecording st) (pendingRetry st)
      else
        match pollInterval st with
        | Some _ => st
        | None =>
            mkState (phase st) (transcript st) (recordingOk st)
                    (errorState st) (Some fresh) (statusInterval st)
                    (<[fresh := CbFetchTranscript]> (timers st))
                    (pendingTranscript st) (pendingRecording st)
                    (pendingRetry st)
        end
  | OtherStatus =>
      mkState (phase st) (transcript st) (recordingOk st)
              (lit "Unexpected error fetching transcript.")
              (pollInterval st) (statusInterval st) (timers st)
              (pendingTranscript st) (pendingRecording st) (pendingRetry st)
  | NoResponse => st
  end.

(** The continuation of [fetchRecording]. *)
Definition fetchRecording_settled (r : RecordingResponse) (st : State)
    : State :=
  match r with
  | RecordingOk status error_message =>
      if decide (status = lit "error") then
        mkState (phase st) (transcript st) true
                (match error_message with
                 | [] => lit "Transcription failed. Please try again."
                 | _ => error_message
                 end)
                None (statusInterval st)
                (clearInterval (pollInterval st) (timers st))
                (pendingTranscript st) (pendingRecording st) (pendingRetry st)
      else
        mkState (phase st) (transcript st) true []
                (pollInterval st) (statusInterval st) (timers st)
                (pendingTranscript st) (pendingRecording st) (pendingRetry st)
  | RecordingFailed =>
      mkState (phase st) (transcript st) false (errorState st)
              (pollInterval st) (statusInterval st) (timers st)
              (pendingTranscript st) (pendingRecording st) (pendingRetry st)
  end.

(** The continuation of [retryTranscribe] once the POST has settled. *)
Definition retryTranscribe_settled (ok : bool) (fresh : positive)
    (st : State) : State :=
  if ok then
    mkState (phase st) None (recordingOk st) []
            (Some fresh) (statusInterval st)
            (<[fresh := CbFetchTranscript]>
               (clearInterval (pollInterval st) (timers st)))
            (pendingTranscript st) (pendingRecording st) (pendingRetry st)
  else
    mkState (phase st) (transcript st) (recordingOk st)
            (lit "Retry failed. Please check settings.")
            (pollInterval st) (statusInterval st) (timers st)
            (pendingTranscript st) (pendingRecording st) (pendingRetry st).

(** What can happen to the view, one run-to-completion job each. *)
Inductive Event :=
| Mount (fresh : positive)
| Tick (timer : positive)
| TranscriptSettled (r : TranscriptResponse) (fresh : positive)
| RecordingSettled (r : RecordingResponse)
| RetryClicked
| RetrySettled (ok : bool) (fresh : positive)
| RenameRejected
| Unmount.

Definition addPending (dT dR dRetry : nat) (st : State) : State :=
  mkState (phase st) (transcript st) (recordingOk st) (errorState st)
          (pollInterval st) (statusInterval st) (timers st)
          (pendingTranscript st + dT) (pendingRecording st + dR)
          (pendingRetry st + dRetry).

(** One job of the event loop; [None] when the event cannot happen in
    the state (the view is not in the right phase, the timer is not
    active, no such request is in flight, or [fresh] names a timer that
    is still active). *)
Definition step (st : State) (ev : Event) : option State :=
  match ev with
  | Mount fresh =>
      match phase st, timers st !! fresh with
      | NotMounted, None =>
          Some (mkState Mounted (transcript st) (recordingOk st)
                        (errorState st) (pollInterval st) (Some fresh)
                        (<[fresh := CbFetchRecording]> (timers st))
                        (S (pendingTranscript st)) (S (pendingRecording st))
                        (pendingRetry st))
      | _, _ => None
      end
  | Tick timer =>
      match timers st !! timer with
      | Some CbFetchTranscript => Some (addPending 1 0 0 st)
      | Some CbFetchRecording => Some (addPending 0 1 0 st)
      | None => None
      end
  | TranscriptSettled r fresh =>
      match pendingTranscript st, timers st !! fresh with
      | S n, None =>
          Some (fetchTranscript_settled r fresh
                  (mkState (phase st) (transcript st) (recordingOk st)
                           (errorState st) (pollInterval st)
                           (statusInterval st) (timers st) n
                           (pendingRecording st) (pendingRetry st)))
      | _, _ => None
      end
  | RecordingSettled r =>
      match pendingRecording st with
      | S n =>
          Some (fetchRecording_settled r
                  (mkState (phase st) (transcript st) (recordingOk st)
                           (errorState st) (pollInterval st)
                           (statusInterval st) (timers st)
                           (pendingTranscript st) n (pendingRetry st)))
      | O => None
      end
  | RetryClicked =>
      match phase st with
      | Mounted => Some (addPending 0 0 1 st)
      | _ => None
      end
  | RetrySettled ok fresh =>
      match pendingRetry st, timers st !! fresh with
      | S n, None =>
          Some (retryTranscribe_settled ok fresh
                  (mkState (phase st) (transcript st) (recordingOk st)
                           (errorState st) (pollInterval st)
                           (statusInterval st) (timers st)
                           (pendingTranscript st) (pendingRecording st) n))
      | _, _ => None
      end
  | RenameRejected =>
      match phase st with
      | NotMounted => None
      | _ => Some (addPending 1 0 0 st)
      end
  | Unmount =>
      match phase st with
      | Mounted =>
          Some (mkState Unmounted (transcript st) (recordingOk st)
                        (errorState st) (pollInterval st) (statusInterval st)
                        (clearInterval (statusInterval st)
                           (clearInterval (pollInterval st) (timers st)))
                        (pendingTranscript st) (pendingRecording st)
                        (pendingRetry st))
      | _ => None
      end
  end.

Fixpoint run (st : State) (evs : list Event) : option State :=
  match evs with
  | [] => Some st
  | ev :: rest =>
      match step st ev with
      | Some st' => run st' rest
      | None => None
      end
  end.

Definition reachable (st : State) : Prop :=
  exists evs, run init evs = Some st.

(** The active timers that call [cb]. *)
Definition activeTimers (cb : Callback) (st : State) : list positive :=
  map fst (filter (fun e => snd e = cb) (map_to_list (timers st))).

(** Every active timer is the one its ref holds. *)
Definition timers_owned (st : State) : Prop :=
  (forall i, timers st !! i = Some CbFetchTranscript -> pollInterval st = Some i)
  /\ (forall i, timers st !! i = Some CbFetchRecording -> statusInterval st = Some i)
  /\ (phase st = NotMounted -> st = init).

Definition sample_transcript : Segments.Transcript :=
  Segments.mkTranscript
    [Segments.mkSegment (lit "Speaker 1") 0 1000 (lit "hello")] (lit "hello").

(** The continuations that can call [setInterval]: those of
    [fetchTranscript] and of [retryTranscribe]. *)
Definition mayStartTimer (ev : Event) : bool :=
  match ev with
  | TranscriptSettled _ _ | RetrySettled _ _ => true
  | _ => false
  end.

(** While the view is mounted the timer held in [statusInterval] is
    active, and so is a timer held in [pollInterval]. *)
Definition mounted_timers (st : State) : Prop :=
  phase st = Mounted ->
  (exists i, statusInterval st = Some i
             /\ timers st !! i = Some CbFetchRecording)
  /\ (forall p, pollInterval st = Some p ->
                timers st !! p = Some CbFetchTranscript).

End Poll.

(** ** Chunked minutes stream (startStreaming, MinutesView.vue) *)

Module MinutesStream.

(** What one [await reader.read()] gives before the stream is done: a
    chunk, already decoded to text, or a thrown error (with the text the
    error prints as). *)
Inductive ReadResult :=
| Chunk (text : jsstring)
| ReadThrows (error : jsstring).

(** The body of a response: the results of the successive reads; after
    the last one the reader reports [done]. *)
Definition Body := list ReadResult.

(** How [await fetch(...)] settles. *)
Inductive FetchOutcome :=
| FetchRejected (error : jsstring)
| FetchResponse (ok : bool) (statusText : jsstring) (body : option Body).

(** How the GET of [fetchMinutes] settles: the stored minutes, whose
    [content] may be missing, or a rejection. *)
Inductive MinutesOutcome :=
| MinutesOk (content : option jsstring)
| MinutesRejected.

Record State := mkState {
  loading : bool;
  isGenerating : bool;
  streamContent : jsstring;
  minutes : option (option jsstring);
  notifications : list jsstring
}.

(** [fetchMinutes]: it catches its own failure, so it never throws. *)
Definition fetchMinutes (r : MinutesOutcome) (st : State) : State :=
  match r with
  | MinutesOk content =>
      mkState (loading st) (isGenerating st)
              (match content with
               | Some (c :: cs) => c :: cs
               | _ => streamContent st
               end)
              (Some content) (notifications st)
  | MinutesRejected =>
      mkState (loading st) (isGenerating st) (streamContent st) None
              (notifications st)
  end.

(** The [while (true)] loop: appends chunks to [streamContent] until the
    reader is done or a read throws; gives the text accumulated and the
    error thrown, if any. *)
Fixpoint readAll (body : Body) (acc : jsstring) : jsstring * option jsstring :=
  match body with
  | [] => (acc, None)
  | Chunk text :: rest => readAll rest (acc ++ text)
  | ReadThrows error :: _ => (acc, Some error)
  end.

(** How [new Error(message)] prints: the name alone when the message is
    empty (an HTTP/2 response has an empty [statusText]). *)
Definition errorToString (message : jsstring) : jsstring :=
  match message with
  | [] => lit "Error"
  | _ => lit "Error: " ++ message
  end.

(** The [catch] block: [ElMessage.error('Generation failed: ' + e)]. *)
Definition onError (e : jsstring) (st : State) : State :=
  mkState (loading st) (isGenerating st) (streamContent st) (minutes st)
          (notifications st ++ [lit "Generation failed: " ++ e]).

(** The [finally] block. *)
Definition cleanup (st : State) : State :=
  mkState false false (streamContent st) (minutes st) (notifications st).

Definition withContent (c : jsstring) (st : State) : State :=
  mkState (loading st) (isGenerating st) c (minutes st) (notifications st).

(** [startStreaming]. *)
Definition startStreaming (response : FetchOutcome) (refetch : MinutesOutcome)
    (st : State) : State :=
  let st0 := mkState true true [] (minutes st) (notifications st) in
  cleanup
    match response with
    | FetchRejected error => onError error st0
    | FetchResponse false statusText _ =>
        onError (errorToString statusText) st0
    | FetchResponse true _ None =>
        onError (errorToString (lit "No reader available")) st0
    | FetchResponse true _ (Some body) =>
        match readAll body [] with
        | (acc, None) => fetchMinutes refetch (withContent acc st0)
        | (acc, Some error) => onError error (withContent acc st0)
        end
    end.

(** The error a run fails with, and the text accumulated before it. *)
Definition failure (response : FetchOutcome) : option (jsstring * jsstring) :=
  match response with
  | FetchRejected error => Some (error, [])
  | FetchResponse false statusText _ => Some (errorToString statusText, [])
  | FetchResponse true _ None => Some (errorToString (lit "No reader available"), [])
  | FetchResponse true _ (Some body) =>
      match readAll body [] with
      | (_, None) => None
      | (acc, Some error) => Some (error, acc)
      end
  end.

Definition idle : State := mkState false false [] None [].

(** The text the view renders and the editor opens with:
    [streamContent.value || minutes.value?.content || '']. *)
Definition shownContent (st : State) : jsstring :=
  match streamContent st with
  | _ :: _ => streamContent st
  | [] =>
      match minutes st with
      | Some (Some (c :: cs)) => c :: cs
      | _ => []
      end
  end.

Inductive Message :=
| MessageSuccess (text : jsstring)
| MessageError (text : jsstring).

(** The view together with the refs of the minutes editor and the
    messages [saveMinutes] has shown. *)
Record Editor := mkEditor {
  view : State;
  isEditingMinutes : bool;
  editedMinutesContent : jsstring;
  messages : list Message
}.

Definition startEditingMinutes (e : Editor) : Editor :=
  mkEditor (view e) true (shownContent (view e)) (messages e).

Definition cancelEditMinutes (e : Editor) : Editor :=
  mkEditor (view e) false [] (messages e).

(** [saveMinutes]; [putOk] tells whether the awaited [api.put] resolves
    and [refetch] how the GET of [fetchMinutes] settles when it is
    called.  The editor is taken not to be typed into while the requests
    are in flight. *)
Definition saveMinutes (putOk : bool) (refetch : MinutesOutcome)
    (e : Editor) : Editor :=
  if putOk then
    let v := view e in
    let v1 :=
      match minutes v with
      | Some _ =>
          mkState (loading v) (isGenerating v) (streamContent v)
                  (Some (Some (editedMinutesContent e))) (notifications v)
      | None => fetchMinutes refetch v
      end in
    mkEditor (withContent (editedMinutesContent e) v1) false
             (editedMinutesContent e)
             (messages e ++ [MessageSuccess (lit "Minutes saved")])
  else
    mkEditor (view e) (isEditingMinutes e) (editedMinutesContent e)
             (messages e ++ [MessageError (lit "Failed to save minutes")]).

End MinutesStream.

(** ** JSON.parse and the values it yields *)

Module Json.

(** A parsed JSON text.  A number keeps the text of its literal. *)
Inductive json :=
| JNull
| JBool (b : bool)
| JNumber (literal : jsstring)
| JString (s : jsstring)
| JArray (items : list json)
| JObject (members : list (jsstring * json)).

(** A JavaScript value read out of parsed data: [None] is [undefined]. *)
Definition jsval := option json.

Definition isJsonSpace (c : N) : bool :=
  ((c =? 32) || (c =? 9) || (c =? 10) || (c =? 13))%N.

Fixpoint skipSpace (s : jsstring) : jsstring :=
  match s with
  | c :: r => if isJsonSpace c then skipSpace r else s
  | [] => []
  end.

Definition isDigit (c : N) : bool := ((48 <=? c) && (c <=? 57))%N.

Definition hexValue (c : N) : option N :=
  if isDigit c then Some (c - 48)%N
  else if ((65 <=? c) && (c <=? 70))%N then Some (c - 55)%N
  else if ((97 <=? c) && (c <=? 102))%N then Some (c - 87)%N
  else None.

(** The characters of a string literal after its opening quote, up to
    and without the closing quote. *)
Fixpoint parseChars (s : jsstring) (acc : jsstring)
    : option (jsstring * jsstring) :=
  match s with
  | [] => None
  | c :: r =>
      if (c =? 34)%N then Some (acc, r)
      else if (c =? 92)%N then
        match r with
        | e :: r' =>
            if (e =? 34)%N then parseChars r' (acc ++ [34%N])
            else if (e =? 92)%N then parseChars r' (acc ++ [92%N])
            else if (e =? 47)%N then parseChars r' (acc ++ [47%N])
            else if (e =? 98)%N then parseChars r' (acc ++ [8%N])
            else if (e =? 102)%N then parseChars r' (acc ++ [12%N])
            else if (e =? 110)%N then parseChars r' (acc ++ [10%N])
            else if (e =? 114)%N then parseChars r' (acc ++ [13%N])
            else if (e =? 116)%N then parseChars r' (acc ++ [9%N])
            else if (e =? 117)%N then
              match r' with
              | h1 :: h2 :: h3 :: h4 :: r'' =>
                  match hexValue h1, hexValue h2, hexValue h3, hexValue h4 with
                  | Some a, Some b, Some c', Some d =>
                      parseChars r''
                        (acc ++ [(((a * 16 + b) * 16 + c') * 16 + d)%N])
                  | _, _, _, _ => None
                  end
              | _ => None
              end
            else None
        | [] => None
        end
      else if (c <? 32)%N then None
      else parseChars r (acc ++ [c])
  end.

Fixpoint takeDigits (s : jsstring) : jsstring * jsstring :=
  match s with
  | c :: r =>
      if isDigit c then let '(d, rest) := takeDigits r in (c :: d, rest)
      else ([], s)
  | [] => ([], [])
  end.

(** A number literal: an optional minus sign; an integer part that is
    0 or starts with a non-zero digit; optionally a point and one or more
    digits; optionally e or E, an optional sign and one or more
    digits. *)
Definition parseNumber (s : jsstring) : option (jsstring * jsstring) :=
  let '(sign, s1) :=
    match s with
    | c :: r => if (c =? 45)%N then ([45%N], r) else ([], s)
    | [] => ([], s)
    end in
  let '(int, s2) := takeDigits s1 in
  match int with
  | [] => None
  | d :: ds =>
      if (d =? 48)%N && negb (match ds with [] => true | _ => false end)
      then None
      else
        let frac :=
          match s2 with
          | c :: r =>
              if (c =? 46)%N then
                match takeDigits r with
                | ([], _) => None
                | (f, rest) => Some (46%N :: f, rest)
                end
              else Some ([], s2)
          | [] => Some ([], s2)
          end in
        match frac with
        | None => None
        | Some (f, s3) =>
            let exp :=
              match s3 with
              | c :: r =>
                  if ((c =? 101) || (c =? 69))%N then
                    let '(esign, r') :=
                      match r with
                      | g :: r0 =>
                          if ((g =? 43) || (g =? 45))%N then ([g], r0)
                          else ([], r)
                      | [] => ([], r)
                      end in
                    match takeDigits r' with
                    | ([], _) => None
                    | (e, rest) => Some (c :: esign ++ e, rest)
                    end
                  else Some ([], s3)
              | [] => Some ([], s3)
              end in
            match exp with
            | None => None
            | Some (e, s4) => Some (sign ++ int ++ f ++ e, s4)
            end
        end
  end.

(** A JSON value at the head of [s] and the text after it.  Every call
    spends one unit of [fuel]; a call chain spends at most two units per
    unit of the text, so [2 * length s + 2] never runs out. *)
Fixpoint parseValue (fuel : nat) (s : jsstring) : option (json * jsstring) :=
  match fuel with
  | O => None
  | S fuel' =>
      match skipSpace s with
      | [] => None
      | c :: r =>
          if (c =? 123)%N then
            match skipSpace r with
            | c' :: r' =>
                if (c' =? 125)%N then Some (JObject [], r')
                else parseMembers fuel' r []
            | [] => None
            end
          else if (c =? 91)%N then
            match skipSpace r with
            | c' :: r' =>
                if (c' =? 93)%N then Some (JArray [], r')
                else parseItems fuel' r []
            | [] => None
            end
          else if (c =? 34)%N then
            match parseChars r [] with
            | Some (str, rest) => Some (JString str, rest)
            | None => None
            end
          else if startsWith (lit "true") (c :: r)
          then Some (JBool true, drop 4 (c :: r))
          else if startsWith (lit "false") (c :: r)
          then Some (JBool false, drop 5 (c :: r))
          else if startsWith (lit "null") (c :: r)
          then Some (JNull, drop 4 (c :: r))
          else
            match parseNumber (c :: r) with
            | Some (literal, rest) => Some (JNumber literal, rest)
            | None => None
            end
      end
  end
with parseItems (fuel : nat) (s : jsstring) (acc : list json)
    : option (json * jsstring) :=
  match fuel with
  | O => None
  | S fuel' =>
      match parseValue fuel' s with
      | Some (v, r) =>
          match skipSpace r with
          | c :: r' =>
              if (c =? 44)%N then parseItems fuel' r' (acc ++ [v])
              else if (c =? 93)%N then Some (JArray (acc ++ [v]), r')
              else None
          | [] => None
          end
      | None => None
      end
  end
with parseMembers (fuel : nat) (s : jsstring) (acc : list (jsstring * json))
    : option (json * jsstring) :=
  match fuel with
  | O => None
  | S fuel' =>
      match skipSpace s with
      | q :: r =>
          if (q =? 34)%N then
            match parseChars r [] with
            | Some (key, r1) =>
                match skipSpace r1 with
                | colon :: r2 =>
                    if (colon =? 58)%N then
                      match parseValue fuel' r2 with
                      | Some (v, r3) =>
                          match skipSpace r3 with
                          | c :: r4 =>
                              if (c =? 44)%N
                              then parseMembers fuel' r4 (acc ++ [(key, v)])
                              else if (c =? 125)%N
                              then Some (JObject (acc ++ [(key, v)]), r4)
                              else None
                          | [] => None
                          end
                      | None => None
                      end
                    else None
                | [] => None
                end
            | None => None
            end
          else None
      | [] => None
      end
  end.

(** [JSON.parse(text)]: [None] when it throws a SyntaxError. *)
Definition JSON_parse (text : jsstring) : option json :=
  match parseValue (2 * length text + 2) text with
  | Some (v, rest) =>
      match skipSpace rest with
      | [] => Some v
      | _ => None
      end
  | None => None
  end.

(** The last member named [key]: a later duplicate overrides an earlier
    one. *)
Fixpoint lookupMember (key : jsstring) (members : list (jsstring * json))
    : jsval :=
  match members with
  | [] => None
  | (k, v) :: r =>
      match lookupMember key r with
      | Some v' => Some v'
      | None => if decide (k = key) then Some v else None
      end
  end.

(** [data.key] for one of the keys the source reads ([content], [tool],
    [query], [id], [message]), none of which an array, string, number or
    boolean has: the outer [None] is the TypeError of reading a property
    of [null]. *)
Definition getProp (data : json) (key : jsstring) : option jsval :=
  match data with
  | JNull => None
  | JObject members => Some (lookupMember key members)
  | _ => Some None
  end.

(** Truthiness.  A number literal is zero when its mantissa has no
    non-zero digit. *)
Fixpoint mantissaIsZero (literal : jsstring) : bool :=
  match literal with
  | [] => true
  | c :: r =>
      if ((c =? 101) || (c =? 69))%N then true
      else if ((49 <=? c) && (c <=? 57))%N then false
      else mantissaIsZero r
  end.

Definition truthy (v : jsval) : bool :=
  match v with
  | None | Some JNull => false
  | Some (JBool b) => b
  | Some (JNumber literal) => negb (mantissaIsZero literal)
  | Some (JString s) => match s with [] => false | _ => true end
  | Some (JArray _) | Some (JObject _) => true
  end.

(** [String(v)], as string concatenation and template literals apply it.
    A number prints as its literal, which is exact for the integer
    literals in canonical form and is not normalised otherwise. *)
Fixpoint jsonToString (v : json) : jsstring :=
  match v with
  | JNull => lit "null"
  | JBool true => lit "true"
  | JBool false => lit "false"
  | JNumber literal => literal
  | JString s => s
  | JArray items =>
      join (lit ",")
           (map (fun i => match i with
                          | JNull => []
                          | _ => jsonToString i
                          end) items)
  | JObject _ => lit "[object Object]"
  end.

Definition valToString (v : jsval) : jsstring :=
  match v with
  | None => lit "undefined"
  | Some j => jsonToString j
  end.

End Json.

(** ** Event-stream readers of the project view (MinutesView.vue:
      the loops of [sendChatMessage] and [confirmGenerate]) *)

Module Sse.
Import Json.

Record ChatMessage := mkMessage {
  content : jsstring;
  thoughts : list jsval;
  actions : list (jsval * jsval);
  isStreaming : bool
}.

(** The assistant message being streamed and the refs the loop touches.
    [received] is a ghost log of the events whose data parsed, in order;
    [parseErrors], [sessionRefreshes] and [scrolls] count the calls of
    [console.error('Parse error', e)], [fetchChatSessions()] and
    [scrollToBottom()]. *)
Record ChatState := mkChat {
  assistantMsg : ChatMessage;
  currentSessionId : jsval;
  received : list (jsstring * json);
  parseErrors : nat;
  sessionRefreshes : nat;
  scrolls : nat
}.

Definition withMessage (m : ChatMessage) (st : ChatState) : ChatState :=
  mkChat m (currentSessionId st) (received st) (parseErrors st)
         (sessionRefreshes st) (scrolls st).

Definition appendContent (s : jsstring) (st : ChatState) : ChatState :=
  let m := assistantMsg st in
  withMessage (mkMessage (content m ++ s) (thoughts m) (actions m)
                         (isStreaming m)) st.

(** The [if / else if] chain on the event name, inside the [try];
    [None] when reading a property of the data throws. *)
Definition dispatchChat (event : jsstring) (data : json) (st : ChatState)
    : option ChatState :=
  let m := assistantMsg st in
  if decide (event = lit "thought") then
    match getProp data (lit "content") with
    | Some v =>
        Some (withMessage (mkMessage (content m) (thoughts m ++ [v])
                                     (actions m) (isStreaming m)) st)
    | None => None
    end
  else if decide (event = lit "action") then
    match getProp data (lit "tool"), getProp data (lit "query") with
    | Some tool, Some query =>
        Some (withMessage (mkMessage (content m) (thoughts m)
                                     (actions m ++ [(tool, query)])
                                     (isStreaming m)) st)
    | _, _ => None
    end
  else if decide (event = lit "answer") then
    match getProp data (lit "content") with
    | Some v => Some (appendContent (valToString v) st)
    | None => None
    end
  else if decide (event = lit "session_id") then
    let refreshed s :=
      mkChat (assistantMsg s) (currentSessionId s) (received s)
             (parseErrors s) (S (sessionRefreshes s)) (scrolls s) in
    if truthy (currentSessionId st) then Some (refreshed st)
    else
      match getProp data (lit "id") with
      | Some v =>
          Some (refreshed (mkChat (assistantMsg st) v (received st)
                                  (parseErrors st) (sessionRefreshes st)
                                  (scrolls st)))
      | None => None
      end
  else if decide (event = lit "error") then
    match getProp data (lit "content") with
    | Some v =>
        Some (appendContent
                ([10; 10]%N ++ lit "*Error: " ++ valToString v ++ lit "*") st)
    | None => None
    end
  else Some st.

(** The body of [for (const line of lines)] in [sendChatMessage]. *)
Definition handleChatBlock (line : jsstring) (st : ChatState) : ChatState :=
  if startsWith (lit "event:") line then
    let lineParts := split [10%N] line in
    let eventLine := hd [] lineParts in
    let dataLine := join [10%N] (tl lineParts) in
    match eventLine, dataLine with
    | _ :: _, _ :: _ =>
        let event := trim (replaceFirst (lit "event: ") [] eventLine) in
        let dataStr := replaceFirst (lit "data: ") [] dataLine in
        let failed :=
          mkChat (assistantMsg st) (currentSessionId st) (received st)
                 (S (parseErrors st)) (sessionRefreshes st) (scrolls st) in
        match JSON_parse dataStr with
        | Some data =>
            let st1 :=
              mkChat (assistantMsg st) (currentSessionId st)
                     (received st ++ [(event, data)]) (parseErrors st)
                     (sessionRefreshes st) (scrolls st) in
            match dispatchChat event data st1 with
            | Some st2 =>
                mkChat (assistantMsg st2) (currentSessionId st2)
                       (received st2) (parseErrors st2)
                       (sessionRefreshes st2) (S (scrolls st2))
            | None =>
                mkChat (assistantMsg st1) (currentSessionId st1)
                       (received st1) (S (parseErrors st1))
                       (sessionRefreshes st1) (scrolls st1)
            end
        | None => failed
        end
    | _, _ => st
    end
  else st.

(** One round of the [while (true)] loop of [sendChatMessage]: the chunk
    is decoded, split on blank lines, and every piece is handled. *)
Definition chatChunk (st : ChatState) (chunk : jsstring) : ChatState :=
  fold_left (fun s line => handleChatBlock line s) (split [10; 10]%N chunk) st.

(** The whole loop, over the chunks the reader delivers. *)
Definition chatStream (chunks : list jsstring) (st : ChatState) : ChatState :=
  fold_left chatChunk chunks st.

Definition newChat : ChatState :=
  mkChat (mkMessage [] [] [] true) None [] 0 0 0.

Inductive Toast :=
| ToastSuccess (text : jsstring)
| ToastError (text : jsstring).

(** The refs [confirmGenerate] touches; [knowledgeBase] holds the
    [content] of the knowledge base when there is one. *)
Record KbState := mkKb {
  researchStatusMessage : jsval;
  knowledgeBase : option jsval;
  isGeneratingKB : bool;
  showResearchModal : bool;
  toasts : list Toast;
  consoleErrors : nat
}.

Definition kbFinished (t : Toast) (st : KbState) : KbState :=
  mkKb (researchStatusMessage st) (knowledgeBase st) false false
       (toasts st ++ [t]) (consoleErrors st).

Definition kbLogged (st : KbState) : KbState :=
  mkKb (researchStatusMessage st) (knowledgeBase st) (isGeneratingKB st)
       (showResearchModal st) (toasts st) (S (consoleErrors st)).

(** "生成出错: " and "知识库生成完成！" as code units. *)
Definition msgGenerationError : jsstring :=
  [29983; 25104; 20986; 38169; 58; 32]%N.
Definition msgKnowledgeBaseDone : jsstring :=
  [30693; 35782; 24211; 29983; 25104; 23436; 25104; 65281]%N.

(** The body of [for (const line of lines)] in [confirmGenerate]. *)
Definition handleKbBlock (line : jsstring) (st : KbState) : KbState :=
  if startsWith (lit "event: ") line then
    let parts := split [10%N] line in
    let eventLine := hd [] parts in
    let dataLines := tl parts in
    let event := trim (replaceFirst (lit "event: ") [] eventLine) in
    let dataStr := trim (replaceFirst (lit "data: ") [] (join [10%N] dataLines)) in
    match dataStr with
    | [] => st
    | _ =>
        if decide (event = lit "status") then
          match JSON_parse dataStr with
          | Some data =>
              match getProp data (lit "message") with
              | Some v =>
                  mkKb v (knowledgeBase st) (isGeneratingKB st)
                       (showResearchModal st) (toasts st) (consoleErrors st)
              | None => kbLogged st
              end
          | None => kbLogged st
          end
        else if decide (event = lit "done") then
          match JSON_parse dataStr with
          | Some data =>
              match knowledgeBase st with
              | Some _ =>
                  match getProp data (lit "content") with
                  | Some v =>
                      kbFinished (ToastSuccess msgKnowledgeBaseDone)
                        (mkKb (researchStatusMessage st)
                              (if truthy v then Some v else knowledgeBase st)
                              (isGeneratingKB st) (showResearchModal st)
                              (toasts st) (consoleErrors st))
                  | None => kbLogged st
                  end
              | None => kbFinished (ToastSuccess msgKnowledgeBaseDone) st
              end
          | None => kbLogged st
          end
        else if decide (event = lit "error") then
          let text :=
            match JSON_parse dataStr with
            | Some data =>
                match getProp data (lit "message") with
                | Some v => valToString v
                | None => dataStr
                end
            | None => dataStr
            end in
          kbFinished (ToastError (msgGenerationError ++ text)) st
        else st
    end
  else st.

(** One round of the [while (true)] loop of [confirmGenerate]: the chunk
    is appended to [buffer], the text is split on blank lines, the last
    piece becomes the new [buffer] and the others are handled. *)
Definition kbChunk (s : jsstring * KbState) (chunk : jsstring)
    : jsstring * KbState :=
  let lines := split [10; 10]%N (fst s ++ chunk) in
  (List.last lines [],
   fold_left (fun st line => handleKbBlock line st) (removelast lines) (snd s)).

Definition kbStream (chunks : list jsstring) (st : KbState)
    : jsstring * KbState :=
  fold_left kbChunk chunks ([], st).

(** The block delimiter of both readers: a blank line. *)
Definition blank : jsstring := [10; 10]%N.

Definition blocks_from (cur s : jsstring) : list jsstring :=
  split_go blank 0 cur s.

(** The two chunks of the specification's example:
    [event: answer\ndata: {"content":"hel] and [lo"}\n\n]. *)
Definition chunk_head : jsstring :=
  lit "event: answer" ++ [10%N] ++ lit "data: {" ++ [34%N] ++ lit "content"
    ++ [34%N] ++ lit ":" ++ [34%N] ++ lit "hel".

Definition chunk_tail : jsstring :=
  lit "lo" ++ [34%N] ++ lit "}" ++ [10; 10]%N.

Definition answer_hello : jsstring * json :=
  (lit "answer", JObject [(lit "content", JString (lit "hello"))]).

Definition status_head : jsstring :=
  lit "event: status" ++ [10%N] ++ lit "data: {" ++ [34%N] ++ lit "message"
    ++ [34%N] ++ lit ":" ++ [34%N] ++ lit "hel".

(** [st'] extends [st]: the assistant message has only been appended to
    and a session id that was set has been kept. *)
Definition extends (st st' : ChatState) : Prop :=
  content (assistantMsg st) `prefix_of` content (assistantMsg st')
  /\ thoughts (assistantMsg st) `prefix_of` thoughts (assistantMsg st')
  /\ actions (assistantMsg st) `prefix_of` actions (assistantMsg st')
  /\ isStreaming (assistantMsg st') = isStreaming (assistantMsg st)
  /\ (truthy (currentSessionId st) = true ->
      currentSessionId st' = currentSessionId st).

(** [st'] comes after [st] in a run of [confirmGenerate]: toasts have
    only been added; without a new toast the flags and the knowledge base
    are as they were, with one both flags are cleared. *)
Definition settles (st st' : KbState) : Prop :=
  exists added,
    toasts st' = toasts st ++ added
    /\ (added = [] ->
        isGeneratingKB st' = isGeneratingKB st
        /\ showResearchModal st' = showResearchModal st
        /\ knowledgeBase st' = knowledgeBase st)
    /\ (added <> [] ->
        isGeneratingKB st' = false /\ showResearchModal st' = false).






(** Whether the [try] block of a stream reader throws: a rejected
    request, a response that is not ok, a missing body, or a read that
    throws. *)
Definition throws (response : MinutesStream.FetchOutcome) : bool :=
  match response with
  | MinutesStream.FetchRejected _ => true
  | MinutesStream.FetchResponse false _ _ => true
  | MinutesStream.FetchResponse true _ None => true
  | MinutesStream.FetchResponse true _ (Some body) =>
      existsb (fun r => match r with
                        | MinutesStream.ReadThrows _ => true
                        | MinutesStream.Chunk _ => false
                        end) body
  end.



(** The [while (true)] loop of [confirmGenerate] over the reads of the
    body; the flag tells whether a read threw. *)
Fixpoint kbRead (body : MinutesStream.Body) (s : jsstring * KbState)
    : (jsstring * KbState) * bool :=
  match body with
  | [] => (s, false)
  | MinutesStream.Chunk text :: rest => kbRead rest (kbChunk s text)
  | MinutesStream.ReadThrows _ :: _ => (s, true)
  end.

(** "生成失败" as code units. *)
Definition msgGenerationFailed : jsstring := [29983; 25104; 22833; 36133]%N.

(** The knowledge base [confirmGenerate] starts from when there is
    none: five empty sections. *)
Definition emptyKnowledgeBase : jsval :=
  Some (JObject [(lit "prd", JString []); (lit "specs", JString []);
                 (lit "business_flows", JString []);
                 (lit "timeline", JString []); (lit "glossary", JString [])]).

(** [confirmGenerate], for the numbers of minutes and documents
    selected; [None] when nothing is selected and the function returns
    after its warning. *)
Definition confirmGenerate (selectedMinutes selectedDocuments : nat)
    (response : MinutesStream.FetchOutcome) (st : KbState)
    : option KbState :=
  match selectedMinutes, selectedDocuments with
  | O, O => None
  | _, _ =>
      let st0 :=
        mkKb (Some (JString (lit "Starting Deep Research Agent...")))
             (match knowledgeBase st with
              | Some kb => Some kb
              | None => Some emptyKnowledgeBase
              end)
             true true (toasts st) (consoleErrors st) in
      let caught s := kbFinished (ToastError msgGenerationFailed) (kbLogged s) in
      Some
        match response with
        | MinutesStream.FetchResponse true _ (Some body) =>
            let '(s, threw) := kbRead body ([], st0) in
            if threw then caught (snd s) else snd s
        | _ => caught st0
        end
  end.

(** A stream that reports progress and then ends: one [status] event. *)
Definition status_stream : MinutesStream.Body :=
  [MinutesStream.Chunk
     (status_head ++ lit "lo" ++ [34%N] ++ lit "}" ++ blank)].

End Sse.

(** ** Citation transformer (transformCitations, MinutesView.vue) *)

Module Citations.

Definition quote : jsstring := [34%N].
Definition newline : jsstring := [10%N].

(** The units the regular expression [.] does not match. *)
Definition isLineTerminator (c : N) : bool :=
  ((c =? 10) || (c =? 13) || (c =? 8232) || (c =? 8233))%N.

(** The pattern of [transformCitations], two opening brackets, a lazy
    run of any units, two closing brackets, after its opening brackets: the
    shortest run of units other than line terminators that is followed
    by two closing brackets.  Gives the captured run and the text after
    the closing brackets. *)
Fixpoint closing (s : jsstring) : option (jsstring * jsstring) :=
  match s with
  | [] => None
  | c :: r =>
      if startsWith (lit "]]") s then Some ([], drop 2 s)
      else if isLineTerminator c then None
      else match closing r with
           | Some (capture, rest) => Some (c :: capture, rest)
           | None => None
           end
  end.

(** Case folding of a regular expression with the [i] flag: ASCII
    letters only, since a unit outside ASCII never folds into ASCII. *)
Definition foldCase (c : N) : N :=
  if ((97 <=? c) && (c <=? 122))%N then (c - 32)%N else c.

Definition startsWithFold (p s : jsstring) : bool :=
  startsWith (map foldCase p) (map foldCase s).

(** The split of a text at its last underscore. *)
Fixpoint splitLastUnderscore (s : jsstring) : option (jsstring * jsstring) :=
  match s with
  | [] => None
  | c :: r =>
      match splitLastUnderscore r with
      | Some (x, d) => Some (c :: x, d)
      | None => if (c =? 95)%N then Some ([], r) else None
      end
  end.

Definition allDigits (d : jsstring) : bool :=
  match d with
  | [] => false
  | _ => forallb Json.isDigit d
  end.

(** [sourceName.match(re)] for the anchored, case-insensitive pattern
    "Prefix_", any run of units, "_", one or more digits: the groups 1
    and 2.  The greedy run ends at the last underscore, the only one that
    digits alone can follow up to the end. *)
Definition matchNamed (pre : jsstring) (sourceName : jsstring)
    : option (jsstring * jsstring) :=
  if startsWithFold (pre ++ lit "_") sourceName then
    match splitLastUnderscore (drop (length pre + 1) sourceName) with
    | Some (x, d) =>
        if allDigits d && negb (existsb isLineTerminator x)
        then Some (x, d) else None
    | None => None
    end
  else None.

Definition kbKeywords : list jsstring :=
  [lit "PRD"; lit "SPECS"; lit "TIMELINE"; lit "GLOSSARY"; lit "BUSINESS"].

(** [sourceName.match(re)] for the anchored, case-insensitive pattern
    of one of the five keywords, "_" and one or more digits: group 1, in
    lower case. *)
Definition matchKb (sourceName : jsstring) : option jsstring :=
  let hit kw :=
    startsWithFold (kw ++ lit "_") sourceName
    && allDigits (drop (length kw + 1) sourceName) in
  match find hit kbKeywords with
  | Some kw => Some (toLowerCase kw)
  | None => None
  end.

(** The local variables of the replacer callback. *)
Record Source := mkSource {
  icon : jsstring;
  type : jsstring;
  id : jsstring;
  section : jsstring;
  displayName : jsstring;
  isCitation : bool;
  href : jsstring
}.

Definition sectionOf (key : jsstring) : jsstring :=
  if decide (key = lit "prd") then lit "prd"
  else if decide (key = lit "specs") then lit "specs"
  else if decide (key = lit "timeline") then lit "timeline"
  else if decide (key = lit "glossary") then lit "glossary"
  else if decide (key = lit "business") then lit "business_flows"
  else [].

(** The display names of the knowledge-base sections: 需求文档,
    功能说明书, 时间表, 术语表, 业务流程. *)
Definition sectionTitle (section : jsstring) : jsstring :=
  if decide (section = lit "prd") then [38656; 27714; 25991; 26723]%N
  else if decide (section = lit "specs")
  then [21151; 33021; 35828; 26126; 20070]%N
  else if decide (section = lit "timeline") then [26102; 38388; 34920]%N
  else if decide (section = lit "glossary") then [26415; 35821; 34920]%N
  else if decide (section = lit "business_flows")
  then [19994; 21153; 27969; 31243]%N
  else section.

Section WithProject.

(** [route.params.id] of the project view. *)
Variable projectId : jsstring.

(** The [if / else if] chain that parses [sourceName]. *)
Definition parseSource (sourceName : jsstring) : Source :=
  let unparsed icon :=
    mkSource icon [] [] [] sourceName false (lit "#") in
  if includes (lit "minutes") (toLowerCase sourceName) then
    match matchNamed (lit "Minutes") sourceName with
    | Some (name, id) =>
        mkSource (lit "event_note") (lit "minutes") id [] name true
                 (lit "/recording/" ++ id ++ lit "/minutes")
    | None => unparsed (lit "event_note")
    end
  else if includes (lit "transcript") (toLowerCase sourceName) then
    match matchNamed (lit "Transcript") sourceName with
    | Some (name, id) =>
        mkSource (lit "record_voice_over") (lit "transcript") id [] name
                 true (lit "/recording/" ++ id)
    | None => unparsed (lit "record_voice_over")
    end
  else
    match matchKb sourceName with
    | Some key =>
        let section := sectionOf key in
        mkSource (lit "library_books") (lit "kb") [] section
                 (sectionTitle section) true
                 (lit "/project/" ++ projectId ++ lit "?tab=kb")
    | None =>
        if startsWith (lit "document_") (toLowerCase sourceName) then
          match matchNamed (lit "Document") sourceName with
          | Some (name, id) =>
              mkSource (lit "article") (lit "document") id [] name true
                       (lit "/project/" ++ projectId ++ lit "?tab=files")
          | None => unparsed (lit "article")
          end
        else unparsed (lit "description")
    end.

(** The lines of the template literal of a clickable link. *)
Definition anchorLines (href type id section displayName icon : jsstring)
    : list jsstring :=
  [lit "<a href=" ++ quote ++ href ++ quote ++ lit " class=" ++ quote ++ lit "source-link inline-flex items-center gap-1 px-1.5 py-0.5 mx-1 rounded bg-primary/10 hover:bg-primary/20 text-primary text-xs font-medium cursor-pointer transition-colors align-middle no-underline select-none" ++ quote ++ lit " ";
   lit "            data-type=" ++ quote ++ type ++ quote ++ lit " ";
   lit "            data-id=" ++ quote ++ id ++ quote ++ lit " ";
   lit "            data-section=" ++ quote ++ section ++ quote;
   lit "            title=" ++ quote ++ [26597; 30475; 26469; 28304]%N ++ lit ": " ++ displayName ++ quote ++ lit ">";
   lit "            <span class=" ++ quote ++ lit "material-symbols-outlined text-[12px]" ++ quote ++ lit ">" ++ icon ++ lit "</span>";
   lit "            <span class=" ++ quote ++ lit "max-w-[150px] truncate" ++ quote ++ lit ">" ++ displayName ++ lit "</span>";
   lit "            <span class=" ++ quote ++ lit "material-symbols-outlined text-[10px]" ++ quote ++ lit ">open_in_new</span>";
   lit "        </a>"].

(** The lines of the template literal of the fallback badge. *)
Definition badgeLines (icon sourceName : jsstring) : list jsstring :=
  [lit "<span class=" ++ quote ++ lit "inline-flex items-center gap-1 px-1.5 py-0.5 mx-1 rounded bg-primary/10 text-primary text-xs font-medium align-middle cursor-default select-none" ++ quote ++ lit ">";
   lit "          <span class=" ++ quote ++ lit "material-symbols-outlined text-[12px]" ++ quote ++ lit ">" ++ icon ++ lit "</span>";
   lit "          <span>" ++ sourceName ++ lit "</span>";
   lit "        </span>"].

(** The replacer callback: what one [[sourceName]] token becomes. *)
Definition replacer (sourceName : jsstring) : jsstring :=
  let src := parseSource sourceName in
  if isCitation src then
    join newline
         (anchorLines (href src) (type src) (id src) (section src)
                      (displayName src) (icon src))
  else join newline (badgeLines (icon src) sourceName).

(** [html.replace(re, replacer)] with the global flag: the text is scanned from
    the left; where a match starts it is replaced and the scan resumes
    after it, elsewhere one unit is copied.  Every step consumes a
    unit, so a fuel of the length of the text suffices. *)
Fixpoint replaceAll (fuel : nat) (s : jsstring) : jsstring :=
  match fuel with
  | O => s
  | S fuel' =>
      match s with
      | [] => []
      | c :: r =>
          if startsWith (lit "[[") s then
            match closing (drop 2 s) with
            | Some (sourceName, rest) =>
                replacer sourceName ++ replaceAll fuel' rest
            | None => c :: replaceAll fuel' r
            end
          else c :: replaceAll fuel' r
      end
  end.

Definition transformCitations (html : jsstring) : jsstring :=
  replaceAll (length html) html.

(** A text the transformer copies unchanged whatever follows it. *)
Definition inert (x : jsstring) : Prop :=
  forall t, transformCitations (x ++ t) = x ++ transformCitations t.

End WithProject.

(** The brackets that open and close a citation token. *)
Definition opening : jsstring := [91; 91]%N.

Definition closingBrackets : jsstring := [93; 93]%N.

(** A text without two closing brackets in a row. *)
Definition noClose (s : jsstring) : Prop := includes closingBrackets s = false.

(** The project view of project 7. *)
Definition project7 : jsstring := lit "7".

(** What a click on a source link makes [handleMessageClick] do: a
    navigation, a switch to the knowledge-base tab (with the section to
    show, if any), or a switch to the file list with the filter reset. *)
Inductive ClickEffect :=
| RouterPush (path : jsstring)
| ShowKnowledgeBase (section : option jsstring)
| ShowFiles
| NoEffect.

Definition nonEmpty (s : jsstring) : bool :=
  match s with
  | [] => false
  | _ :: _ => true
  end.

(** [handleMessageClick] for a click inside an element of class
    [source-link] whose [data-type], [data-id] and [data-section]
    attributes hold [type], [id] and [section]. *)
Definition handleMessageClick (type id section : jsstring) : ClickEffect :=
  if bool_decide (type = lit "minutes") && nonEmpty id then
    RouterPush (lit "/recording/" ++ id ++ lit "/minutes")
  else if bool_decide (type = lit "transcript") && nonEmpty id then
    RouterPush (lit "/recording/" ++ id)
  else if bool_decide (type = lit "kb") then
    ShowKnowledgeBase (if nonEmpty section then Some section else None)
  else if bool_decide (type = lit "document") then ShowFiles
  else NoEffect.

End Citations.

(** ** Properties of the decimal printer *)

Section DigitsFacts.

Lemma digits_go_length_ge fuel n acc :
  (length acc <= length (digits_go fuel n acc))%nat.
Proof.
  revert n acc. induction fuel as [|fuel IH]; intros n acc; simpl; [lia|].
  destruct (n / 10 =? 0)%N; simpl; [lia|].
  specialize (IH (n / 10)%N ((48 + n mod 10)%N :: acc)). simpl in IH. lia.
Qed.

Lemma log2_at_least n k :
  (2 ^ k <= n)%N -> (N.to_nat k <= N.to_nat (N.log2 n))%nat.
Proof.
  intros H. apply N.log2_le_mono in H. rewrite N.log2_pow2 in H by lia. lia.
Qed.

Lemma digits_small n : (n < 10)%N -> length (digits n) = 1%nat.
Proof.
  intros H. unfold digits. cbn [digits_go].
  rewrite N.div_small by lia. reflexivity.
Qed.

Lemma digits_two n : (10 <= n < 100)%N -> length (digits n) = 2%nat.
Proof.
  intros H. unfold digits.
  pose proof (log2_at_least n 3 ltac:(simpl; lia)) as Hs.
  destruct (N.to_nat (N.log2 n)) as [|[|k]]; try (simpl in Hs; lia).
  cbn [digits_go].
  assert (Hq : (1 <= n / 10 < 10)%N).
  { split.
    - apply N.div_le_lower_bound; lia.
    - apply N.Div0.div_lt_upper_bound; lia. }
  destruct (N.eqb_spec (n / 10) 0) as [E|_]; [lia|].
  rewrite N.div_small by lia. reflexivity.
Qed.

Lemma digits_three n : (100 <= n)%N -> (3 <= length (digits n))%nat.
Proof.
  intros H. unfold digits.
  pose proof (log2_at_least n 6 ltac:(simpl; lia)) as Hs.
  destruct (N.to_nat (N.log2 n)) as [|[|[|k]]]; try (simpl in Hs; lia).
  cbn [digits_go].
  assert (Hq : (10 <= n / 10)%N) by (apply N.div_le_lower_bound; lia).
  destruct (N.eqb_spec (n / 10) 0) as [E|_]; [lia|].
  assert (Hq2 : (1 <= n / 10 / 10)%N) by (apply N.div_le_lower_bound; lia).
  destruct (N.eqb_spec (n / 10 / 10) 0) as [E|_]; [lia|].
  repeat (destruct (_ =? 0)%N; [simpl; lia|]).
  etransitivity; [|apply digits_go_length_ge]. simpl. lia.
Qed.

Lemma digitsValue_from (s : jsstring) : forall v,
  fold_left (fun v c => (v * 10 + (c - 48))%N) s v
  = (v * 10 ^ N.of_nat (length s) + digitsValue s)%N.
Proof.
  unfold digitsValue. induction s as [|c s IH]; intros v.
  - simpl. lia.
  - cbn [fold_left length]. rewrite IH, (IH (0 * 10 + (c - 48))%N).
    rewrite Nat2N.inj_succ, N.pow_succ_r'. lia.
Qed.

(** With enough fuel the digits printed denote the number. *)
Lemma digits_go_value fuel : forall n acc,
  (n < 10 ^ N.of_nat fuel)%N ->
  digitsValue (digits_go fuel n acc)
  = (n * 10 ^ N.of_nat (length acc) + digitsValue acc)%N.
Proof.
  induction fuel as [|fuel IH]; intros n acc Hn.
  - simpl in *. assert (n = 0%N) by lia. subst. lia.
  - cbn [digits_go]. cbv zeta.
    assert (Hacc : digitsValue ((48 + n mod 10)%N :: acc)
                   = (n mod 10 * 10 ^ N.of_nat (length acc) + digitsValue acc)%N).
    { unfold digitsValue at 1. cbn [fold_left].
      rewrite digitsValue_from.
      replace (0 * 10 + (48 + n mod 10 - 48))%N with (n mod 10)%N
        by (generalize (n mod 10)%N; intros m; lia).
      reflexivity. }
    destruct (N.eqb_spec (n / 10) 0) as [E|E].
    + rewrite Hacc.
      pose proof (N.div_mod n 10 ltac:(lia)) as Hdm. rewrite E in Hdm.
      replace (n mod 10)%N with n by lia. reflexivity.
    + rewrite IH.
      * rewrite Hacc. cbn [length]. rewrite Nat2N.inj_succ, N.pow_succ_r'.
        pose proof (N.div_mod n 10 ltac:(lia)). nia.
      * apply N.Div0.div_lt_upper_bound.
        rewrite Nat2N.inj_succ, N.pow_succ_r' in Hn. lia.
Qed.

(** [digits] prints every natural number in full. *)
Lemma digits_value n : digitsValue (digits n) = n.
Proof.
  unfold digits. rewrite digits_go_value.
  { change (digitsValue []) with 0%N. change (N.of_nat (length [])) with 0%N.
    rewrite N.pow_0_r. lia. }
  destruct (N.eq_dec n 0%N) as [->|Hn]; [reflexivity|].
  pose proof (N.log2_spec n ltac:(lia)) as [_ Hlt].
  eapply N.lt_le_trans; [exact Hlt|].
  rewrite Nat2N.inj_succ, N2Nat.id.
  apply N.pow_le_mono_l. lia.
Qed.

(** Leading zeros do not change the number denoted. *)
Lemma digitsValue_padStart k s :
  digitsValue (padStart k 48%N s) = digitsValue s.
Proof.
  unfold padStart, digitsValue. rewrite fold_left_app.
  replace (fold_left (fun v c => (v * 10 + (c - 48))%N)
                     (repeat 48%N (k - length s)) 0%N) with 0%N; [reflexivity|].
  induction (k - length s)%nat as [|m IH]; [reflexivity|exact IH].
Qed.

Lemma padStart_length n c s :
  length (padStart n c s) = Nat.max n (length s).
Proof. unfold padStart. rewrite length_app, repeat_length. lia. Qed.

End DigitsFacts.

(** ** formatTime *)

Section FormatTimeFacts.
Import TimeFormat.

Lemma minutesField_nonneg ms :
  0 <= ms ->
  minutesField (Num ms) = padStart 2 48%N (digits (Z.to_N (ms / 1000 / 60))).
Proof.
  intros H. unfold minutesField, floorDiv, toString.
  assert (0 <= ms / 1000 / 60) by (apply Z.div_pos; [apply Z.div_pos|]; lia).
  destruct (Z.ltb_spec (ms / 1000 / 60) 0); [lia|reflexivity].
Qed.

Lemma secondsField_nonneg ms :
  0 <= ms ->
  secondsField (Num ms) = padStart 2 48%N (digits (Z.to_N ((ms / 1000) mod 60))).
Proof.
  intros H. unfold secondsField, floorDiv, remainder, toString.
  assert (0 <= ms / 1000) by (apply Z.div_pos; lia).
  rewrite Z.rem_mod_nonneg by lia.
  pose proof (Z.mod_pos_bound (ms / 1000) 60 ltac:(lia)).
  destruct (Z.ltb_spec ((ms / 1000) mod 60) 0); [lia|reflexivity].
Qed.

Lemma minutesField_length ms :
  0 <= ms ->
  (2 < length (minutesField (Num ms)))%nat <-> 6000000 <= ms.
Proof.
  intros H. rewrite minutesField_nonneg by assumption.
  rewrite padStart_length.
  assert (Hm : 0 <= ms / 1000 / 60) by (apply Z.div_pos; [apply Z.div_pos|]; lia).
  rewrite Z.div_div in * by lia. change (1000 * 60) with 60000 in *.
  split.
  - intros Hlen.
    destruct (Z.le_gt_cases 6000000 ms) as [|Hlt]; [assumption|exfalso].
    assert (ms / 60000 < 100) by (apply Z.div_lt_upper_bound; lia).
    destruct (Z.lt_ge_cases (ms / 60000) 10).
    + rewrite digits_small in Hlen by lia. simpl in Hlen. lia.
    + rewrite digits_two in Hlen by lia. simpl in Hlen. lia.
  - intros Hge.
    assert (100 <= ms / 60000) by (apply Z.div_le_lower_bound; lia).
    pose proof (digits_three (Z.to_N (ms / 60000)) ltac:(lia)). lia.
Qed.

Lemma secondsField_length ms :
  0 <= ms -> length (secondsField (Num ms)) = 2%nat.
Proof.
  intros H. rewrite secondsField_nonneg by assumption.
  rewrite padStart_length.
  pose proof (Z.mod_pos_bound (ms / 1000) 60 ltac:(lia)).
  destruct (Z.lt_ge_cases ((ms / 1000) mod 60) 10).
  - rewrite digits_small by lia. reflexivity.
  - rewrite digits_two by lia. reflexivity.
Qed.

(** C10, as stated, fails at exactly one hour: the minutes field of
    3600000 ms is "60", two digits long. *)
Lemma formatTime_one_hour_two_digits :
  ~ (forall ms : Z, 3600000 <= ms ->
       (2 < length (minutesField (Num ms)))%nat)
  /\ formatTime (Number (Num 3600000)) = lit "60:00".
Proof.
  split; [|reflexivity].
  intros H. specialize (H 3600000 ltac:(lia)).
  vm_compute in H. lia.
Qed.

(** C10 (amended): [formatTime] is a total function; it returns "00:00"
    for [undefined], [null] and NaN; for every non-negative whole number
    of milliseconds below 2^53, the range in which the double arithmetic
    of the code is exact, it prints floor(ms/1000) as minutes and
    seconds: the minutes
    field denotes floor(ms/60000), never reduced modulo 60 (no hour
    field), the seconds field denotes floor(ms/1000) mod 60, each is padded
    with zeros to at least two digits and the seconds are always two
    digits wide; the minutes field is longer than two digits exactly from
    100 minutes (6000000 ms) on, and 6000000 ms renders as "100:00". *)
Theorem formatTime_total_no_rollover (ms : Z) :
  0 <= ms ->
  ms < maxSafe ->
  formatTime Undefined = lit "00:00"
  /\ formatTime Null = lit "00:00"
  /\ formatTime (Number NaN) = lit "00:00"
  /\ formatTime (Number (Num ms))
     = padStart 2 48%N (digits (Z.to_N (ms / 1000 / 60)))
       ++ lit ":"
       ++ padStart 2 48%N (digits (Z.to_N ((ms / 1000) mod 60)))
  /\ (digitsValue (minutesField (Num ms)) = Z.to_N (ms / 1000 / 60)
      /\ digitsValue (secondsField (Num ms)) = Z.to_N ((ms / 1000) mod 60))
  /\ length (secondsField (Num ms)) = 2%nat
  /\ ((2 < length (minutesField (Num ms)))%nat <-> 6000000 <= ms)
  /\ formatTime (Number (Num 6000000)) = lit "100:00".
Proof.
  intros H _. repeat split; try reflexivity.
  - simpl. now rewrite minutesField_nonneg, secondsField_nonneg.
  - rewrite minutesField_nonneg by assumption.
    now rewrite digitsValue_padStart, digits_value.
  - rewrite secondsField_nonneg by assumption.
    now rewrite digitsValue_padStart, digits_value.
  - now apply secondsField_length.
  - now apply minutesField_length.
  - now apply minutesField_length.
Qed.

Lemma formatTime_total_no_rollover_witness :
  0 <= 61999 < maxSafe
  /\ formatTime (Number (Num 61999)) = lit "01:01".
Proof.
  assert (Hsafe : 61999 < maxSafe) by reflexivity.
  split; [split; [lia|exact Hsafe]|].
  destruct (formatTime_total_no_rollover 61999 ltac:(lia) Hsafe)
    as (_ & _ & _ & E & _).
  rewrite E. reflexivity.
Defined.

End FormatTimeFacts.

(** ** activeSegmentIndex *)

Section ActiveSegmentFacts.
Import Segments.

Lemma covers_spec t seg :
  covers t seg = true <-> seg_start seg <= t <= seg_end seg.
Proof. unfold covers. rewrite andb_true_iff, !Z.leb_le. tauto. Qed.

Lemma findIndex_from_spec {A} (p : A -> bool) (l : list A) (k : Z) :
  (findIndex_from p k l = -1 /\ forall x, x ∈ l -> p x = false)
  \/ (exists (i : nat) x,
        findIndex_from p k l = k + Z.of_nat i
        /\ l !! i = Some x /\ p x = true
        /\ forall (j : nat) y, (j < i)%nat -> l !! j = Some y -> p y = false).
Proof.
  revert k. induction l as [|a l IH]; intros k; simpl.
  - left. split; [reflexivity|]. intros x Hx. inversion Hx.
  - destruct (p a) eqn:Hpa.
    + right. exists 0%nat, a. repeat split; [lia|assumption|].
      intros j y Hj. lia.
    + destruct (IH (k + 1)) as [[E Hall]|(i & x & E & Hi & Hp & Hfirst)].
      * left. split; [assumption|].
        intros x Hx. apply elem_of_cons in Hx as [->|Hx]; auto.
      * right. exists (S i), x. repeat split; [lia|assumption|assumption|].
        intros [|j] y Hj Hy; simpl in Hy.
        -- congruence.
        -- apply (Hfirst j y); [lia|assumption].
Qed.

(** C5: on every segment list and time [t], [activeSegmentIndex] is the
    index of the first segment with start <= t <= end; hence the unique
    such index when exactly one segment qualifies, the first one when
    several overlap, and the sentinel -1 when none does (or when no
    transcript is loaded). *)
Theorem activeSegmentIndex_first_match (segs : list Segment)
    (pt : jsstring) (t : Z) :
  let r := activeSegmentIndex (Some (mkTranscript segs pt)) t in
  (forall (i : nat) seg,
      segs !! i = Some seg ->
      seg_start seg <= t <= seg_end seg ->
      (forall (j : nat) seg', (j < i)%nat -> segs !! j = Some seg' ->
                      ~ (seg_start seg' <= t <= seg_end seg')) ->
      r = Z.of_nat i)
  /\ (forall (i : nat) seg,
      segs !! i = Some seg ->
      seg_start seg <= t <= seg_end seg ->
      (forall (j : nat) seg', segs !! j = Some seg' ->
                      seg_start seg' <= t <= seg_end seg' -> j = i) ->
      r = Z.of_nat i)
  /\ ((forall seg, seg ∈ segs -> ~ (seg_start seg <= t <= seg_end seg)) ->
      r = -1)
  /\ (r = -1 \/ exists (i : nat), r = Z.of_nat i /\ (i < length segs)%nat)
  /\ activeSegmentIndex None t = -1.
Proof.
  intros r.
  assert (Hfirst : forall (i : nat) seg,
      segs !! i = Some seg ->
      seg_start seg <= t <= seg_end seg ->
      (forall (j : nat) seg', (j < i)%nat -> segs !! j = Some seg' ->
                      ~ (seg_start seg' <= t <= seg_end seg')) ->
      r = Z.of_nat i).
  { intros i seg Hi Hc Hbefore. subst r. unfold activeSegmentIndex, findIndex.
    simpl.
    destruct (findIndex_from_spec (covers t) segs 0)
      as [[_ Hall]|(i' & x & E & Hi' & Hp & Hf)].
    - assert (covers t seg = false)
        by (apply Hall; eapply list_elem_of_lookup_2; eassumption).
      apply covers_spec in Hc. congruence.
    - rewrite E. destruct (Nat.lt_trichotomy i' i) as [Hlt|[->|Hgt]].
      + exfalso. apply (Hbefore i' x Hlt Hi'). now apply covers_spec.
      + lia.
      + apply covers_spec in Hc. rewrite (Hf i seg Hgt Hi) in Hc. discriminate. }
  split; [exact Hfirst|]. split; [|split; [|split]].
  - intros i seg Hi Hc Huniq. apply (Hfirst i seg Hi Hc).
    intros j seg' Hj Hj' Hc'. specialize (Huniq j seg' Hj' Hc'). lia.
  - intros Hnone. subst r. unfold activeSegmentIndex, findIndex. simpl.
    destruct (findIndex_from_spec (covers t) segs 0)
      as [[E _]|(i' & x & _ & Hi' & Hp & _)]; [assumption|].
    exfalso. apply (Hnone x).
    + eapply list_elem_of_lookup_2; eassumption.
    + now apply covers_spec.
  - subst r. unfold activeSegmentIndex, findIndex. simpl.
    destruct (findIndex_from_spec (covers t) segs 0)
      as [[E _]|(i' & x & E & Hi' & _)]; [now left|].
    right. exists i'. split; [lia|]. eapply lookup_lt_Some; eassumption.
  - reflexivity.
Qed.

End ActiveSegmentFacts.

(** ** speakerStats *)

Section SpeakerStatsFacts.
Import Segments.

Lemma bump_sum k d stats : sumValues (bump k d stats) = sumValues stats + d.
Proof.
  induction stats as [|[k' v] r IH]; simpl; [lia|].
  destruct (decide (k = k')); simpl; lia.
Qed.

Lemma bump_not_nil k d stats : bump k d stats <> [].
Proof.
  destruct stats as [|[k' v] r]; simpl; [discriminate|].
  destruct (decide (k = k')); discriminate.
Qed.

Lemma accumulate_fold segs stats tot :
  let r := fold_left accumulate segs (stats, tot) in
  sumValues (fst r) = sumValues stats + totalSpoken segs
  /\ snd r = tot + totalSpoken segs
  /\ (stats <> [] \/ segs <> [] -> fst r <> []).
Proof.
  revert stats tot. induction segs as [|seg segs IH]; intros stats tot; simpl.
  - repeat split; try lia. intros [H|H]; [assumption|congruence].
  - destruct (IH (bump (speaker_id seg) (seg_end seg - seg_start seg) stats)
                 (tot + (seg_end seg - seg_start seg))) as (H1 & H2 & H3).
    unfold accumulate at 2 4 6. simpl.
    rewrite H1, H2, bump_sum. repeat split; try lia.
    intros _. apply H3. left. apply bump_not_nil.
Qed.

Lemma insertStat_sum x l :
  sumPercentages (insertStat x l) = sumPercentages (x :: l).
Proof.
  induction l as [|y r IH]; [reflexivity|].
  simpl. destruct (sortsAfter x y); [|reflexivity].
  simpl. rewrite IH. simpl.
  destruct (percentage x), (percentage y), (sumPercentages r);
    try reflexivity.
  f_equal. lia.
Qed.

Lemma insertStat_length x l : length (insertStat x l) = S (length l).
Proof.
  induction l as [|y r IH]; [reflexivity|].
  simpl. destruct (sortsAfter x y); simpl; [now rewrite IH|reflexivity].
Qed.

Lemma sortStats_sum l : sumPercentages (sortStats l) = sumPercentages l.
Proof.
  induction l as [|x l IH]; [reflexivity|].
  simpl. rewrite insertStat_sum. simpl. now rewrite IH.
Qed.

Lemma sortStats_length l : length (sortStats l) = length l.
Proof.
  induction l as [|x l IH]; [reflexivity|].
  simpl. now rewrite insertStat_length, IH.
Qed.

Lemma scale_positive e : 0 < scaleUp e /\ 0 < scaleDown e.
Proof. unfold scaleUp, scaleDown. split; apply Z.pow_pos_nonneg; lia. Qed.

(** One more power of two. *)
Lemma scale_step e :
  scaleUp (e + 1) * scaleDown e = 2 * (scaleUp e * scaleDown (e + 1)).
Proof.
  unfold scaleUp, scaleDown. destruct (Z.le_gt_cases 0 e).
  - replace (Z.max (e + 1) 0) with (e + 1) by lia.
    replace (Z.max (- e) 0) with 0 by lia.
    replace (Z.max e 0) with e by lia.
    replace (Z.max (- (e + 1)) 0) with 0 by lia.
    rewrite Z.pow_add_r by lia. change (2 ^ 0) with 1. change (2 ^ 1) with 2.
    lia.
  - replace (Z.max (e + 1) 0) with 0 by lia.
    replace (Z.max e 0) with 0 by lia.
    replace (Z.max (- e) 0) with (- (e + 1) + 1) by lia.
    replace (Z.max (- (e + 1)) 0) with (- (e + 1)) by lia.
    rewrite Z.pow_add_r by lia. change (2 ^ 0) with 1. change (2 ^ 1) with 2.
    lia.
Qed.

Lemma roundHalfEven_error num den :
  0 < den ->
  - den <= 2 * (roundHalfEven num den * den - num) <= den.
Proof.
  intros Hden. unfold roundHalfEven.
  pose proof (Z.div_mod num den ltac:(lia)) as Hdm.
  pose proof (Z.mod_pos_bound num den Hden) as Hr.
  set (q := num / den) in *. set (r := num mod den) in *.
  destruct (Z.ltb_spec (2 * r) den); [lia|].
  destruct (Z.ltb_spec den (2 * r)); [lia|].
  destruct (Z.even q); lia.
Qed.

(** The exponent the rounding chooses leaves at least 52 bits before the
    binary point. *)
Lemma nearestDouble_exponent a b :
  0 < a -> 0 < b ->
  let e0 := Z.log2 a - Z.log2 b - 53 in
  2 ^ 52 * (b * scaleUp e0) <= a * scaleDown e0.
Proof.
  intros Ha Hb e0.
  pose proof (Z.log2_spec a Ha) as [Ha1 _].
  pose proof (Z.log2_spec b Hb) as [_ Hb2].
  pose proof (Z.log2_nonneg a) as Hi. pose proof (Z.log2_nonneg b) as Hj.
  set (i := Z.log2 a) in *. set (j := Z.log2 b) in *.
  unfold scaleUp, scaleDown. destruct (Z.le_gt_cases 0 e0) as [He|He].
  - replace (Z.max e0 0) with e0 by lia.
    replace (Z.max (- e0) 0) with 0 by lia. change (2 ^ 0) with 1.
    assert (E : 2 ^ i = 2 ^ 52 * (2 ^ Z.succ j * 2 ^ e0)).
    { rewrite <- !Z.pow_add_r by lia. f_equal. subst e0. lia. }
    assert (Hp : 0 < 2 ^ e0) by (apply Z.pow_pos_nonneg; lia).
    nia.
  - replace (Z.max e0 0) with 0 by lia.
    replace (Z.max (- e0) 0) with (- e0) by lia. change (2 ^ 0) with 1.
    assert (E : 2 ^ i * 2 ^ (- e0) = 2 ^ 52 * 2 ^ Z.succ j).
    { rewrite <- !Z.pow_add_r by lia. f_equal. subst e0. lia. }
    assert (Hp : 0 < 2 ^ (- e0)) by (apply Z.pow_pos_nonneg; lia).
    nia.
Qed.

(** The rounding of a positive quotient to a double has a relative error
    of at most 2^-53. *)
Lemma nearestDouble_error a b :
  0 < a -> 0 < b ->
  0 < fst (nearestDouble a b)
  /\ 0 < snd (nearestDouble a b)
  /\ - (a * snd (nearestDouble a b))
     <= 2 ^ 53 * (fst (nearestDouble a b) * b - a * snd (nearestDouble a b))
     <= a * snd (nearestDouble a b).
Proof.
  intros Ha Hb. unfold nearestDouble. cbn zeta.
  pose proof (nearestDouble_exponent a b Ha Hb) as H0. cbn zeta in H0.
  set (e0 := Z.log2 a - Z.log2 b - 53) in *.
  set (e := if 2 ^ 53 * (b * scaleUp e0) <=? a * scaleDown e0
            then e0 + 1 else e0).
  assert (He : 2 ^ 52 * (b * scaleUp e) <= a * scaleDown e).
  { subst e. destruct (Z.leb_spec (2 ^ 53 * (b * scaleUp e0))
                                  (a * scaleDown e0)) as [H1|_]; [|exact H0].
    pose proof (scale_step e0) as Hs.
    destruct (scale_positive e0) as [Hu0 Hd0].
    destruct (scale_positive (e0 + 1)) as [Hu1 Hd1].
    apply (Z.mul_le_mono_pos_r _ _ (scaleDown e0) Hd0).
    replace (2 ^ 52 * (b * scaleUp (e0 + 1)) * scaleDown e0)
      with (2 ^ 52 * b * (scaleUp (e0 + 1) * scaleDown e0)) by ring.
    rewrite Hs.
    replace (2 ^ 52 * b * (2 * (scaleUp e0 * scaleDown (e0 + 1))))
      with (2 ^ 53 * (b * scaleUp e0) * scaleDown (e0 + 1))
      by (change (2 ^ 53) with (2 * 2 ^ 52); ring).
    replace (a * scaleDown (e0 + 1) * scaleDown e0)
      with (a * scaleDown e0 * scaleDown (e0 + 1)) by ring.
    apply Z.mul_le_mono_nonneg_r; lia. }
  clearbody e. clear H0 e0.
  destruct (scale_positive e) as [Hu Hd].
  set (num := a * scaleDown e) in *. set (den := b * scaleUp e) in *.
  assert (Hden : 0 < den) by (subst den; lia).
  pose proof (roundHalfEven_error num den Hden) as Hm.
  set (m := roundHalfEven num den) in *. cbn [fst snd].
  replace (m * scaleUp e * b - num) with (m * den - num)
    by (subst den; ring).
  change (2 ^ 52) with 4503599627370496 in He.
  change (2 ^ 53) with 9007199254740992.
  assert (Hmpos : 0 < m) by nia.
  split; [nia|]. split; [exact Hd|]. lia.
Qed.

(** The percentage of a positive duration is within one half, and the
    two rounding errors, of the exact share. *)
Lemma percentageOf_error d T :
  0 <= d -> 0 < T ->
  exists p,
    percentageOf d T = Num p
    /\ - (2 ^ 51 * T + 200 * d) <= 2 ^ 52 * (p * T - 100 * d)
       <= 2 ^ 51 * T + 200 * d.
Proof.
  intros Hd HT. unfold percentageOf.
  destruct (Z.eqb_spec T 0); [lia|].
  destruct (Z.eqb_spec d 0) as [->|Hd0].
  { exists 0. split; [reflexivity|]. change (2 ^ 51) with 2251799813685248.
    lia. }
  eexists. split; [reflexivity|].
  rewrite (Z.abs_eq d), (Z.abs_eq T) by lia.
  replace (Z.sgn d * Z.sgn T) with 1
    by (rewrite !Z.sgn_pos by lia; reflexivity).
  destruct (nearestDouble_error d T ltac:(lia) HT) as (Ha1 & Hb1 & E1).
  set (a1 := fst (nearestDouble d T)) in *.
  set (b1 := snd (nearestDouble d T)) in *.
  destruct (nearestDouble_error (a1 * 100) b1 ltac:(lia) Hb1)
    as (Ha2 & Hb2 & E2).
  set (a2 := fst (nearestDouble (a1 * 100) b1)) in *.
  set (b2 := snd (nearestDouble (a1 * 100) b1)) in *.
  pose proof (Z.div_mod (2 * 1 * a2 + b2) (2 * b2) ltac:(lia)) as Hdm.
  pose proof (Z.mod_pos_bound (2 * 1 * a2 + b2) (2 * b2) ltac:(lia)) as Hr.
  set (p := (2 * 1 * a2 + b2) / (2 * b2)) in *.
  set (r := (2 * 1 * a2 + b2) mod (2 * b2)) in *.
  change (2 ^ 53) with 9007199254740992 in *.
  change (2 ^ 52) with 4503599627370496.
  change (2 ^ 51) with 2251799813685248.
  (* the three errors *)
  set (X := p * b2 - a2).
  set (Y := a2 * b1 - 100 * a1 * b2).
  set (W := a1 * T - d * b1).
  assert (HX : - b2 <= 2 * X <= b2) by (subst X; lia).
  assert (HY : - (100 * a1 * b2) <= 9007199254740992 * Y <= 100 * a1 * b2)
    by (subst Y; lia).
  assert (HW : - (d * b1) <= 9007199254740992 * W <= d * b1)
    by (subst W; lia).
  assert (Hid : (p * T - 100 * d) * (b1 * b2)
                = T * b1 * X + T * Y + 100 * b2 * W)
    by (subst X Y W; ring).
  assert (Ha1T : a1 * T <= 2 * (d * b1)) by (subst W; nia).
  assert (Hb12 : 0 < b1 * b2) by nia.
  assert (H1 : - (T * b1 * b2) <= 2 * (T * b1 * X) <= T * b1 * b2) by nia.
  assert (H2 : - (200 * (d * b1) * b2) <= 9007199254740992 * (T * Y)
               <= 200 * (d * b1) * b2) by nia.
  assert (H3 : - (100 * b2 * (d * b1)) <= 9007199254740992 * (100 * b2 * W)
               <= 100 * b2 * (d * b1)) by nia.
  assert (Hall : - ((2251799813685248 * T + 200 * d) * (b1 * b2))
                 <= 4503599627370496 * ((p * T - 100 * d) * (b1 * b2))
                 <= (2251799813685248 * T + 200 * d) * (b1 * b2)).
  { rewrite Hid. nia. }
  split.
  - apply (Z.mul_le_mono_pos_r _ _ (b1 * b2) Hb12). lia.
  - apply (Z.mul_le_mono_pos_r _ _ (b1 * b2) Hb12). lia.
Qed.

(** The sum of the percentages of non-negative durations in terms of the
    exact shares. *)
Lemma rounded_shares_sum (T : Z) (stats : list (jsstring * Z)) :
  0 < T ->
  Forall (fun e => 0 <= snd e) stats ->
  exists s,
    sumPercentages
      (map (fun e => mkStat (fst e) (percentageOf (snd e) T)) stats) = Some s
    /\ - (2 ^ 51 * T * Z.of_nat (length stats) + 200 * sumValues stats)
       <= 2 ^ 52 * (s * T - 100 * sumValues stats)
       <= 2 ^ 51 * T * Z.of_nat (length stats) + 200 * sumValues stats.
Proof.
  intros HT Hall. induction Hall as [|[k d] r Hd Hr (s & Hs & Hlo)].
  - exists 0. cbn. split; [reflexivity|]. lia.
  - cbn [snd] in Hd.
    destruct (percentageOf_error d T Hd HT) as (p & Hp & Hpe).
    exists (p + s). cbn [map sumPercentages fst snd percentage length
                           sumValues fold_right].
    rewrite Hp, Hs. split; [reflexivity|].
    fold (sumValues r).
    change (2 ^ 51) with 2251799813685248 in *.
    change (2 ^ 52) with 4503599627370496 in *.
    lia.
Qed.

Lemma bump_nonneg k d stats :
  0 <= d -> Forall (fun e => 0 <= snd e) stats ->
  Forall (fun e => 0 <= snd e) (bump k d stats).
Proof.
  intros Hd Hall. induction Hall as [|[k' v] r Hv Hr IH]; cbn [bump].
  - repeat constructor. exact Hd.
  - cbn [snd] in Hv. destruct (decide (k = k')); constructor;
      cbn [snd]; try assumption; lia.
Qed.

Lemma accumulate_nonneg segs : forall stats tot,
  Forall (fun seg => seg_start seg <= seg_end seg) segs ->
  Forall (fun e => 0 <= snd e) stats ->
  Forall (fun e => 0 <= snd e)
         (fst (fold_left accumulate segs (stats, tot))).
Proof.
  induction segs as [|seg segs IH]; intros stats tot Hsegs Hstats;
    [exact Hstats|].
  inversion Hsegs as [|? ? Hseg Hrest]; subst.
  cbn [fold_left]. unfold accumulate at 2. cbn [fst snd].
  apply IH; [assumption|]. apply bump_nonneg; [lia|assumption].
Qed.

(** X8: when the total duration is positive, no segment ends before it
    starts, the times are in the range the code handles exactly and no
    speaker label names a member of [Object.prototype], every percentage
    of [speakerStats] is finite and the percentages sum to 100 up to
    rounding: with [n] speakers the sum lies within [n/2] of 100.  The
    percentages are those the code computes, with the quotient and its
    product with 100 rounded to doubles. *)
Lemma speakerStats_sum_100 (t : Transcript) :
  0 < totalSpoken (content t) ->
  Forall (fun seg => seg_start seg <= seg_end seg) (content t) ->
  exactTimes (content t) ->
  Forall (fun seg => plainKey (speaker_id seg)) (content t) ->
  exists s,
    sumPercentages (speakerStats (Some t)) = Some s
    /\ 200 - Z.of_nat (length (speakerStats (Some t))) <= 2 * s
       <= 200 + Z.of_nat (length (speakerStats (Some t))).
Proof.
  intros HT Hdur _ _. unfold speakerStats.
  pose proof (accumulate_fold (content t) [] 0) as (H1 & H2 & _).
  pose proof (accumulate_nonneg (content t) [] 0 Hdur ltac:(constructor))
    as Hnn.
  destruct (fold_left accumulate (content t) ([], 0)) as [stats T].
  cbn [fst snd] in H1, H2, Hnn.
  change (sumValues []) with 0 in H1. rewrite Z.add_0_l in H1, H2.
  destruct (rounded_shares_sum T stats ltac:(lia) Hnn) as (s & Hs & Hb).
  exists s. rewrite sortStats_sum, sortStats_length, length_map.
  split; [assumption|]. rewrite H1, <- H2 in *.
  change (2 ^ 51) with 2251799813685248 in Hb.
  change (2 ^ 52) with 4503599627370496 in Hb.
  set (n := Z.of_nat (length stats)) in *.
  assert (Hn : 0 <= n) by (subst n; lia).
  nia.
Qed.

(** The result is empty only for an empty segment list. *)
Lemma speakerStats_not_empty (t : Transcript) :
  content t <> [] -> speakerStats (Some t) <> [].
Proof.
  intros Hne. unfold speakerStats.
  pose proof (accumulate_fold (content t) [] 0) as (_ & _ & H3).
  destruct (fold_left accumulate (content t) ([], 0)) as [stats T].
  simpl in H3. specialize (H3 (or_intror Hne)).
  intros E. apply (f_equal (@length Stat)) in E.
  rewrite sortStats_length, length_map in E.
  destruct stats; [congruence|discriminate].
Qed.

(** C1 (the code departs from it): a single segment of zero length has
    total duration zero, and [speakerStats] divides by that zero: the
    result is not empty but one entry whose percentage is NaN. *)
Theorem speakerStats_zero_total_NaN :
  let t := mkTranscript [mkSegment (lit "Speaker 1") 0 0 (lit "hi")] [] in
  totalSpoken (content t) = 0
  /\ speakerStats (Some t) = [mkStat (lit "Speaker 1") NaN]
  /\ speakerStats (Some t) <> [].
Proof. repeat split. discriminate. Qed.

End SpeakerStatsFacts.

(** ** Speaker rename and the colour cache *)

Section SpeakerRenameFacts.
Import Segments Speakers.



Lemma colorOf_insert_eq m k v : colorOf (<[k := v]> m) k = Some v.
Proof. unfold colorOf. now rewrite lookup_insert_eq. Qed.

Lemma colorOf_insert_ne m k k' v :
  k <> k' -> colorOf (<[k := v]> m) k' = colorOf m k'.
Proof. intros H. unfold colorOf. now rewrite lookup_insert_ne. Qed.




End SpeakerRenameFacts.

(** ** Bounded playback *)

Section BoundedPlaybackFacts.
Import Player.

Lemma pauseCount_withTime t el cur d p s :
  pauseCount (mkState (Some (withTime t el)) cur d p s)
  = length (filter (fun c => c = CallPause) (calls el)).
Proof. reflexivity. Qed.

(** A tick strictly before the armed bound changes neither the bound nor
    the number of pauses. *)
Lemma tick_before_bound st e t :
  is_Some (audioRef st) -> stopAt st = Some e -> t < e ->
  is_Some (audioRef (tick t st))
  /\ stopAt (tick t st) = Some e
  /\ pauseCount (tick t st) = pauseCount st
  /\ isPlaying (tick t st) = isPlaying st.
Proof.
  intros [el Hel] Hs Hlt. unfold tick, onTimeUpdate. rewrite Hel. simpl.
  rewrite Hs.
  destruct (Z.leb_spec e t); [lia|]. rewrite andb_false_r. simpl.
  unfold pauseCount. rewrite Hel. simpl. repeat split. now eexists.
Qed.

Lemma ticks_before_bound ts : forall st e,
  is_Some (audioRef st) -> stopAt st = Some e ->
  Forall (fun t => t < e) ts ->
  is_Some (audioRef (ticks ts st))
  /\ stopAt (ticks ts st) = Some e
  /\ pauseCount (ticks ts st) = pauseCount st
  /\ isPlaying (ticks ts st) = isPlaying st.
Proof.
  induction ts as [|t ts IH]; intros st e Hel Hs Hall; [now simpl|].
  inversion Hall as [|? ? Ht Hts]; subst.
  destruct (tick_before_bound st e t Hel Hs Ht) as (H1 & H2 & H3 & H4).
  destruct (IH (tick t st) e H1 H2 Hts) as (K1 & K2 & K3 & K4).
  simpl. repeat split; try assumption; congruence.
Qed.

(** The tick that reaches a non-zero armed bound pauses the element,
    clears [isPlaying] and clears the bound. *)
Lemma tick_crossing_bound st e t :
  is_Some (audioRef st) -> stopAt st = Some e -> e <> 0 -> e <= t ->
  is_Some (audioRef (tick t st))
  /\ stopAt (tick t st) = None
  /\ pauseCount (tick t st) = S (pauseCount st)
  /\ isPlaying (tick t st) = false.
Proof.
  intros [el Hel] Hs Hne Hle. unfold tick, onTimeUpdate. rewrite Hel. simpl.
  rewrite Hs. simpl.
  destruct (Z.eqb_spec e 0); [contradiction|].
  destruct (Z.leb_spec e t); [|lia]. simpl.
  unfold pauseCount. rewrite Hel. simpl.
  rewrite filter_app, length_app. simpl.
  repeat split; [now eexists|lia].
Qed.

(** Without an armed bound no tick pauses. *)
Lemma tick_unbounded st t :
  stopAt st = None ->
  stopAt (tick t st) = None /\ pauseCount (tick t st) = pauseCount st.
Proof.
  intros Hs. unfold tick, onTimeUpdate.
  destruct (audioRef st) as [el|] eqn:Hel; simpl; rewrite Hs.
  - unfold pauseCount. rewrite Hel. simpl. split; reflexivity.
  - unfold pauseCount. simpl. rewrite Hel. split; reflexivity || assumption.
Qed.

Lemma ticks_unbounded ts : forall st,
  stopAt st = None ->
  stopAt (ticks ts st) = None /\ pauseCount (ticks ts st) = pauseCount st.
Proof.
  induction ts as [|t ts IH]; intros st Hs; [now simpl|].
  destruct (tick_unbounded st t Hs) as [H1 H2].
  destruct (IH (tick t st) H1) as [K1 K2].
  simpl. split; congruence.
Qed.

Lemma seekTo_ready st el startMs endMs playOk :
  audioRef st = Some el -> 1 <= readyState el ->
  is_Some (audioRef (seekTo (Some startMs) endMs playOk st))
  /\ stopAt (seekTo (Some startMs) endMs playOk st)
     = (if truthy endMs then endMs else None)
  /\ pauseCount (seekTo (Some startMs) endMs playOk st) = pauseCount st.
Proof.
  intros Hel Hr. unfold seekTo. rewrite Hel.
  destruct (Z.leb_spec 1 (readyState el)); [|lia].
  unfold doSeekAndPlay, pauseCount. rewrite Hel. simpl.
  rewrite filter_app, length_app. simpl.
  repeat split; [now eexists|lia].
Qed.

Lemma doSeekAndPlay_armed startMs endMs playOk el st :
  audioRef st = Some el ->
  is_Some (audioRef (doSeekAndPlay startMs endMs playOk el st))
  /\ stopAt (doSeekAndPlay startMs endMs playOk el st)
     = (if truthy endMs then endMs else None)
  /\ pauseCount (doSeekAndPlay startMs endMs playOk el st) = pauseCount st.
Proof.
  intros Hel. unfold doSeekAndPlay, pauseCount. rewrite Hel. simpl.
  rewrite filter_app, length_app. simpl.
  repeat split; [now eexists|lia].
Qed.

(** The listeners that run on [loadedmetadata] keep the element and
    cause no pause. *)
Lemma pending_listeners_run playOk pending : forall s,
  is_Some (audioRef s) ->
  let s' := fold_left
              (fun s pending =>
                 match audioRef s with
                 | Some e => doSeekAndPlay (fst pending) (snd pending) playOk e s
                 | None => s
                 end) pending s in
  is_Some (audioRef s') /\ pauseCount s' = pauseCount s.
Proof.
  induction pending as [|p pending IH]; intros s Hs; [now split|].
  cbn [fold_left]. destruct Hs as [e He]. rewrite He.
  destruct (doSeekAndPlay_armed (fst p) (snd p) playOk e s He)
    as (H1 & _ & H3).
  destruct (IH _ H1) as [K1 K2]. split; [exact K1|]. cbn zeta in K2.
  congruence.
Qed.

(** When [loadedmetadata] fires, the listener registered last decides
    the bound: a deferred seek to a non-zero end arms it, whatever
    listeners were registered before. *)
Lemma loadedMetadata_armed st el d playOk earlier startMs endMs :
  audioRef st = Some el ->
  onLoaded el = earlier ++ [(startMs, Some endMs)] ->
  endMs <> 0 ->
  is_Some (audioRef (loadedMetadata d playOk st))
  /\ stopAt (loadedMetadata d playOk st) = Some endMs
  /\ pauseCount (loadedMetadata d playOk st) = pauseCount st.
Proof.
  intros Hel Hl Hne. unfold loadedMetadata. rewrite Hel, Hl.
  rewrite fold_left_app. cbn [fold_left fst snd].
  set (s0 := mkState _ (currentTime st) (Some d) (isPlaying st) (stopAt st)).
  assert (H0 : is_Some (audioRef s0)) by (subst s0; now eexists).
  destruct (pending_listeners_run playOk earlier s0 H0) as [[e He] Hp].
  cbn zeta in He, Hp. rewrite He.
  destruct (doSeekAndPlay_armed startMs (Some endMs) playOk e _ He)
    as (H1 & H2 & H3).
  split; [exact H1|]. split.
  - rewrite H2. cbn [truthy].
    destruct (Z.eqb_spec endMs 0); [contradiction|reflexivity].
  - rewrite H3, Hp. subst s0. unfold pauseCount. now rewrite Hel.
Qed.

(** A tick leaves the element's readiness and its pending listeners as
    they are. *)
Lemma ticks_keep_listeners ts : forall st el,
  audioRef st = Some el ->
  exists el',
    audioRef (ticks ts st) = Some el'
    /\ onLoaded el' = onLoaded el
    /\ readyState el' = readyState el.
Proof.
  induction ts as [|t ts IH]; intros st el Hel; [eauto|].
  cbn [ticks fold_left]. fold (ticks ts (tick t st)).
  assert (H : exists e, audioRef (tick t st) = Some e
                        /\ onLoaded e = onLoaded el
                        /\ readyState e = readyState el).
  { unfold tick, onTimeUpdate. rewrite Hel. cbn.
    destruct (stopAt st) as [bound|]; [|eauto].
    destruct (_ && _); eauto. }
  destruct H as (e & He & Ho & Hr).
  destruct (IH _ _ He) as (el' & H1 & H2 & H3).
  exists el'. split; [exact H1|]. split; congruence.
Qed.

(** A seek on an element whose metadata is not loaded only registers a
    listener and asks the element to load. *)
Lemma seekTo_registers st el startMs endMs playOk :
  audioRef st = Some el -> readyState el < 1 ->
  let s0 := seekTo (Some startMs) endMs playOk st in
  stopAt s0 = stopAt st
  /\ pauseCount s0 = pauseCount st
  /\ exists el',
       audioRef s0 = Some el'
       /\ onLoaded el' = onLoaded el ++ [(startMs, endMs)]
       /\ calls el' = calls el ++ [CallLoad]
       /\ readyState el' = readyState el.
Proof.
  intros Hel Hr s0. subst s0. unfold seekTo. rewrite Hel.
  destruct (Z.leb_spec 1 (readyState el)); [lia|].
  cbn. split; [reflexivity|]. split.
  - unfold pauseCount. rewrite Hel. simpl.
    rewrite filter_app, length_app. simpl. lia.
  - eexists. repeat split.
Qed.

(** X6: on an element whose metadata is not loaded yet the seek is
    deferred: [seekTo] leaves the bound as it was and asks the element to
    load, and the bound is armed when [loadedmetadata] fires, whatever
    earlier deferred seeks are still pending. *)
Lemma seekTo_deferred st el startMs endMs playOk d :
  audioRef st = Some el -> readyState el < 1 ->
  endMs <> 0 ->
  let s0 := seekTo (Some startMs) (Some endMs) playOk st in
  stopAt s0 = stopAt st
  /\ option_map calls (audioRef s0) = Some (calls el ++ [CallLoad])
  /\ stopAt (loadedMetadata d playOk s0) = Some endMs.
Proof.
  intros Hel Hr Hne s0.
  destruct (seekTo_registers st el startMs (Some endMs) playOk Hel Hr)
    as (H1 & _ & el' & H2 & H3 & H4 & _).
  fold s0 in H1, H2. split; [exact H1|]. split.
  - rewrite H2. cbn. now rewrite H4.
  - now destruct (loadedMetadata_armed s0 el' d playOk _ _ _ H2 H3 Hne)
      as (_ & H & _).
Qed.

(** C4, as stated, fails for a supplied end of 0 (a zero-length segment
    at the very start, [seekTo(0, 0)]): the test [if (endMs)] leaves the
    bound unarmed, and a tick at 0 ms, which is at least [endMs], does
    not pause. *)
Lemma seekTo_zero_end_never_pauses :
  let s0 := seekTo (Some 0) (Some 0) true example_player in
  stopAt s0 = None
  /\ pauseCount (tick 0 s0) = pauseCount s0
  /\ isPlaying (tick 0 s0) = true
  /\ pauseCount (ticks [0; 1000; 60000] s0) = 0%nat.
Proof. repeat split. Qed.

(** C4 (amended): [seekTo(startMs, endMs)] with a non-zero [endMs]
    supplied arms the bound, at once on an element whose metadata is
    loaded, and otherwise when [loadedmetadata] fires and the deferred
    seek runs (whatever ticks come in between).  From then on ticks
    strictly before [endMs] never pause; the first tick whose observed
    time is at least [endMs] pauses playback exactly once, clears
    [isPlaying] and clears the bound; every later tick causes no further
    pause. *)
Theorem bounded_playback (st : State) (el : Element) (startMs endMs : Z)
    (playOk : bool) (waiting : list Z) (d : Z)
    (before : list Z) (t : Z) (after : list Z) :
  audioRef st = Some el ->
  endMs <> 0 ->
  Forall (fun x => x < endMs) before ->
  endMs <= t ->
  let sought := seekTo (Some startMs) (Some endMs) playOk st in
  let s0 := if 1 <=? readyState el then sought
            else loadedMetadata d playOk (ticks waiting sought) in
  let s1 := ticks before s0 in
  let s2 := tick t s1 in
  let s3 := ticks after s2 in
  stopAt s0 = Some endMs
  /\ (stopAt s1 = Some endMs /\ pauseCount s1 = pauseCount s0)
  /\ (stopAt s2 = None /\ pauseCount s2 = S (pauseCount s0)
      /\ isPlaying s2 = false)
  /\ (stopAt s3 = None /\ pauseCount s3 = pauseCount s2).
Proof.
  intros Hel Hne Hbefore Ht sought s0 s1 s2 s3.
  assert (A : is_Some (audioRef s0) /\ stopAt s0 = Some endMs).
  { subst s0. destruct (Z.leb_spec 1 (readyState el)) as [Hr|Hr].
    - destruct (seekTo_ready st el startMs (Some endMs) playOk Hel Hr)
        as (A1 & A2 & _).
      fold sought in A1, A2. split; [exact A1|]. rewrite A2. cbn [truthy].
      destruct (Z.eqb_spec endMs 0); [contradiction|reflexivity].
    - destruct (seekTo_registers st el startMs (Some endMs) playOk Hel Hr)
        as (_ & _ & el1 & H2 & H3 & _).
      fold sought in H2.
      destruct (ticks_keep_listeners waiting sought el1 H2)
        as (el2 & K1 & K2 & _).
      rewrite H3 in K2.
      destruct (loadedMetadata_armed (ticks waiting sought) el2 d playOk
                  _ _ _ K1 K2 Hne) as (L1 & L2 & _).
      split; assumption. }
  destruct A as [A1 A2].
  destruct (ticks_before_bound before s0 endMs A1 A2 Hbefore)
    as (B1 & B2 & B3 & _).
  fold s1 in B1, B2, B3.
  destruct (tick_crossing_bound s1 endMs t B1 B2 Hne Ht)
    as (C1 & C2 & C3 & C4).
  fold s2 in C1, C2, C3, C4.
  destruct (ticks_unbounded after s2 C2) as (D1 & D2).
  fold s3 in D1, D2.
  repeat split; try assumption; congruence.
Qed.

(** The example of the specification: [seekTo(5000, 8000)], then ticks at
    6000 ms (no pause), 8000 ms (pause, bound cleared) and 9000 ms (no
    further pause); and the same seek on an element that still has to
    load its metadata. *)
Lemma bounded_playback_witness :
  let s0 := seekTo (Some 5000) (Some 8000) true example_player in
  let s1 := tick 6000 s0 in
  let s2 := tick 8000 s1 in
  let s3 := tick 9000 s2 in
  let unloaded :=
    mkState (Some (mkElement 0 None 0 [] [])) 0 None false None in
  let r0 := loadedMetadata 60000 true
              (seekTo (Some 5000) (Some 8000) true unloaded) in
  (pauseCount s0 = 0%nat /\ stopAt s0 = Some 8000 /\ isPlaying s0 = true)
  /\ (pauseCount s1 = 0%nat /\ stopAt s1 = Some 8000)
  /\ (pauseCount s2 = 1%nat /\ stopAt s2 = None /\ isPlaying s2 = false)
  /\ (pauseCount s3 = 1%nat /\ stopAt s3 = None)
  /\ (stopAt r0 = Some 8000
      /\ pauseCount (tick 8000 (tick 6000 r0)) = 1%nat).
Proof.
  intros s0 s1 s2 s3 unloaded r0.
  destruct (bounded_playback example_player
              (mkElement 4 (Some 60000) 0 [] []) 5000 8000 true [] 0
              [6000] 8000 [9000] eq_refl
              ltac:(discriminate)
              ltac:(repeat constructor)
              ltac:(lia))
    as (H0 & (H1 & H1') & (H2 & H2' & H2'') & (H3 & H3')).
  destruct (bounded_playback unloaded
              (mkElement 0 None 0 [] []) 5000 8000 true [] 60000
              [6000] 8000 [] eq_refl
              ltac:(discriminate)
              ltac:(repeat constructor)
              ltac:(lia))
    as (K0 & _ & (_ & K2 & _) & _).
  repeat split; assumption.
Defined.

End BoundedPlaybackFacts.

(** ** Long-poll watchers *)

Section PollFacts.
Import Poll.

Lemma clearInterval_lookup ref ts i cb :
  clearInterval ref ts !! i = Some cb -> ts !! i = Some cb /\ ref <> Some i.
Proof.
  destruct ref as [j|]; simpl.
  - rewrite lookup_delete_Some. intros [Hne H]. split; [assumption|congruence].
  - intros H. split; [assumption|discriminate].
Qed.

Lemma timers_owned_init : timers_owned init.
Proof. repeat split; intros i H; simpl in H; discriminate. Qed.

Lemma timers_owned_step st ev st' :
  timers_owned st -> step st ev = Some st' -> timers_owned st'.
Proof.
  intros (I1 & I2 & I3) Hstep.
  destruct ev as [fresh|timer|r fresh|r| |ok fresh| | ]; simpl in Hstep.
  - (* Mount *)
    destruct (phase st) eqn:Hph; try discriminate.
    destruct (timers st !! fresh) eqn:Hf; try discriminate.
    rewrite (I3 eq_refl) in Hstep. inversion Hstep; subst; clear Hstep.
    repeat split; simpl; try discriminate; intros i.
    + rewrite lookup_insert_Some. intros [[_ ?]|[_ ?]]; discriminate.
    + rewrite lookup_insert_Some. intros [[-> _]|[_ ?]]; [reflexivity|discriminate].
  - (* Tick *)
    destruct (timers st !! timer) as [[|]|] eqn:Ht; try discriminate;
      inversion Hstep; subst; clear Hstep;
      (repeat split; simpl; [exact I1|exact I2|]);
      intros Hph; rewrite (I3 Hph) in Ht; discriminate.
  - (* TranscriptSettled *)
    destruct (pendingTranscript st) as [|n] eqn:Hp; try discriminate.
    destruct (timers st !! fresh) eqn:Hf; try discriminate.
    assert (Hph : phase st <> NotMounted)
      by (intros E; rewrite (I3 E) in Hp; discriminate).
    inversion Hstep; subst; clear Hstep.
    destruct r as [data|detail| |]; simpl.
    + repeat split; simpl; [| |contradiction]; intros i Hi;
        apply clearInterval_lookup in Hi as [Hi Hne]; auto.
      exfalso. apply Hne. auto.
    + destruct (terminalFailure detail).
      * repeat split; simpl; [| |contradiction]; intros i Hi;
          apply clearInterval_lookup in Hi as [Hi Hne]; auto.
        exfalso. apply Hne. auto.
      * simpl. destruct (pollInterval st) as [p|] eqn:Hpoll.
        -- repeat split; simpl; auto; contradiction.
        -- repeat split; simpl; [| |contradiction]; intros i;
             rewrite lookup_insert_Some.
           ++ intros [[-> _]|[_ Hi]]; [reflexivity|].
              apply I1 in Hi. congruence.
           ++ intros [[_ ?]|[_ Hi]]; [discriminate|auto].
    + repeat split; simpl; auto; contradiction.
    + repeat split; simpl; auto; contradiction.
  - (* RecordingSettled *)
    destruct (pendingRecording st) as [|n] eqn:Hp; try discriminate.
    assert (Hph : phase st <> NotMounted)
      by (intros E; rewrite (I3 E) in Hp; discriminate).
    inversion Hstep; subst; clear Hstep.
    destruct r as [status msg|]; simpl.
    + destruct (decide (status = lit "error")).
      * repeat split; simpl; [| |contradiction]; intros i Hi;
          apply clearInterval_lookup in Hi as [Hi Hne]; auto.
        exfalso. apply Hne. auto.
      * repeat split; simpl; auto; contradiction.
    + repeat split; simpl; auto; contradiction.
  - (* RetryClicked *)
    destruct (phase st) eqn:Hph; try discriminate.
    inversion Hstep; subst; clear Hstep.
    repeat split; simpl; auto. rewrite Hph. discriminate.
  - (* RetrySettled *)
    destruct (pendingRetry st) as [|n] eqn:Hp; try discriminate.
    destruct (timers st !! fresh) eqn:Hf; try discriminate.
    assert (Hph : phase st <> NotMounted)
      by (intros E; rewrite (I3 E) in Hp; discriminate).
    inversion Hstep; subst; clear Hstep.
    destruct ok; simpl.
    + repeat split; simpl; [| |contradiction]; intros i;
        rewrite lookup_insert_Some.
      * intros [[-> _]|[_ Hi]]; [reflexivity|].
        apply clearInterval_lookup in Hi as [Hi Hne].
        exfalso. apply Hne. auto.
      * intros [[_ ?]|[_ Hi]]; [discriminate|].
        apply clearInterval_lookup in Hi as [Hi _]. auto.
    + repeat split; simpl; auto; contradiction.
  - (* RenameRejected *)
    destruct (phase st) eqn:Hph; try discriminate;
      inversion Hstep; subst; clear Hstep;
      (repeat split; simpl; auto); rewrite Hph; discriminate.
  - (* Unmount *)
    destruct (phase st) eqn:Hph; try discriminate.
    inversion Hstep; subst; clear Hstep.
    repeat split; simpl; try discriminate; intros i Hi;
      apply clearInterval_lookup in Hi as [Hi Hne1];
      apply clearInterval_lookup in Hi as [Hi Hne2].
    + exfalso. apply Hne2. auto.
    + exfalso. apply Hne1. auto.
Qed.

Lemma timers_owned_run evs : forall st st',
  timers_owned st -> run st evs = Some st' -> timers_owned st'.
Proof.
  induction evs as [|ev evs IH]; intros st st' Hinv Hrun; simpl in Hrun.
  - congruence.
  - destruct (step st ev) as [st1|] eqn:Hstep; [|discriminate].
    eapply IH; [|eassumption]. eapply timers_owned_step; eassumption.
Qed.

Lemma reachable_timers_owned st : reachable st -> timers_owned st.
Proof.
  intros [evs Hrun]. eapply timers_owned_run; [apply timers_owned_init|eassumption].
Qed.

Lemma elem_of_activeTimers cb st i :
  i ∈ activeTimers cb st <-> timers st !! i = Some cb.
Proof.
  unfold activeTimers. rewrite list_elem_of_fmap. split.
  - intros ([j c] & -> & Hin). apply list_elem_of_filter in Hin as [Hc Hin].
    simpl in *. subst c. now apply elem_of_map_to_list in Hin.
  - intros H. exists (i, cb). split; [reflexivity|].
    apply list_elem_of_filter. split; [reflexivity|].
    now apply elem_of_map_to_list.
Qed.

Lemma NoDup_activeTimers cb st : NoDup (activeTimers cb st).
Proof.
  unfold activeTimers.
  pose proof (NoDup_fst_map_to_list (timers st)) as Hnd.
  induction (map_to_list (timers st)) as [|x l IH]; [constructor|].
  simpl in Hnd. apply NoDup_cons in Hnd as [Hx Hl].
  rewrite filter_cons. destruct (decide (snd x = cb)); [|auto].
  simpl. apply NoDup_cons. split; [|auto].
  intros Hin. apply Hx. apply list_elem_of_fmap in Hin as (y & -> & Hy).
  apply list_elem_of_filter in Hy as [_ Hy].
  apply list_elem_of_fmap. eauto.
Qed.

Lemma NoDup_all_equal (l : list positive) x :
  NoDup l -> (forall i, i ∈ l -> i = x) -> l = [] \/ l = [x].
Proof.
  intros Hnd Hall. destruct l as [|a [|b r]]; [now left| |].
  - right. f_equal. apply Hall. left.
  - exfalso. apply NoDup_cons in Hnd as [Hnot _].
    apply Hnot. rewrite (Hall a), (Hall b); [left| |]; set_solver.
Qed.

(** C7, as stated, fails in its clause that polling is never restarted
    after a successful fetch.  The interval keeps calling [fetchTranscript]
    while an earlier request is still in flight; when the later request
    succeeds first (timer cleared) and the earlier one then answers 404
    "not ready", that answer finds [pollInterval] empty and starts a new
    timer, with no retry action anywhere in the run. *)
Lemma polling_restarts_after_success :
  let notReady := NotFound (lit "Transcript not ready") in
  let evs := [Mount 1; TranscriptSettled notReady 2; Tick 2; Tick 2;
              TranscriptSettled (TranscriptOk sample_transcript) 3] in
  exists resolved restarted,
    run init evs = Some resolved
    /\ transcript resolved = Some sample_transcript
    /\ pollInterval resolved = None
    /\ activeTimers CbFetchTranscript resolved = []
    /\ step resolved (TranscriptSettled notReady 3) = Some restarted
    /\ transcript restarted = Some sample_transcript
    /\ pollInterval restarted = Some 3%positive
    /\ activeTimers CbFetchTranscript restarted = [3%positive].
Proof.
  vm_compute. do 2 eexists. repeat split.
Qed.

(** C7 (amended): in every reachable state of the watchers at most one
    timer is active per watched resource (the transcript, the recording
    status), and an active timer is the one held in its ref.  A not-ready
    answer that finds a timer in [pollInterval] starts no second one; a
    successful fetch clears the timer and its handler starts none; the
    retry action clears the existing timer before it starts a fresh one,
    which is then the only one.  (A not-ready answer arriving after a
    success does start polling again.) *)
Theorem poll_timers_at_most_one (st : State) :
  reachable st ->
  (forall cb i j,
      timers st !! i = Some cb -> timers st !! j = Some cb -> i = j)
  /\ (forall cb, (length (activeTimers cb st) <= 1)%nat)
  /\ (forall i, timers st !! i = Some CbFetchTranscript ->
                pollInterval st = Some i)
  /\ (forall detail fresh st',
         is_Some (pollInterval st) ->
         terminalFailure detail = false ->
         step st (TranscriptSettled (NotFound detail) fresh) = Some st' ->
         timers st' = timers st /\ pollInterval st' = pollInterval st)
  /\ (forall data fresh st',
         step st (TranscriptSettled (TranscriptOk data) fresh) = Some st' ->
         pollInterval st' = None
         /\ activeTimers CbFetchTranscript st' = [])
  /\ (forall fresh st',
         step st (RetrySettled true fresh) = Some st' ->
         pollInterval st' = Some fresh
         /\ activeTimers CbFetchTranscript st' = [fresh]
         /\ forall old, pollInterval st = Some old -> old <> fresh ->
                        timers st' !! old = None).
Proof.
  intros Hreach. pose proof (reachable_timers_owned st Hreach) as Hinv.
  assert (Huniq : forall s, timers_owned s -> forall cb i j,
             timers s !! i = Some cb -> timers s !! j = Some cb -> i = j).
  { intros s (I1 & I2 & _) [|] i j Hi Hj.
    - apply I1 in Hi, Hj. congruence.
    - apply I2 in Hi, Hj. congruence. }
  assert (Hlen : forall s, reachable s -> forall cb,
             (length (activeTimers cb s) <= 1)%nat).
  { intros s Hs cb. pose proof (NoDup_activeTimers cb s) as Hnd.
    destruct (activeTimers cb s) as [|a r] eqn:E; [simpl; lia|].
    assert (Hall : forall i, i ∈ a :: r -> i = a).
    { intros i Hi. rewrite <- E in Hi. apply elem_of_activeTimers in Hi.
      assert (Ha : a ∈ activeTimers cb s) by (rewrite E; left).
      apply elem_of_activeTimers in Ha.
      exact (Huniq s (reachable_timers_owned s Hs) cb i a Hi Ha). }
    destruct (NoDup_all_equal (a :: r) a Hnd Hall) as [H|H];
      [discriminate|].
    rewrite H. simpl. lia. }
  split; [exact (Huniq st Hinv)|]. split; [exact (Hlen st Hreach)|].
  split; [exact (proj1 Hinv)|]. split; [|split].
  - intros detail fresh st' [p Hp] Hterm Hstep. simpl in Hstep.
    destruct (pendingTranscript st); [discriminate|].
    destruct (timers st !! fresh); [discriminate|].
    inversion Hstep; subst; clear Hstep. simpl.
    rewrite Hterm. simpl. rewrite Hp. simpl. split; reflexivity.
  - intros data fresh st' Hstep.
    assert (Hinv' : timers_owned st') by (eapply timers_owned_step; eauto).
    simpl in Hstep.
    destruct (pendingTranscript st); [discriminate|].
    destruct (timers st !! fresh); [discriminate|].
    inversion Hstep; subst; clear Hstep. simpl. split; [reflexivity|].
    destruct (activeTimers CbFetchTranscript _) as [|a r] eqn:E; [reflexivity|].
    assert (Ha : a ∈ a :: r) by left. rewrite <- E in Ha.
    apply elem_of_activeTimers in Ha. apply (proj1 Hinv') in Ha.
    simpl in Ha. discriminate.
  - intros fresh st' Hstep.
    assert (Hinv' : timers_owned st') by (eapply timers_owned_step; eauto).
    simpl in Hstep.
    destruct (pendingRetry st); [discriminate|].
    destruct (timers st !! fresh) eqn:Hf; [discriminate|].
    inversion Hstep; subst; clear Hstep. simpl. split; [reflexivity|]. split.
    + match goal with |- activeTimers _ ?s = _ => set (s' := s) in * end.
      assert (Hall : forall i, i ∈ activeTimers CbFetchTranscript s' ->
                               i = fresh).
      { intros i Hi. apply elem_of_activeTimers in Hi.
        apply (proj1 Hinv') in Hi. simpl in Hi. congruence. }
      destruct (NoDup_all_equal (activeTimers CbFetchTranscript s') fresh
                  (NoDup_activeTimers _ _) Hall) as [E|E]; [|exact E].
      exfalso.
      assert (Hin : fresh ∈ activeTimers CbFetchTranscript s').
      { apply elem_of_activeTimers. simpl. apply lookup_insert_eq. }
      rewrite E in Hin. inversion Hin.
    + intros old Hold Hne. rewrite lookup_insert_ne by congruence.
      rewrite Hold. simpl. apply lookup_delete_eq.
Qed.

Lemma poll_timers_at_most_one_witness :
  let notReady := NotFound (lit "Transcript not ready") in
  exists st,
    run init [Mount 1; TranscriptSettled notReady 2; Tick 2] = Some st
    /\ (length (activeTimers CbFetchTranscript st) <= 1)%nat
    /\ pollInterval st = Some 2%positive.
Proof.
  intros notReady.
  destruct (run init [Mount 1; TranscriptSettled notReady 2; Tick 2])
    as [st|] eqn:Hrun; [|vm_compute in Hrun; discriminate].
  exists st.
  destruct (poll_timers_at_most_one st (ex_intro _ _ Hrun))
    as (_ & Hlen & Howned & _).
  split; [reflexivity|]. split; [apply Hlen|].
  apply Howned. vm_compute in Hrun. inversion Hrun. reflexivity.
Defined.

End PollFacts.

(** ** Chunked minutes stream *)

Section MinutesStreamFacts.
Import MinutesStream.

(** C3 (the code departs from it): when the stream breaks after the
    chunk "## Summary", [startStreaming] leaves the accumulated content
    exactly "## Summary": no error indicator, and nothing else, is
    appended to it.  The failure is shown by the notification only (the
    flags are cleared, as required). *)
Lemma startStreaming_appends_no_indicator :
  let response :=
    FetchResponse true (lit "OK")
      (Some [Chunk (lit "## Summary"); ReadThrows (lit "TypeError: network error")]) in
  let st := startStreaming response MinutesRejected idle in
  streamContent st = lit "## Summary"
  /\ ~ (exists indicator, indicator <> []
          /\ streamContent st = lit "## Summary" ++ indicator)
  /\ notifications st = [lit "Generation failed: TypeError: network error"]
  /\ loading st = false
  /\ isGenerating st = false.
Proof.
  split; [reflexivity|]. split; [|repeat split].
  intros (indicator & Hne & E).
  change (lit "## Summary" ++ [] = lit "## Summary" ++ indicator) in E.
  apply app_inv_head in E. congruence.
Qed.

(** Every run of [startStreaming] ends with [loading] and [isGenerating]
    cleared, on the success path and on every failure path.  A failing
    run (rejected request, non-success response, missing body, or a read
    that throws) surfaces exactly one notification carrying the error;
    a successful run surfaces none. *)
Theorem startStreaming_clears_flags (response : FetchOutcome)
    (refetch : MinutesOutcome) (st : State) :
  let st' := startStreaming response refetch st in
  loading st' = false
  /\ isGenerating st' = false
  /\ (forall error acc,
         failure response = Some (error, acc) ->
         notifications st'
         = notifications st ++ [lit "Generation failed: " ++ error]
         /\ streamContent st' = acc)
  /\ (failure response = None -> notifications st' = notifications st).
Proof.
  intros st'. subst st'. unfold startStreaming, failure.
  destruct response as [error|[|] statusText [body|]]; simpl;
    try destruct (readAll body []) as [acc0 [error0|]]; simpl;
    (split; [reflexivity|]); (split; [reflexivity|]);
    (split; [intros e a H; inversion H; subst; split; reflexivity
            |intros H; try discriminate H]).
  destruct refetch; reflexivity.
Qed.

End MinutesStreamFacts.

(** ** Event-stream readers *)

Section SplitFacts.
Import Sse.

Lemma blocks_from_nil cur : blocks_from cur [] = [cur].
Proof. reflexivity. Qed.

Lemma blocks_from_one cur c : blocks_from cur [c] = [cur ++ [c]].
Proof.
  unfold blocks_from.
  change (split_go blank 0 cur [c])
    with (if (10 =? c)%N && false
          then cur :: split_go blank 1 [] []
          else split_go blank 0 (cur ++ [c]) []).
  now rewrite andb_false_r.
Qed.

Lemma blocks_from_blank cur rest :
  blocks_from cur (10 :: 10 :: rest)%N = cur :: blocks_from [] rest.
Proof. reflexivity. Qed.

Lemma blocks_from_other cur c c2 rest :
  startsWith blank (c :: c2 :: rest) = false ->
  blocks_from cur (c :: c2 :: rest) = blocks_from (cur ++ [c]) (c2 :: rest).
Proof.
  intros H. unfold blocks_from.
  change (split_go blank 0 cur (c :: c2 :: rest))
    with (if startsWith blank (c :: c2 :: rest)
          then cur :: split_go blank 1 [] (c2 :: rest)
          else split_go blank 0 (cur ++ [c]) (c2 :: rest)).
  now rewrite H.
Qed.

(** The shapes a text can have at its head. *)
Lemma head_cases (s : jsstring) :
  s = [] \/ (exists c, s = [c])
  \/ (exists rest, s = (10 :: 10 :: rest)%N)
  \/ (exists c c2 rest, s = c :: c2 :: rest
                        /\ startsWith blank (c :: c2 :: rest) = false).
Proof.
  destruct s as [|c [|c2 rest]]; [now left|right; left; eauto|].
  right. right.
  destruct (startsWith blank (c :: c2 :: rest)) eqn:E.
  - left.
    change ((10 =? c)%N && ((10 =? c2)%N && true) = true) in E.
    rewrite !andb_true_iff, !N.eqb_eq in E.
    destruct E as (<- & <- & _). eauto.
  - right. eauto 6.
Qed.

Lemma blocks_from_not_nil s : forall cur, blocks_from cur s <> [].
Proof.
  induction s as [s IH] using (induction_ltof1 _ (@length N)).
  unfold ltof in IH. intros cur.
  destruct (head_cases s) as [->|[[c ->]|[[rest ->]|(c & c2 & rest & -> & H)]]].
  - discriminate.
  - rewrite blocks_from_one. discriminate.
  - rewrite blocks_from_blank. discriminate.
  - rewrite blocks_from_other by assumption. apply IH. simpl. lia.
Qed.

(** Text read before the scan only extends the first block. *)
Lemma blocks_from_acc s : forall cur,
  blocks_from cur s
  = (cur ++ hd [] (blocks_from [] s)) :: tl (blocks_from [] s).
Proof.
  induction s as [s IH] using (induction_ltof1 _ (@length N)).
  unfold ltof in IH. intros cur.
  destruct (head_cases s) as [->|[[c ->]|[[rest ->]|(c & c2 & rest & -> & H)]]].
  - simpl. now rewrite app_nil_r.
  - now rewrite !blocks_from_one.
  - rewrite !blocks_from_blank. simpl. now rewrite app_nil_r.
  - rewrite !blocks_from_other by assumption.
    assert (Hlt : (length (c2 :: rest) < length (c :: c2 :: rest))%nat)
      by (simpl; lia).
    rewrite (IH (c2 :: rest) Hlt (cur ++ [c])).
    rewrite (IH (c2 :: rest) Hlt ([] ++ [c])).
    simpl. now rewrite <- app_assoc.
Qed.

(** Joining the blocks with the delimiter gives the text back. *)
Lemma join_blocks_from s : forall cur,
  join blank (blocks_from cur s) = cur ++ s.
Proof.
  induction s as [s IH] using (induction_ltof1 _ (@length N)).
  unfold ltof in IH. intros cur.
  destruct (head_cases s) as [->|[[c ->]|[[rest ->]|(c & c2 & rest & -> & H)]]].
  - simpl. now rewrite app_nil_r.
  - now rewrite blocks_from_one.
  - rewrite blocks_from_blank.
    pose proof (blocks_from_not_nil rest []) as Hne.
    pose proof (IH rest ltac:(simpl; lia) []) as E.
    destruct (blocks_from [] rest) as [|x r]; [contradiction|].
    change (join blank (cur :: x :: r)) with (cur ++ blank ++ join blank (x :: r)).
    rewrite E. reflexivity.
  - rewrite blocks_from_other by assumption.
    rewrite IH by (simpl; lia). now rewrite <- app_assoc.
Qed.

Lemma split_blank_single s h : split blank s = [h] -> h = s.
Proof.
  intros E. pose proof (join_blocks_from s []) as J.
  unfold split in E. unfold blocks_from in J. rewrite E in J. exact J.
Qed.

(** Carry-over: splitting a text that arrives in two parts.  The blocks
    of [a ++ b] are the complete blocks of [a], followed by the blocks of
    the unfinished last piece of [a] with [b] appended. *)
Lemma split_blank_app a : forall b,
  split blank (a ++ b)
  = removelast (split blank a)
    ++ split blank (List.last (split blank a) [] ++ b).
Proof.
  unfold split. fold (blocks_from [] a).
  induction a as [a IH] using (induction_ltof1 _ (@length N)).
  unfold ltof in IH. intros b.
  fold (blocks_from [] (a ++ b)).
  destruct (head_cases a) as [->|[[c ->]|[[rest ->]|(c & c2 & rest & -> & H)]]].
  - reflexivity.
  - rewrite blocks_from_one. reflexivity.
  - change ((10 :: 10 :: rest)%N ++ b) with (10 :: 10 :: (rest ++ b))%N.
    rewrite !blocks_from_blank.
    pose proof (blocks_from_not_nil rest []) as Hne.
    specialize (IH rest ltac:(simpl; lia) b).
    fold (blocks_from [] (rest ++ b)) in IH. rewrite IH.
    destruct (blocks_from [] rest) as [|x r] eqn:E; [contradiction|].
    reflexivity.
  - change ((c :: c2 :: rest) ++ b) with (c :: c2 :: (rest ++ b)).
    assert (H' : startsWith blank (c :: c2 :: (rest ++ b)) = false)
      by exact H.
    rewrite (blocks_from_other _ _ _ _ H'), (blocks_from_other _ _ _ _ H).
    change ([] ++ [c]) with [c].
    assert (Hlt : (length (c2 :: rest) < length (c :: c2 :: rest))%nat)
      by (simpl; lia).
    specialize (IH (c2 :: rest) Hlt b).
    fold (blocks_from [] ((c2 :: rest) ++ b)) in IH.
    pose proof (blocks_from_not_nil (c2 :: rest) []) as Hne.
    rewrite (blocks_from_acc (c2 :: rest) [c]).
    destruct (blocks_from [] (c2 :: rest)) as [|h [|t1 t]] eqn:E;
      [contradiction| |].
    + apply split_blank_single in E. subst h.
      cbn [hd tl removelast List.last app].
      symmetry. exact (blocks_from_other [] c c2 (rest ++ b) H').
    + cbn [hd tl].
      change (removelast (([c] ++ h) :: t1 :: t))
        with (([c] ++ h) :: removelast (t1 :: t)).
      change (List.last (([c] ++ h) :: t1 :: t) [])
        with (List.last (t1 :: t) []).
      rewrite (blocks_from_acc (c2 :: rest ++ b) [c]).
      change (c2 :: rest ++ b) with ((c2 :: rest) ++ b). rewrite IH.
      change (removelast (h :: t1 :: t)) with (h :: removelast (t1 :: t)).
      change (List.last (h :: t1 :: t) []) with (List.last (t1 :: t) []).
      reflexivity.
Qed.

Lemma split_blank_not_nil s : split blank s <> [].
Proof. apply blocks_from_not_nil. Qed.

End SplitFacts.

Section EventStreamFacts.
Import Json Sse.

Lemma removelast_last_app {A} (l1 l2 : list A) (d : A) :
  l2 <> [] ->
  removelast (l1 ++ l2) = l1 ++ removelast l2
  /\ List.last (l1 ++ l2) d = List.last l2 d.
Proof.
  intros Hne. split; [now apply removelast_app|].
  induction l1 as [|x l1 IH]; [reflexivity|].
  simpl. destruct (l1 ++ l2) eqn:E; [|exact IH].
  apply app_eq_nil in E as [_ E]. contradiction.
Qed.

(** The reader of [confirmGenerate] buffers across chunk boundaries: two
    successive chunks are handled exactly like their concatenation
    delivered as one chunk, wherever the boundary falls. *)
Lemma kbChunk_boundary (s : jsstring * KbState) (c1 c2 : jsstring) :
  kbChunk (kbChunk s c1) c2 = kbChunk s (c1 ++ c2).
Proof.
  destruct s as [buffer st]. unfold kbChunk. cbn [fst snd].
  fold blank. rewrite (app_assoc buffer c1 c2).
  rewrite (split_blank_app (buffer ++ c1) c2).
  set (lines1 := split blank (buffer ++ c1)).
  set (lines2 := split blank (List.last lines1 [] ++ c2)).
  destruct (removelast_last_app (removelast lines1) lines2 []
              (split_blank_not_nil _)) as [E1 E2].
  rewrite E1, E2, fold_left_app. reflexivity.
Qed.

(** X22: however a stream is cut into chunks, the reader of
    [confirmGenerate] handles it as if it had arrived in one piece: the
    state and the unfinished text carried over are the same. *)
Lemma kbStream_chunking (c : jsstring) (cs : list jsstring) (s : jsstring * KbState) :
  fold_left kbChunk (c :: cs) s = kbChunk s (concat (c :: cs)).
Proof.
  revert c s. induction cs as [|c' cs IH]; intros c s.
  - simpl. now rewrite app_nil_r.
  - change (fold_left kbChunk (c :: c' :: cs) s)
      with (fold_left kbChunk (c' :: cs) (kbChunk s c)).
    rewrite IH, kbChunk_boundary. reflexivity.
Qed.

(** C2 (the code departs from it): the reader of [sendChatMessage], the
    one that handles [answer] events, splits every chunk on its own and
    carries nothing over.  Fed the two chunks of the example it logs one
    parse error for the first, ignores the second, and the message stays
    empty: no [answer] event is produced.  The same text in one chunk
    gives the one event and the content "hello". *)
Theorem chat_reader_loses_split_event :
  let split_run := chatStream [chunk_head; chunk_tail] newChat in
  let whole_run := chatStream [chunk_head ++ chunk_tail] newChat in
  (received split_run = []
   /\ content (assistantMsg split_run) = []
   /\ parseErrors split_run = 1%nat)
  /\ (received whole_run = [answer_hello]
      /\ content (assistantMsg whole_run) = lit "hello"
      /\ parseErrors whole_run = 0%nat).
Proof. vm_compute. repeat split. Qed.

(** The same split, on a [status] event, through the buffering reader of
    [confirmGenerate]: one event, payload "hello". *)
Lemma kb_reader_reassembles_split_event :
  let st0 := mkKb None (Some None) true true [] 0 in
  kbStream [status_head; chunk_tail] st0
  = ([], mkKb (Some (JString (lit "hello"))) (Some None) true true [] 0).
Proof. vm_compute. reflexivity. Qed.

End EventStreamFacts.

(** ** Citation transformer *)

Section CitationScanFacts.
Import Citations.

Variable projectId : jsstring.

Local Abbreviation T := (transformCitations projectId).

Lemma closing_shape s capture rest :
  closing s = Some (capture, rest) ->
  s = capture ++ closingBrackets ++ rest.
Proof.
  revert capture rest. induction s as [|c r IH]; intros capture rest H.
  - discriminate.
  - cbn [closing] in H.
    destruct (startsWith (lit "]]") (c :: r)) eqn:E.
    + inversion H; subst; clear H.
      destruct r as [|c2 r2].
      * change ((93 =? c)%N && false = true) in E.
        rewrite andb_false_r in E. discriminate.
      * change ((93 =? c)%N && ((93 =? c2)%N && true) = true) in E.
        rewrite !andb_true_iff, !N.eqb_eq in E. destruct E as (<- & <- & _).
        reflexivity.
    + destruct (isLineTerminator c); [discriminate|].
      destruct (closing r) as [[cap' rest']|] eqn:Er; [|discriminate].
      inversion H; subst; clear H.
      rewrite (IH cap' rest eq_refl) at 1. reflexivity.
Qed.

Lemma closing_shorter s capture rest :
  closing s = Some (capture, rest) -> (length rest + 2 <= length s)%nat.
Proof.
  intros H. apply closing_shape in H. subst s.
  rewrite !length_app. simpl. lia.
Qed.

(** Fuel beyond the length of the text changes nothing. *)
Lemma replaceAll_fuel f1 : forall f2 s,
  (length s <= f1)%nat -> (length s <= f2)%nat ->
  replaceAll projectId f1 s = replaceAll projectId f2 s.
Proof.
  induction f1 as [|f1 IH]; intros f2 s H1 H2.
  - destruct s; [|simpl in H1; lia]. destruct f2; reflexivity.
  - destruct f2 as [|f2].
    + destruct s; [reflexivity|simpl in H2; lia].
    + destruct s as [|c r]; [reflexivity|].
      simpl in H1, H2. cbn [replaceAll].
      destruct (startsWith (lit "[[") (c :: r)).
      * destruct (closing (drop 2 (c :: r))) as [[cap rest]|] eqn:E.
        -- apply closing_shorter in E.
           assert (length (drop 2 (c :: r)) <= length r)%nat
             by (rewrite length_drop; simpl; lia).
           f_equal. apply IH; lia.
        -- f_equal. apply IH; lia.
      * f_equal. apply IH; lia.
Qed.

Lemma transform_nil : T [] = [].
Proof. reflexivity. Qed.

(** Where no match starts, one unit is copied. *)
Lemma transform_copy c r :
  startsWith opening (c :: r) = false \/ closing (drop 2 (c :: r)) = None ->
  T (c :: r) = c :: T r.
Proof.
  intros H. unfold transformCitations. cbn [length replaceAll].
  change (lit "[[") with opening.
  destruct H as [H|H]; rewrite H.
  - reflexivity.
  - destruct (startsWith opening (c :: r)); reflexivity.
Qed.

(** Where a match starts, the token is replaced and the scan resumes
    after it. *)
Lemma transform_match s sourceName rest :
  startsWith opening s = true ->
  closing (drop 2 s) = Some (sourceName, rest) ->
  T s = replacer projectId sourceName ++ T rest.
Proof.
  intros Ho Hc. destruct s as [|c r]; [discriminate|].
  unfold transformCitations. cbn [length replaceAll].
  change (lit "[[") with opening. rewrite Ho, Hc. f_equal.
  apply replaceAll_fuel; [|lia].
  apply closing_shorter in Hc. rewrite length_drop in Hc. simpl in Hc. lia.
Qed.

Lemma startsWith_opening_inv s :
  startsWith opening s = true -> exists r, s = (91 :: 91 :: r)%N.
Proof.
  destruct s as [|c [|c2 r]]; intros H; try discriminate.
  - change ((91 =? c)%N && false = true) in H.
    rewrite andb_false_r in H. discriminate.
  - change ((91 =? c)%N && ((91 =? c2)%N && true) = true) in H.
    rewrite !andb_true_iff, !N.eqb_eq in H. destruct H as (<- & <- & _).
    eauto.
Qed.

(** Every replacement starts with "<". *)
Lemma replacer_head sourceName :
  exists tail, replacer projectId sourceName = 60%N :: tail.
Proof.
  unfold replacer. destruct (isCitation _); eexists; reflexivity.
Qed.

(** The first unit of the output is the first unit of the input, unless
    a token starts there. *)
Lemma transform_head s x tail :
  T s = x :: tail -> x <> 60%N -> exists r, s = x :: r.
Proof.
  intros H Hx. destruct s as [|c r]; [discriminate|].
  destruct (startsWith opening (c :: r)) eqn:Ho.
  - destruct (closing (drop 2 (c :: r))) as [[cap rest]|] eqn:Hc.
    + rewrite (transform_match _ _ _ Ho Hc) in H.
      destruct (replacer_head cap) as [tl E]. rewrite E in H.
      inversion H. congruence.
    + rewrite transform_copy in H by auto. inversion H. eauto.
  - rewrite transform_copy in H by auto. inversion H. eauto.
Qed.

Lemma startsWith_closing_inv s :
  startsWith (lit "]]") s = true -> exists r, s = (93 :: 93 :: r)%N.
Proof.
  destruct s as [|c [|c2 r]]; intros H; try discriminate.
  - change ((93 =? c)%N && false = true) in H.
    rewrite andb_false_r in H. discriminate.
  - change ((93 =? c)%N && ((93 =? c2)%N && true) = true) in H.
    rewrite !andb_true_iff, !N.eqb_eq in H. destruct H as (<- & <- & _).
    eauto.
Qed.

(** A scan for the closing brackets that fails on the input fails on the
    output as well. *)
Lemma closing_none_transform s :
  closing s = None -> closing (T s) = None.
Proof.
  induction s as [s IH] using (induction_ltof1 _ (@length N)).
  unfold ltof in IH. intros H.
  destruct s as [|c r]; [reflexivity|].
  cbn [closing] in H.
  destruct (startsWith (lit "]]") (c :: r)) eqn:Hs; [discriminate|].
  assert (Hcopy : T (c :: r) = c :: T r).
  { apply transform_copy.
    destruct (startsWith opening (c :: r)) eqn:Ho; [right|now left].
    apply startsWith_opening_inv in Ho as [r2 E].
    inversion E; subst; clear E.
    change (drop 2 (91 :: 91 :: r2)%N) with r2.
    destruct (closing r2) as [[cap rest]|] eqn:Hc; [|reflexivity].
    exfalso. cbn in H. rewrite Hc in H. discriminate. }
  rewrite Hcopy. cbn [closing].
  destruct (startsWith (lit "]]") (c :: T r)) eqn:Hs'.
  - exfalso. apply startsWith_closing_inv in Hs' as [r' E].
    inversion E as [[Hc Hr]]. subst c.
    destruct (transform_head r 93%N r' Hr ltac:(discriminate)) as [r0 ->].
    discriminate Hs.
  - destruct (isLineTerminator c); [reflexivity|].
    destruct (closing r) eqn:Hr; [destruct p; discriminate|].
    rewrite IH; [reflexivity|simpl; lia|assumption].
Qed.

End CitationScanFacts.

Section CitationInertFacts.
Import Citations.

Variable projectId : jsstring.

Local Abbreviation T := (transformCitations projectId).
Local Abbreviation inert := (Citations.inert projectId).

Lemma includes_cons p c s :
  includes p (c :: s) = startsWith p (c :: s) || includes p s.
Proof. reflexivity. Qed.

Lemma noClose_cons c s : noClose (c :: s) -> noClose s.
Proof.
  unfold noClose. rewrite includes_cons. now intros [_ H]%orb_false_elim.
Qed.

(** Appending to a text without closing brackets creates none at the
    seam, as long as the text does not end, or the appended text does not
    start, with a closing bracket. *)
Lemma includes_close_app a b :
  noClose a ->
  List.last a 0%N <> 93%N \/ hd 0%N b <> 93%N ->
  includes closingBrackets (a ++ b) = includes closingBrackets b.
Proof.
  induction a as [|x a IH]; intros Ha Hseam; [reflexivity|].
  pose proof (noClose_cons _ _ Ha) as Ha'.
  unfold noClose in Ha. rewrite includes_cons in Ha.
  apply orb_false_elim in Ha as [Hx _].
  change ((x :: a) ++ b) with (x :: (a ++ b)). rewrite includes_cons.
  destruct a as [|y a].
  - change ([] ++ b) with b.
    destruct (startsWith closingBrackets (x :: b)) eqn:E; [|reflexivity].
    exfalso. apply startsWith_closing_inv in E as [r E].
    inversion E; subst. destruct Hseam as [H|H]; now apply H.
  - rewrite IH; [|assumption|].
    + replace (startsWith closingBrackets (x :: (y :: a) ++ b))
        with (startsWith closingBrackets (x :: y :: a)); [now rewrite Hx|].
      change ((93 =? x)%N && ((93 =? y)%N && true)
              = (93 =? x)%N && ((93 =? y)%N && true)).
      reflexivity.
    + destruct Hseam as [H|H]; [left|now right]. exact H.
Qed.

Lemma noClose_app a b :
  noClose a -> noClose b ->
  List.last a 0%N <> 93%N \/ hd 0%N b <> 93%N ->
  noClose (a ++ b).
Proof.
  intros Ha Hb Hseam. unfold noClose. now rewrite includes_close_app.
Qed.

Lemma noClose_app_inv a b : noClose (a ++ b) -> noClose a /\ noClose b.
Proof.
  induction a as [|x a IH]; intros H; [split; [reflexivity|exact H]|].
  pose proof (noClose_cons _ _ H) as H'. destruct (IH H') as [Ha Hb].
  split; [|assumption].
  unfold noClose in *. rewrite includes_cons, Ha, orb_false_r.
  change ((x :: a) ++ b) with (x :: (a ++ b)) in H.
  rewrite includes_cons in H. apply orb_false_elim in H as [Hx _].
  destruct (startsWith closingBrackets (x :: a)) eqn:E; [|reflexivity].
  apply startsWith_closing_inv in E as [r E]. inversion E; subst.
  discriminate Hx.
Qed.

(** On a line without closing brackets no scan for them succeeds. *)
Lemma closing_line l t : noClose l -> closing (l ++ 10%N :: t) = None.
Proof.
  induction l as [|c l IH]; intros Hl; [reflexivity|].
  change ((c :: l) ++ 10%N :: t) with (c :: (l ++ 10%N :: t)).
  cbn [closing].
  destruct (startsWith (lit "]]") (c :: l ++ 10%N :: t)) eqn:E.
  - exfalso. apply startsWith_closing_inv in E as [r E].
    destruct l as [|c2 l]; inversion E; subst.
    unfold noClose in Hl. rewrite includes_cons in Hl. discriminate Hl.
  - destruct (isLineTerminator c); [reflexivity|].
    now rewrite (IH (noClose_cons _ _ Hl)).
Qed.

Lemma inert_nil : inert [].
Proof. intros t. reflexivity. Qed.

Lemma inert_app a b : inert a -> inert b -> inert (a ++ b).
Proof.
  intros Ha Hb t. now rewrite <- !app_assoc, Ha, Hb.
Qed.

(** A line without closing brackets, with its line break. *)
Lemma inert_line l : noClose l -> inert (l ++ newline).
Proof.
  induction l as [|c l IH]; intros Hl t.
  - change (T (10%N :: t) = 10%N :: T t).
    apply transform_copy. now left.
  - change (((c :: l) ++ newline) ++ t) with (c :: ((l ++ newline) ++ t)).
    rewrite transform_copy.
    + rewrite (IH (noClose_cons _ _ Hl)). reflexivity.
    + destruct (startsWith opening (c :: (l ++ newline) ++ t)) eqn:Ho;
        [right|now left].
      apply startsWith_opening_inv in Ho as [r E].
      destruct l as [|c2 l]; inversion E; subst.
      change (drop 2 (91 :: 91 :: (l ++ newline) ++ t)%N)
        with ((l ++ newline) ++ t).
      rewrite <- app_assoc. apply closing_line.
      now apply noClose_cons, noClose_cons in Hl.
Qed.

(** A text without an opening bracket. *)
Lemma inert_plain l : forallb (fun c => negb (c =? 91)%N) l = true -> inert l.
Proof.
  induction l as [|c l IH]; intros Hl t; [reflexivity|].
  cbn [forallb] in Hl. apply andb_true_iff in Hl as [Hc Hl].
  change ((c :: l) ++ t) with (c :: (l ++ t)).
  rewrite transform_copy.
  - now rewrite (IH Hl).
  - left. destruct (startsWith opening (c :: l ++ t)) eqn:Ho; [|reflexivity].
    apply startsWith_opening_inv in Ho as [r E]. inversion E; subst.
    discriminate Hc.
Qed.

Lemma inert_lines l rest : noClose l -> inert rest -> inert (l ++ newline ++ rest).
Proof.
  intros Hl Hrest. rewrite app_assoc.
  apply inert_app; [now apply inert_line|assumption].
Qed.

End CitationInertFacts.

Section CitationFacts.
Import Citations.

Variable projectId : jsstring.
Hypothesis projectId_noClose : noClose projectId.

Local Abbreviation T := (transformCitations projectId).

Ltac static_noClose := unfold noClose; vm_compute; reflexivity.
Ltac seam :=
  first [ left; vm_compute; discriminate | right; vm_compute; discriminate ].
Ltac solve_noClose :=
  repeat first [ assumption | static_noClose
               | apply noClose_app; [ | | seam ] ].

(** The captured name holds no two closing brackets in a row. *)
Lemma closing_capture_noClose s capture rest :
  closing s = Some (capture, rest) -> noClose capture.
Proof.
  revert capture rest. induction s as [|c r IH]; intros capture rest H;
    [discriminate|].
  cbn [closing] in H.
  destruct (startsWith (lit "]]") (c :: r)) eqn:E.
  - inversion H. reflexivity.
  - destruct (isLineTerminator c); [discriminate|].
    destruct (closing r) as [[cap' rest']|] eqn:Er; [|discriminate].
    inversion H; subst; clear H.
    pose proof (IH _ _ eq_refl) as Hcap.
    unfold noClose. rewrite includes_cons. fold (noClose cap'). rewrite Hcap.
    rewrite orb_false_r.
    destruct (startsWith closingBrackets (c :: cap')) eqn:E'; [|reflexivity].
    apply startsWith_closing_inv in E' as [r' E'].
    inversion E'; subst. apply closing_shape in Er. subst r.
    discriminate E.
Qed.

Lemma splitLastUnderscore_shape s x d :
  splitLastUnderscore s = Some (x, d) -> s = x ++ 95%N :: d.
Proof.
  revert x d. induction s as [|c r IH]; intros x d H; [discriminate|].
  cbn [splitLastUnderscore] in H.
  destruct (splitLastUnderscore r) as [[x' d']|].
  - inversion H; subst. now rewrite (IH x' d eq_refl) at 1.
  - destruct (N.eqb_spec c 95); [|discriminate].
    inversion H; subst. reflexivity.
Qed.

Lemma matchNamed_noClose pre sourceName x d :
  noClose sourceName -> matchNamed pre sourceName = Some (x, d) ->
  noClose x /\ noClose d.
Proof.
  intros Hs H. unfold matchNamed in H.
  destruct (startsWithFold _ _); [|discriminate].
  destruct (splitLastUnderscore _) as [[x' d']|] eqn:E; [|discriminate].
  destruct (_ && _); [|discriminate]. inversion H; subst; clear H.
  apply splitLastUnderscore_shape in E.
  rewrite <- (take_drop (length pre + 1) sourceName) in Hs.
  apply noClose_app_inv in Hs as [_ Hs]. rewrite E in Hs.
  apply noClose_app_inv in Hs as [Hx Hd].
  split; [assumption|]. now apply noClose_cons in Hd.
Qed.

Lemma matchKb_keys sourceName key :
  matchKb sourceName = Some key ->
  In key [lit "prd"; lit "specs"; lit "timeline"; lit "glossary";
          lit "business"].
Proof.
  unfold matchKb. intros H.
  match type of H with
  | match find ?f _ with _ => _ end = _ =>
      destruct (find f kbKeywords) as [kw|] eqn:E; [|discriminate]
  end.
  inversion H; subst; clear H.
  apply find_some in E as [Hin _].
  unfold kbKeywords in Hin. simpl in Hin.
  destruct Hin as [<-|[<-|[<-|[<-|[<-|[]]]]]]; vm_compute; tauto.
Qed.

Lemma anchor_inert href type id section displayName icon :
  noClose href -> noClose type -> noClose id -> noClose section ->
  noClose displayName -> noClose icon ->
  inert projectId
    (join newline (anchorLines href type id section displayName icon)).
Proof.
  intros Hh Ht Hi Hs Hd Hc. unfold anchorLines. cbn [join].
  repeat (apply inert_lines; [solve_noClose|]).
  apply inert_plain. vm_compute. reflexivity.
Qed.

Lemma badge_inert icon sourceName :
  noClose icon -> noClose sourceName ->
  inert projectId (join newline (badgeLines icon sourceName)).
Proof.
  intros Hc Hs. unfold badgeLines. cbn [join].
  repeat (apply inert_lines; [solve_noClose|]).
  apply inert_plain. vm_compute. reflexivity.
Qed.

(** What replaces a token is copied unchanged by a second pass. *)
Ltac project_source :=
  cbv beta iota zeta delta
    [isCitation href type id section displayName icon].

Lemma replacer_inert sourceName :
  noClose sourceName -> inert projectId (replacer projectId sourceName).
Proof.
  intros Hs. unfold replacer, parseSource.
  destruct (includes (lit "minutes") _).
  { destruct (matchNamed _ _) as [[x d]|] eqn:E; project_source.
    - destruct (matchNamed_noClose _ _ _ _ Hs E).
      apply anchor_inert; solve_noClose.
    - apply badge_inert; solve_noClose. }
  destruct (includes (lit "transcript") _).
  { destruct (matchNamed _ _) as [[x d]|] eqn:E; project_source.
    - destruct (matchNamed_noClose _ _ _ _ Hs E).
      apply anchor_inert; solve_noClose.
    - apply badge_inert; solve_noClose. }
  destruct (matchKb sourceName) as [key|] eqn:Ek.
  { project_source. apply matchKb_keys in Ek.
    destruct Ek as [<-|[<-|[<-|[<-|[<-|[]]]]]];
      apply anchor_inert; solve_noClose. }
  destruct (startsWith (lit "document_") _).
  { destruct (matchNamed _ _) as [[x d]|] eqn:E; project_source.
    - destruct (matchNamed_noClose _ _ _ _ Hs E).
      apply anchor_inert; solve_noClose.
    - apply badge_inert; solve_noClose. }
  project_source. apply badge_inert; solve_noClose.
Qed.

Lemma closing_skip_opening r :
  closing (91%N :: r) = None -> closing r = None.
Proof.
  cbn [closing].
  change (startsWith (lit "]]") (91%N :: r)) with false.
  change (isLineTerminator 91) with false. cbv iota.
  destruct (closing r) as [[cap rest]|]; [discriminate|reflexivity].
Qed.

(** C9 (amended): when the project id of the route, which the links
    embed, holds no two closing brackets in a row, the citation
    transformer is idempotent: for every input, a second pass over the
    output of a first pass changes nothing, and no citation already
    transformed is wrapped again. *)
Theorem transformCitations_idempotent (html : jsstring) :
  T (T html) = T html.
Proof.
  induction html as [s IH] using (induction_ltof1 _ (@length N)).
  unfold ltof in IH.
  destruct s as [|c r]; [reflexivity|].
  destruct (startsWith opening (c :: r)) eqn:Ho.
  - destruct (closing (drop 2 (c :: r))) as [[cap rest]|] eqn:Hc.
    + rewrite (transform_match _ _ _ _ Ho Hc).
      rewrite (replacer_inert cap (closing_capture_noClose _ _ _ Hc)).
      rewrite IH; [reflexivity|].
      apply closing_shorter in Hc. rewrite length_drop in Hc.
      simpl in *. lia.
    + rewrite (transform_copy _ c r (or_intror Hc)).
      apply startsWith_opening_inv in Ho as [r2 E].
      inversion E; subst c r; clear E.
      change (drop 2 (91 :: 91 :: r2)%N) with r2 in Hc.
      assert (Hr : closing (91%N :: r2) = None).
      { cbn [closing].
        change (startsWith (lit "]]") (91%N :: r2)) with false.
        change (isLineTerminator 91) with false.
        now rewrite Hc. }
      pose proof (closing_none_transform projectId _ Hr) as Hout.
      rewrite transform_copy.
      * rewrite IH; [reflexivity|simpl; lia].
      * destruct (T (91%N :: r2)) as [|x tail] eqn:Et; [now left|].
        destruct (N.eq_dec x 91%N) as [->|Hx].
        -- right. change (drop 2 (91 :: 91 :: tail)%N) with tail.
           now apply closing_skip_opening.
        -- left.
           change ((91 =? 91)%N && ((91 =? x)%N && true) = false).
           destruct (N.eqb_spec 91 x); [congruence|reflexivity].
  - rewrite (transform_copy _ c r (or_introl Ho)).
    rewrite transform_copy.
    + rewrite IH; [reflexivity|simpl; lia].
    + left. destruct (startsWith opening (c :: T r)) eqn:Ho'; [|reflexivity].
      exfalso. apply startsWith_opening_inv in Ho' as [r' E].
      inversion E as [[Hc Hr]]. subst c.
      destruct (transform_head projectId r 91%N r' Hr ltac:(discriminate))
        as [r0 ->].
      discriminate Ho.
Qed.

(** The scan for the closing brackets after a name without line
    terminator, without two closing brackets in a row and not ending in
    a closing bracket stops exactly at the end of the name. *)
Lemma closing_token name after :
  existsb isLineTerminator name = false ->
  noClose name ->
  List.last name 0%N <> 93%N ->
  closing (name ++ closingBrackets ++ after) = Some (name, after).
Proof.
  induction name as [|c r IH]; intros Hlt Hnc Hlast; [reflexivity|].
  cbn [existsb] in Hlt. apply orb_false_elim in Hlt as [Hc Hr].
  pose proof (noClose_cons _ _ Hnc) as Hncr.
  assert (Hstart : startsWith (lit "]]")
                     (c :: r ++ closingBrackets ++ after) = false).
  { destruct (startsWith (lit "]]") (c :: r ++ closingBrackets ++ after))
      eqn:E; [|reflexivity].
    exfalso. apply startsWith_closing_inv in E as [tail E].
    inversion E as [[E1 E2]]. subst c.
    destruct r as [|c2 r'].
    - apply Hlast. reflexivity.
    - cbn [app] in E2. inversion E2; subst c2.
      unfold noClose in Hnc. discriminate Hnc. }
  change ((c :: r) ++ closingBrackets ++ after)
    with (c :: (r ++ closingBrackets ++ after)).
  cbn [closing]. rewrite Hstart, Hc.
  rewrite IH; [reflexivity|assumption|assumption|].
  destruct r as [|c2 r']; [discriminate|exact Hlast].
Qed.

(** X18: a well-formed token, that is, two opening brackets, a name
    without line terminator and without two closing brackets in a row
    that does not end in a closing bracket, and two closing brackets,
    which follows a text without opening brackets, is replaced by what
    the replacer makes of exactly that name; the text before it is copied
    and the scan goes on after the closing brackets. *)
Lemma transform_token before name after :
  forallb (fun c => negb (c =? 91)%N) before = true ->
  existsb isLineTerminator name = false ->
  noClose name ->
  List.last name 0%N <> 93%N ->
  T (before ++ opening ++ name ++ closingBrackets ++ after)
  = before ++ replacer projectId name ++ T after.
Proof.
  intros Hb Hlt Hnc Hlast. rewrite (inert_plain projectId before Hb).
  f_equal. apply transform_match; [reflexivity|].
  now apply closing_token.
Qed.

End CitationFacts.

Section CitationExamples.
Import Citations.

(** C9, as stated, fails when the project id of the route holds a
    citation token of its own: the link of a knowledge-base citation
    embeds the id in its [href], and a second pass rewrites the token it
    finds there. *)
Lemma transformCitations_rewraps_bracket_id :
  let projectId := lit "[[x]]" in
  let once := transformCitations projectId (lit "[[PRD_7]]") in
  transformCitations projectId once <> once
  /\ includes (lit "/project/[[x]]?tab=kb") once = true
  /\ includes (lit "/project/[[x]]?tab=kb")
              (transformCitations projectId once) = false.
Proof. vm_compute. repeat split. discriminate. Qed.

Lemma transformCitations_idempotent_witness :
  transformCitations project7
    (transformCitations project7
       (lit "See [[Minutes_Standup_42]], [[PRD_7]] and [[Unknown_Format]]"))
  = transformCitations project7
      (lit "See [[Minutes_Standup_42]], [[PRD_7]] and [[Unknown_Format]]").
Proof.
  exact (transformCitations_idempotent project7 eq_refl
           (lit "See [[Minutes_Standup_42]], [[PRD_7]] and [[Unknown_Format]]")).
Defined.

Lemma splitLastUnderscore_digits d :
  forallb Json.isDigit d = true -> splitLastUnderscore d = None.
Proof.
  induction d as [|c d IH]; intros H; [reflexivity|].
  cbn [forallb] in H. apply andb_true_iff in H as [Hc Hd].
  cbn [splitLastUnderscore]. rewrite (IH Hd).
  destruct (N.eqb_spec c 95) as [->|_]; [discriminate Hc|reflexivity].
Qed.

Lemma splitLastUnderscore_app x d :
  forallb Json.isDigit d = true ->
  splitLastUnderscore (x ++ 95%N :: d) = Some (x, d).
Proof.
  intros Hd. induction x as [|c x IH].
  - cbn [app splitLastUnderscore]. now rewrite splitLastUnderscore_digits.
  - change ((c :: x) ++ 95%N :: d) with (c :: (x ++ 95%N :: d)).
    cbn [splitLastUnderscore]. now rewrite IH.
Qed.

(** X19: every name of the form Minutes_<name>_<digits>, the name
    holding no line terminator, is parsed as a citation of the minutes of
    the recording with that id, labelled with the name and linked to
    /recording/<digits>/minutes. *)
Lemma parseSource_minutes projectId name digits :
  existsb isLineTerminator name = false ->
  allDigits digits = true ->
  parseSource projectId (lit "Minutes_" ++ name ++ 95%N :: digits)
  = mkSource (lit "event_note") (lit "minutes") digits [] name true
             (lit "/recording/" ++ digits ++ lit "/minutes").
Proof.
  intros Hname Hdigits. unfold parseSource.
  assert (Hinc : includes (lit "minutes")
                   (toLowerCase (lit "Minutes_" ++ name ++ 95%N :: digits))
                 = true).
  { unfold toLowerCase. rewrite flat_map_app. reflexivity. }
  rewrite Hinc. unfold matchNamed.
  assert (Hpre : startsWithFold (lit "Minutes" ++ lit "_")
                   (lit "Minutes_" ++ name ++ 95%N :: digits) = true).
  { unfold startsWithFold. rewrite (map_app foldCase (lit "Minutes_")).
    reflexivity. }
  rewrite Hpre.
  change (drop (length (lit "Minutes") + 1)
               (lit "Minutes_" ++ name ++ 95%N :: digits))
    with (name ++ 95%N :: digits).
  assert (Hd : forallb Json.isDigit digits = true)
    by (destruct digits; [discriminate|exact Hdigits]).
  rewrite (splitLastUnderscore_app name digits Hd), Hdigits, Hname.
  reflexivity.
Qed.

(** The two examples of the specification: a minutes citation becomes a
    link to the minutes view of recording 42 labelled "Standup"; a name
    of no known format becomes a badge that shows the name. *)
Lemma transformCitations_examples :
  (parseSource project7 (lit "Minutes_Standup_42")
   = mkSource (lit "event_note") (lit "minutes") (lit "42") []
              (lit "Standup") true (lit "/recording/42/minutes"))
  /\ transformCitations project7 (lit "See [[Minutes_Standup_42]] for details")
     = lit "See "
       ++ join newline
            (anchorLines (lit "/recording/42/minutes") (lit "minutes")
                         (lit "42") [] (lit "Standup") (lit "event_note"))
       ++ lit " for details"
  /\ isCitation (parseSource project7 (lit "Unknown_Format")) = false
  /\ transformCitations project7 (lit "See [[Unknown_Format]]")
     = lit "See "
       ++ join newline (badgeLines (lit "description") (lit "Unknown_Format")).
Proof. vm_compute. repeat split. Qed.

(** C8 (the code departs from it): the citation of a document whose
    file name contains "minutes" matches the document-by-id pattern
    (name "Meeting_Minutes", id 12), but the chain of tests asks first
    whether the name contains "minutes" anywhere and then requires it to
    start with "Minutes_"; the citation ends as a non-interactive badge
    instead of a link to the file list. *)
Theorem document_named_minutes_not_linked :
  let name := lit "Document_Meeting_Minutes_12" in
  matchNamed (lit "Document") name = Some (lit "Meeting_Minutes", lit "12")
  /\ isCitation (parseSource project7 name) = false
  /\ transformCitations project7 (lit "See [[Document_Meeting_Minutes_12]]")
     = lit "See " ++ join newline (badgeLines (lit "event_note") name).
Proof. vm_compute. repeat split. Qed.

(** The same document under a name without "minutes" is linked. *)
Lemma document_citation_linked :
  parseSource project7 (lit "Document_Meeting_Notes_12")
  = mkSource (lit "article") (lit "document") (lit "12") []
             (lit "Meeting_Notes") true (lit "/project/7?tab=files").
Proof. vm_compute. reflexivity. Qed.

End CitationExamples.

(** * Further properties of the recording view *)

Section SpeakerColourFacts.
Import Segments Speakers.

(** Every palette class is a non-empty string. *)
Lemma generateColor_in_palette_aux (speakerId : jsstring) :
  exists c cs, generateColor speakerId = c :: cs.
Proof.
  unfold generateColor.
  change (Z.of_nat (length colors)) with 10.
  pose proof (Z.mod_pos_bound (Z.abs (fold_left hashStep speakerId 0)) 10
                ltac:(lia)) as Hb.
  set (i := Z.to_nat _).
  assert (Hi : (i < 10)%nat) by (subst i; lia).
  do 10 (destruct i as [|i]; [vm_compute; eauto|]). lia.
Qed.

(** X1: [generateColor] maps every label, whatever its length and code
    units, to one of the ten palette classes: the index
    [Math.abs(hash) % colors.length] never leaves the palette. *)
Theorem generateColor_in_palette (speakerId : jsstring) :
  In (generateColor speakerId) colors.
Proof.
  unfold generateColor. apply nth_In.
  change (Z.of_nat (length colors)) with 10.
  change (length colors) with 10%nat.
  pose proof (Z.mod_pos_bound (Z.abs (fold_left hashStep speakerId 0)) 10
                ltac:(lia)).
  lia.
Qed.

(** X2: [getAvatarColor] is stable, for every label.  It returns what a
    lookup of the label gives in the cache it leaves; asking again
    returns the same and leaves that cache as it is; a label whose lookup
    was falsy gets the hashed colour of [generateColor]; a label whose
    lookup was truthy (an own non-empty entry, or a member inherited from
    [Object.prototype], as for "constructor") gets that value and the
    cache is not written; the lookup of no other label changes. *)
Theorem getAvatarColor_stable (speakerId : jsstring)
    (speakerColors : gmap jsstring Value) :
  let r := getAvatarColor speakerId speakerColors in
  colorOf (snd r) speakerId = fst r
  /\ getAvatarColor speakerId (snd r) = r
  /\ (cached speakerColors speakerId = false ->
      fst r = Some (Text (generateColor speakerId)))
  /\ (cached speakerColors speakerId = true ->
      snd r = speakerColors /\ fst r = colorOf speakerColors speakerId)
  /\ (In speakerId prototypeMembers -> speakerColors !! speakerId = None ->
      r = (Some (Member speakerId), speakerColors))
  /\ forall other, other <> speakerId ->
       colorOf (snd r) other = colorOf speakerColors other.
Proof.
  destruct (generateColor_in_palette_aux speakerId) as (c & cs & Hgen).
  intros r. subst r. unfold getAvatarColor.
  destruct (cached speakerColors speakerId) eqn:Hc; cbn [fst snd].
  - rewrite Hc. cbn [fst snd].
    repeat split; try reflexivity; try discriminate.
    intros Hin Hnone. unfold colorOf. rewrite Hnone.
    rewrite bool_decide_eq_true_2; [reflexivity|].
    now apply list_elem_of_In.
  - assert (Hc' : cached (<[speakerId:=Text (generateColor speakerId)]>
                           speakerColors) speakerId = true).
    { unfold cached. now rewrite colorOf_insert_eq, Hgen. }
    rewrite Hc'. cbn [fst snd]. rewrite colorOf_insert_eq.
    repeat split; try reflexivity; try discriminate.
    + intros Hin Hnone. exfalso. unfold cached, colorOf in Hc.
      rewrite Hnone in Hc.
      rewrite bool_decide_eq_true_2 in Hc; [discriminate|].
      now apply list_elem_of_In.
    + intros other Hne. apply colorOf_insert_ne. congruence.
Qed.

End SpeakerColourFacts.

Section PlayerControlFacts.
Import Player.

(** X3: the relative seek keeps the position inside the recording and
    cancels bounded playback.  On an element of known duration the new
    position is the old one plus the offset when that lies in
    [0, duration], the duration when it lies beyond it, and 0 when it is
    negative; the bound is cleared, so no later time update pauses
    playback. *)
Theorem seek_clamps_and_cancels (st : State) (el : Element) (d deltaMs : Z)
    (later : list Z) :
  audioRef st = Some el ->
  duration el = Some d ->
  0 <= d ->
  let st' := seek deltaMs st in
  (exists el', audioRef st' = Some el'
      /\ 0 <= elementTime el' <= d
      /\ (0 <= elementTime el + deltaMs <= d ->
          elementTime el' = elementTime el + deltaMs)
      /\ (d < elementTime el + deltaMs -> elementTime el' = d)
      /\ (elementTime el + deltaMs < 0 -> elementTime el' = 0))
  /\ stopAt st' = None
  /\ pauseCount (ticks later st') = pauseCount st.
Proof.
  intros Hel Hd Hpos st'. subst st'. unfold seek. rewrite Hel, Hd.
  split; [|split].
  - eexists. split; [reflexivity|]. cbn [withTime elementTime]. lia.
  - reflexivity.
  - match goal with |- pauseCount (ticks later ?s) = _ =>
      destruct (ticks_unbounded later s eq_refl) as [_ E]; rewrite E end.
    unfold pauseCount. cbn. now rewrite Hel.
Qed.

Lemma seek_clamps_and_cancels_witness :
  let armed := seekTo (Some 5000) (Some 8000) true example_player in
  let st' := seek 10000 armed in
  stopAt armed = Some 8000
  /\ stopAt st' = None
  /\ pauseCount (ticks [9000; 20000] st') = 0%nat.
Proof.
  intros armed st'.
  destruct (seek_clamps_and_cancels armed
              (mkElement 4 (Some 60000) 5000 [CallPlay] []) 60000 10000
              [9000; 20000] eq_refl eq_refl ltac:(lia))
    as (_ & Hs & Hp).
  split; [reflexivity|]. exact (conj Hs Hp).
Defined.

(** X5: the absolute seek never leaves the recording.  On an element of
    known duration the position [doSeekAndPlay] assigns lies in
    [0, duration]: a start inside the recording is taken as it is, a start
    past the end becomes the end, a negative start becomes 0. *)
Theorem seekTo_position_within_duration (st : State) (el : Element)
    (d startMs : Z) (endMs : option Z) (playOk : bool) :
  audioRef st = Some el ->
  1 <= readyState el ->
  duration el = Some d ->
  0 <= d ->
  exists el',
    audioRef (seekTo (Some startMs) endMs playOk st) = Some el'
    /\ 0 <= elementTime el' <= d
    /\ (0 <= startMs <= d -> elementTime el' = startMs)
    /\ (d < startMs -> elementTime el' = d)
    /\ (startMs < 0 -> elementTime el' = 0)
    /\ calls el' = calls el ++ [CallPlay].
Proof.
  intros Hel Hr Hd Hpos. unfold seekTo. rewrite Hel.
  destruct (Z.leb_spec 1 (readyState el)); [|lia].
  unfold doSeekAndPlay. eexists. split; [reflexivity|].
  cbn [withCall withTime elementTime calls]. unfold seekPosition, truthy.
  rewrite Hd.
  destruct (Z.leb_spec 0 startMs), (Z.leb_spec startMs d),
    (Z.ltb_spec d startMs), (Z.eqb_spec d 0); cbn; repeat split; lia.
Qed.

Lemma seekTo_position_within_duration_witness :
  exists el',
    audioRef (seekTo (Some 90000) None true example_player) = Some el'
    /\ elementTime el' = 60000.
Proof.
  destruct (seekTo_position_within_duration example_player
              (mkElement 4 (Some 60000) 0 [] []) 60000 90000 None true
              eq_refl ltac:(simpl; lia) eq_refl ltac:(lia))
    as (el' & H1 & _ & _ & H4 & _).
  exists el'. split; [exact H1|]. apply H4. lia.
Defined.

Lemma seekTo_deferred_witness :
  let st := mkState (Some (mkElement 0 None 0 [] [])) 0 None false None in
  let s0 := seekTo (Some 5000) (Some 8000) true st in
  stopAt s0 = None
  /\ stopAt (loadedMetadata 60000 true s0) = Some 8000.
Proof.
  intros st s0.
  destruct (seekTo_deferred st (mkElement 0 None 0 [] []) 5000 8000 true 60000
              eq_refl ltac:(simpl; lia) ltac:(discriminate))
    as (H1 & _ & H3).
  split; [exact H1|exact H3].
Defined.

Lemma indexOf_from_absent x l : forall i,
  ~ In x l -> indexOf_from x i l = -1.
Proof.
  induction l as [|y l IH]; intros i Hx; [reflexivity|].
  cbn [indexOf_from]. destruct (Z.eqb_spec x y) as [->|_].
  - exfalso. apply Hx. now left.
  - apply IH. intros H. apply Hx. now right.
Qed.

(** X4: [changeSpeed] cycles through the five rates.  Whatever the
    current rate, the next one is one of 0.5, 1, 1.25, 1.5, 2 and the
    element, when there is one, is given the same rate; a rate outside the
    set is followed by 0.5; from a rate of the set, five presses return to
    it and fewer do not. *)
Theorem changeSpeed_cycle (sp : Speed) :
  In (playbackRate (changeSpeed sp)) rates
  /\ (forall r, elementRate sp = Some r ->
        elementRate (changeSpeed sp) = Some (playbackRate (changeSpeed sp)))
  /\ (elementRate sp = None -> elementRate (changeSpeed sp) = None)
  /\ (~ In (playbackRate sp) rates -> playbackRate (changeSpeed sp) = 50)
  /\ (In (playbackRate sp) rates ->
      playbackRate (Nat.iter 5 changeSpeed sp) = playbackRate sp
      /\ forall k, (0 < k < 5)%nat ->
           playbackRate (Nat.iter k changeSpeed sp) <> playbackRate sp).
Proof.
  destruct sp as [rate er].
  split; [|split; [|split; [|split]]].
  - destruct (in_dec Z.eq_dec rate rates) as [Hin|Hout].
    + simpl in Hin.
      destruct Hin as [<-|[<-|[<-|[<-|[<-|[]]]]]]; vm_compute; tauto.
    + unfold changeSpeed, indexOf. cbn [playbackRate].
      rewrite (indexOf_from_absent _ _ 0 Hout). vm_compute. tauto.
  - intros r H. cbn [elementRate] in H. subst er. reflexivity.
  - intros H. cbn [elementRate] in H. subst er. reflexivity.
  - intros Hout. cbn [playbackRate] in Hout.
    unfold changeSpeed, indexOf. cbn [playbackRate].
    now rewrite (indexOf_from_absent _ _ 0 Hout).
  - intros Hin. simpl in Hin.
    destruct Hin as [<-|[<-|[<-|[<-|[<-|[]]]]]];
      (split; [reflexivity|]);
      intros [|[|[|[|[|k]]]]] Hk; try lia; vm_compute; discriminate.
Qed.

End PlayerControlFacts.

Section SpeakerStatsOrderFacts.
Import Segments.

Ltac plain_key :=
  unfold plainKey; apply (bool_decide_unpack _); vm_compute; exact I.
Ltac plain_keys :=
  repeat (apply List.Forall_cons; [plain_key|]); apply List.Forall_nil.

Lemma speakerStats_sum_100_witness :
  let t := mkTranscript
             [mkSegment (lit "A") 0 1000 []; mkSegment (lit "B") 1000 3000 [];
              mkSegment (lit "C") 3000 6000 []] [] in
  exists s,
    sumPercentages (speakerStats (Some t)) = Some s
    /\ 200 - 3 <= 2 * s <= 200 + 3.
Proof.
  intros t.
  assert (Hpos : 0 < totalSpoken (content t)) by reflexivity.
  assert (Hdur : Forall (fun seg => seg_start seg <= seg_end seg)
                        (content t))
    by (repeat constructor; cbn; lia).
  assert (Hexact : exactTimes (content t))
    by (split; [repeat constructor; reflexivity|reflexivity]).
  assert (Hplain : Forall (fun seg => plainKey (speaker_id seg)) (content t))
    by plain_keys.
  destruct (speakerStats_sum_100 t Hpos Hdur Hexact Hplain)
    as (s & Hs & Hb).
  exists s. split; [exact Hs|exact Hb].
Defined.



Lemma insertStat_perm x l : insertStat x l ≡ₚ x :: l.
Proof.
  induction l as [|y r IH]; [reflexivity|].
  cbn [insertStat]. destruct (sortsAfter x y); [|reflexivity].
  rewrite IH. apply Permutation_swap.
Qed.



Lemma insertStat_sorted x l :
  Forall (fun s => exists p, percentage s = Num p) (x :: l) ->
  Sorted descending l -> Sorted descending (insertStat x l).
Proof.
  intros Hall Hs. induction l as [|y r IH].
  - repeat constructor.
  - apply Forall_cons in Hall as [[px Hx] Hall].
    pose proof Hall as Hall'.
    apply Forall_cons in Hall' as [[py Hy] Hr].
    cbn [insertStat]. unfold sortsAfter. rewrite Hx, Hy.
    destruct (Z.ltb_spec px py).
    + apply Sorted_inv in Hs as [Hs Hhd].
      assert (IH' : Sorted descending (insertStat x r)).
      { apply IH; [|assumption]. apply Forall_cons. split; eauto. }
      constructor; [assumption|].
      destruct r as [|z r]; cbn [insertStat].
      * constructor. unfold descending, percentValue. rewrite Hx, Hy. lia.
      * apply Forall_cons in Hr as [[pz Hz] _].
        unfold sortsAfter. rewrite Hx, Hz.
        destruct (Z.ltb_spec px pz); constructor.
        -- now inversion Hhd.
        -- unfold descending, percentValue. rewrite Hx, Hy. lia.
    + constructor; [assumption|]. constructor.
      unfold descending, percentValue. rewrite Hx, Hy. lia.
Qed.

Lemma insertStat_finite x l :
  Forall (fun s => exists p, percentage s = Num p) (x :: l) ->
  Forall (fun s => exists p, percentage s = Num p) (insertStat x l).
Proof.
  intros H. rewrite Forall_forall in *. intros s Hs. apply H.
  now rewrite <- (insertStat_perm x l).
Qed.

Lemma sortStats_sorted l :
  Forall (fun s => exists p, percentage s = Num p) l ->
  Sorted descending (sortStats l)
  /\ Forall (fun s => exists p, percentage s = Num p) (sortStats l).
Proof.
  induction l as [|x l IH]; intros Hall.
  - split; constructor.
  - apply Forall_cons in Hall as [Hx Hl]. destruct (IH Hl) as [Hs Hf].
    cbn [sortStats fold_right]. fold (sortStats l).
    assert (Hxl : Forall (fun s => exists p, percentage s = Num p)
                         (x :: sortStats l)) by (apply Forall_cons; auto).
    split; [now apply insertStat_sorted|now apply insertStat_finite].
Qed.

(** X10: when the total spoken duration is not zero, the times are in
    the range the code handles exactly and no speaker label names a
    member of [Object.prototype], every percentage of [speakerStats] is
    finite and the entries are ordered by percentage, largest first: an
    entry never has a smaller percentage than one that comes after it. *)
Theorem speakerStats_descending (t : Transcript) :
  totalSpoken (content t) <> 0 ->
  exactTimes (content t) ->
  Forall (fun seg => plainKey (speaker_id seg)) (content t) ->
  Forall (fun s => exists p, percentage s = Num p) (speakerStats (Some t))
  /\ forall (i j : nat) a b,
       (i < j)%nat ->
       speakerStats (Some t) !! i = Some a ->
       speakerStats (Some t) !! j = Some b ->
       percentValue b <= percentValue a.
Proof.
  intros HT _ _. unfold speakerStats.
  pose proof (accumulate_fold (content t) [] 0) as (_ & H2 & _).
  destruct (fold_left accumulate (content t) ([], 0)) as [stats T].
  cbn [snd] in H2. rewrite Z.add_0_l in H2. subst T.
  set (raw := map _ stats).
  assert (Hfin : Forall (fun s => exists p, percentage s = Num p) raw).
  { subst raw. apply Forall_map, Forall_forall. intros e _.
    cbn [percentage]. unfold percentageOf.
    destruct (Z.eqb_spec (totalSpoken (content t)) 0); [contradiction|].
    destruct (snd e =? 0); eauto. }
  destruct (sortStats_sorted raw Hfin) as [Hs Hf].
  split; [exact Hf|]. clear Hf Hfin.
  apply Sorted_StronglySorted in Hs;
    [|intros x y z; unfold descending; lia].
  intros i j a b Hij Hi Hj.
  revert i j Hij Hi Hj. induction Hs as [|h r Hr IH Hall]; intros i j Hij Hi Hj.
  - discriminate.
  - destruct j as [|j]; [lia|]. destruct i as [|i].
    + cbn in Hi, Hj. inversion Hi; subst h.
      eapply Forall_forall in Hall; [exact Hall|].
      eapply list_elem_of_lookup_2; eassumption.
    + cbn in Hi, Hj. apply (IH i j); [lia|assumption|assumption].
Qed.

Lemma speakerStats_descending_witness :
  let t := mkTranscript
             [mkSegment (lit "A") 0 1000 []; mkSegment (lit "B") 1000 3000 [];
              mkSegment (lit "A") 3000 3500 []] [] in
  map percentage (speakerStats (Some t)) = [Num 57; Num 43]
  /\ Forall (fun s => exists p, percentage s = Num p) (speakerStats (Some t)).
Proof.
  intros t. split; [reflexivity|].
  assert (Hne : totalSpoken (content t) <> 0) by discriminate.
  assert (Hexact : exactTimes (content t))
    by (split; [repeat constructor; reflexivity|reflexivity]).
  assert (Hplain : Forall (fun seg => plainKey (speaker_id seg)) (content t))
    by plain_keys.
  exact (proj1 (speakerStats_descending t Hne Hexact Hplain)).
Defined.

End SpeakerStatsOrderFacts.

Section FilterFacts.
Import Segments.

Variable lowerCase : jsstring -> jsstring.

Lemma startsWith_refl p s : startsWith p (p ++ s) = true.
Proof.
  induction p as [|a p IH]; [reflexivity|].
  cbn [app startsWith]. now rewrite N.eqb_refl, IH.
Qed.

Lemma includes_self p : includes p p = true.
Proof.
  destruct p as [|a p]; [reflexivity|].
  cbn [includes].
  rewrite <- (app_nil_r (a :: p)) at 2. now rewrite startsWith_refl.
Qed.

(** X7: the transcript search never invents or reorders segments.  With
    no transcript the view is empty, with an empty query it is the whole
    transcript; otherwise it holds, in transcript order, exactly the
    segments whose lower-cased text or lower-cased speaker label contains
    the lower-cased query, so a search for a speaker's label finds every
    segment of that speaker. *)
Theorem filteredTranscript_spec (t : Transcript) (searchQuery : jsstring) :
  filteredTranscript lowerCase None searchQuery = []
  /\ filteredTranscript lowerCase (Some t) [] = content t
  /\ sublist (filteredTranscript lowerCase (Some t) searchQuery) (content t)
  /\ (searchQuery <> [] ->
      forall seg,
        seg ∈ filteredTranscript lowerCase (Some t) searchQuery
        <-> seg ∈ content t
            /\ (includes (lowerCase searchQuery) (lowerCase (text seg)) = true
                \/ includes (lowerCase searchQuery)
                            (lowerCase (speaker_id seg)) = true))
  /\ (forall seg,
        seg ∈ content t -> speaker_id seg = searchQuery ->
        seg ∈ filteredTranscript lowerCase (Some t) searchQuery).
Proof.
  assert (Hsub : forall (p : Segment -> bool) l, sublist (List.filter p l) l).
  { intros p l. induction l as [|x l IH]; [constructor|].
    cbn [List.filter]. destruct (p x); now constructor. }
  assert (Hmem : forall q, q <> [] -> forall seg,
             seg ∈ filteredTranscript lowerCase (Some t) q
             <-> seg ∈ content t
                 /\ matchesQuery lowerCase (lowerCase q) seg = true).
  { intros q Hq seg. unfold filteredTranscript.
    destruct q as [|c q]; [contradiction|].
    rewrite !list_elem_of_In, filter_In. reflexivity. }
  split; [reflexivity|]. split; [reflexivity|]. split; [|split].
  - unfold filteredTranscript. destruct searchQuery; [reflexivity|apply Hsub].
  - intros Hq seg. rewrite (Hmem _ Hq). unfold matchesQuery.
    now rewrite orb_true_iff.
  - intros seg Hin Hlabel. destruct searchQuery as [|c q] eqn:E.
    + exact Hin.
    + rewrite <- E in *. apply Hmem; [rewrite E; discriminate|].
      split; [assumption|]. unfold matchesQuery.
      rewrite Hlabel, includes_self. apply orb_true_r.
Qed.

End FilterFacts.

Section PollLifecycleFacts.
Import Poll.

Lemma clearInterval_other ref ts (i : positive) :
  (forall p, ref = Some p -> p <> i) ->
  clearInterval ref ts !! i = ts !! i.
Proof.
  intros H. destruct ref as [p|]; [|reflexivity].
  simpl. apply lookup_delete_ne. now apply H.
Qed.

Lemma mounted_timers_step st ev st' :
  timers_owned st -> mounted_timers st -> step st ev = Some st' ->
  mounted_timers st'.
Proof.
  intros (I1 & I2 & I3) J Hstep.
  assert (Hclear : forall i,
            phase st = Mounted -> timers st !! i = Some CbFetchRecording ->
            clearInterval (pollInterval st) (timers st) !! i
            = Some CbFetchRecording).
  { intros i Hph Hi. rewrite clearInterval_other; [exact Hi|].
    intros p Hp ->. destruct (J Hph) as [_ K]. apply K in Hp. congruence. }
  destruct ev as [fresh|timer|r fresh|r| |ok fresh| | ]; simpl in Hstep.
  - destruct (phase st) eqn:Hph; try discriminate.
    destruct (timers st !! fresh) eqn:Hf; try discriminate.
    rewrite (I3 eq_refl) in Hstep. inversion Hstep; subst; clear Hstep.
    intros _. simpl. split.
    + exists fresh. split; [reflexivity|apply lookup_insert_eq].
    + intros p Hp. discriminate.
  - destruct (timers st !! timer) as [[|]|] eqn:Ht; try discriminate;
      inversion Hstep; subst; clear Hstep; exact J.
  - destruct (pendingTranscript st) as [|n] eqn:Hp; try discriminate.
    destruct (timers st !! fresh) eqn:Hf; try discriminate.
    inversion Hstep; subst; clear Hstep.
    destruct r as [data|detail| |]; simpl.
    + intros Hph. simpl in Hph. destruct (J Hph) as [(i & Hs & Hi) K].
      simpl. split; [|intros p Hp'; discriminate].
      exists i. split; [assumption|now apply Hclear].
    + destruct (terminalFailure detail).
      * intros Hph. simpl in Hph. destruct (J Hph) as [(i & Hs & Hi) K].
        simpl. split; [|intros p Hp'; discriminate].
        exists i. split; [assumption|now apply Hclear].
      * simpl. destruct (pollInterval st) as [p|] eqn:Hpoll.
        -- intros Hph. simpl in Hph. destruct (J Hph) as [(i & Hs & Hi) K].
           simpl. split; [eauto|].
           intros q Hq. apply K. now rewrite Hpoll.
        -- intros Hph. simpl in Hph. destruct (J Hph) as [(i & Hs & Hi) K].
           simpl. split.
           ++ exists i. split; [assumption|].
              rewrite lookup_insert_ne by congruence. exact Hi.
           ++ intros p Hp'. inversion Hp'; subst. apply lookup_insert_eq.
    + intros Hph. simpl in Hph. exact (J Hph).
    + intros Hph. simpl in Hph. exact (J Hph).
  - destruct (pendingRecording st) as [|n] eqn:Hp; try discriminate.
    inversion Hstep; subst; clear Hstep.
    destruct r as [status msg|]; simpl.
    + destruct (decide (status = lit "error")).
      * intros Hph. simpl in Hph. destruct (J Hph) as [(i & Hs & Hi) K].
        simpl. split; [|intros p Hp'; discriminate].
        exists i. split; [assumption|now apply Hclear].
      * intros Hph. simpl in Hph. exact (J Hph).
    + intros Hph. simpl in Hph. exact (J Hph).
  - destruct (phase st) eqn:Hph; try discriminate.
    inversion Hstep; subst; clear Hstep.
    intros _. exact (J Hph).
  - destruct (pendingRetry st) as [|n] eqn:Hp; try discriminate.
    destruct (timers st !! fresh) eqn:Hf; try discriminate.
    inversion Hstep; subst; clear Hstep.
    destruct ok; simpl.
    + intros Hph. simpl in Hph. destruct (J Hph) as [(i & Hs & Hi) K].
      simpl. split.
      * exists i. split; [assumption|].
        rewrite lookup_insert_ne by congruence. now apply Hclear.
      * intros p Hp'. inversion Hp'; subst. apply lookup_insert_eq.
    + intros Hph. simpl in Hph. exact (J Hph).
  - destruct (phase st) eqn:Hph; try discriminate;
      inversion Hstep; subst; clear Hstep; intros Hph'; simpl in Hph';
      [exact (J Hph)|congruence].
  - destruct (phase st) eqn:Hph; try discriminate.
    inversion Hstep; subst; clear Hstep. intros Hph'. discriminate.
Qed.

Lemma mounted_timers_run evs : forall st st',
  timers_owned st -> mounted_timers st -> run st evs = Some st' ->
  mounted_timers st'.
Proof.
  induction evs as [|ev evs IH]; intros st st' Hinv J Hrun; simpl in Hrun.
  - inversion Hrun; subst. exact J.
  - destruct (step st ev) as [st1|] eqn:Hstep; [|discriminate].
    apply (IH st1); [| |assumption].
    + eapply timers_owned_step; eassumption.
    + eapply mounted_timers_step; eassumption.
Qed.

Lemma activeTimers_none st :
  timers_owned st -> pollInterval st = None ->
  activeTimers CbFetchTranscript st = [].
Proof.
  intros (I1 & _) Hp.
  destruct (activeTimers CbFetchTranscript st) as [|a r] eqn:E; [reflexivity|].
  assert (Ha : a ∈ activeTimers CbFetchTranscript st) by (rewrite E; left).
  apply elem_of_activeTimers, I1 in Ha. congruence.
Qed.

(** After the unmount, an event other than the late answer of a
    transcript or retry request starts no timer. *)
Lemma unmounted_quiet_step st ev st' :
  timers st = ∅ -> phase st = Unmounted -> mayStartTimer ev = false ->
  step st ev = Some st' ->
  timers st' = ∅ /\ phase st' = Unmounted.
Proof.
  intros Ht Hph Hev Hstep.
  destruct ev as [fresh|timer|r fresh|r| |ok fresh| | ]; simpl in Hstep;
    try discriminate Hev.
  - rewrite Hph in Hstep. discriminate.
  - rewrite Ht, lookup_empty in Hstep. discriminate.
  - destruct (pendingRecording st); [discriminate|].
    inversion Hstep; subst; clear Hstep.
    destruct r as [status msg|]; simpl.
    + destruct (decide (status = lit "error")); simpl; [|now split].
      split; [|assumption]. rewrite Ht.
      destruct (pollInterval st); [apply delete_empty|reflexivity].
    + now split.
  - rewrite Hph in Hstep. discriminate.
  - rewrite Hph in Hstep. inversion Hstep; subst. now split.
  - rewrite Hph in Hstep. discriminate.
Qed.

(** X11: leaving the view stops every timer.  In whatever state the view
    is when it is unmounted, no interval timer is active when
    [onUnmounted] returns, so none can fire; and none becomes active
    later, whatever else happens, unless the answer of a transcript
    request or of a retry that was still in flight arrives after the
    unmount (only those continuations call [setInterval]). *)
Theorem unmount_clears_all_timers (st st' : State) :
  reachable st ->
  step st Unmount = Some st' ->
  timers st' = ∅
  /\ phase st' = Unmounted
  /\ (forall timer, step st' (Tick timer) = None)
  /\ forall evs st'',
       Forall (fun ev => mayStartTimer ev = false) evs ->
       run st' evs = Some st'' ->
       timers st'' = ∅.
Proof.
  intros Hreach Hstep.
  pose proof (reachable_timers_owned st Hreach) as (I1 & I2 & _).
  simpl in Hstep. destruct (phase st); try discriminate.
  inversion Hstep; subst; clear Hstep. simpl.
  assert (E : clearInterval (statusInterval st)
                (clearInterval (pollInterval st) (timers st)) = ∅).
  { apply map_eq. intros i. rewrite lookup_empty.
    destruct (_ !! i) as [cb|] eqn:Hi; [|reflexivity].
    apply clearInterval_lookup in Hi as [Hi Hs].
    apply clearInterval_lookup in Hi as [Hi Hp].
    destruct cb; [apply I1 in Hi|apply I2 in Hi]; contradiction. }
  split; [exact E|]. split; [reflexivity|]. split.
  { intros timer. rewrite E. reflexivity. }
  intros evs.
  match goal with |- forall st'', _ -> run ?s _ = _ -> _ =>
    assert (Hs : timers s = ∅ /\ phase s = Unmounted)
      by (split; [exact E|reflexivity]);
    generalize dependent s end.
  induction evs as [|ev evs IH]; intros s [Hts Hps] st'' Hall Hrun;
    simpl in Hrun.
  - inversion Hrun; subst. exact Hts.
  - inversion Hall as [|? ? Hev Hrest]; subst.
    destruct (step s ev) as [s1|] eqn:Hs1; [|discriminate].
    apply (IH s1); [|assumption|assumption].
    eapply unmounted_quiet_step; eassumption.
Qed.

Lemma unmount_clears_all_timers_witness :
  let notReady := NotFound (lit "Transcript not ready") in
  exists st st',
    run init [Mount 1; TranscriptSettled notReady 2] = Some st
    /\ activeTimers CbFetchTranscript st = [2%positive]
    /\ step st Unmount = Some st'
    /\ timers st' = ∅.
Proof.
  intros notReady.
  destruct (run init [Mount 1; TranscriptSettled notReady 2])
    as [st|] eqn:Hrun; [|vm_compute in Hrun; discriminate].
  destruct (step st Unmount) as [st'|] eqn:Hstep;
    [|vm_compute in Hrun; inversion Hrun; subst; discriminate].
  exists st, st'.
  destruct (unmount_clears_all_timers st st' (ex_intro _ _ Hrun) Hstep)
    as (Hempty & _).
  split; [reflexivity|]. split.
  - vm_compute in Hrun. inversion Hrun. reflexivity.
  - split; [exact Hstep|exact Hempty].
Defined.

(** X12: the status of the recording is polled for as long as the view
    is mounted.  In every reachable state of a mounted view exactly one
    timer calls [fetchRecording], it is the one in [statusInterval], and
    its tick issues a status request: neither the arrival of the
    transcript, nor a reported failure, nor a retry stops it. *)
Theorem status_poll_runs_while_mounted (st : State) :
  reachable st ->
  phase st = Mounted ->
  exists i,
    statusInterval st = Some i
    /\ timers st !! i = Some CbFetchRecording
    /\ activeTimers CbFetchRecording st = [i]
    /\ step st (Tick i) = Some (addPending 0 1 0 st).
Proof.
  intros Hreach Hph.
  pose proof (reachable_timers_owned st Hreach) as Hinv.
  assert (J : mounted_timers st).
  { destruct Hreach as [evs Hrun].
    apply (mounted_timers_run evs init st); [apply timers_owned_init| |exact Hrun].
    intros H. discriminate H. }
  destruct (J Hph) as [(i & Hs & Hi) _].
  exists i. split; [exact Hs|]. split; [exact Hi|]. split.
  - assert (Hall : forall j, j ∈ activeTimers CbFetchRecording st -> j = i).
    { intros j Hj. apply elem_of_activeTimers in Hj.
      destruct Hinv as (_ & I2 & _). apply I2 in Hj. congruence. }
    destruct (NoDup_all_equal (activeTimers CbFetchRecording st) i
                (NoDup_activeTimers _ _) Hall) as [E|E]; [|exact E].
    exfalso.
    assert (Hin : i ∈ activeTimers CbFetchRecording st)
      by now apply elem_of_activeTimers.
    rewrite E in Hin. inversion Hin.
  - simpl. rewrite Hi. reflexivity.
Qed.

Lemma status_poll_runs_while_mounted_witness :
  exists st,
    run init [Mount 1; TranscriptSettled (TranscriptOk sample_transcript) 2;
              RecordingSettled (RecordingOk (lit "completed") [])] = Some st
    /\ transcript st = Some sample_transcript
    /\ activeTimers CbFetchRecording st = [1%positive].
Proof.
  destruct (run init [Mount 1;
                      TranscriptSettled (TranscriptOk sample_transcript) 2;
                      RecordingSettled (RecordingOk (lit "completed") [])])
    as [st|] eqn:Hrun; [|vm_compute in Hrun; discriminate].
  exists st.
  assert (Hph : phase st = Mounted)
    by (vm_compute in Hrun; inversion Hrun; reflexivity).
  destruct (status_poll_runs_while_mounted st (ex_intro _ _ Hrun) Hph)
    as (i & Hs & _ & Hact & _).
  split; [reflexivity|]. split.
  - vm_compute in Hrun. inversion Hrun. reflexivity.
  - rewrite Hact. f_equal. vm_compute in Hrun. inversion Hrun; subst.
    simpl in Hs. congruence.
Defined.

(** X13: a reported failure stops the transcript polling.  When the
    transcript request answers 404 with a detail that contains "failed"
    in any letter case, or the status request reports the status "error",
    the handler leaves a non-empty error message, an empty [pollInterval]
    and no active transcript timer; the status timer and the transcript
    shown are left as they were. *)
Theorem failure_stops_transcript_polling (st : State) (ev : Event)
    (st' : State) :
  reachable st ->
  step st ev = Some st' ->
  (exists detail fresh,
      ev = TranscriptSettled (NotFound detail) fresh
      /\ terminalFailure detail = true)
  \/ (exists error_message,
         ev = RecordingSettled (RecordingOk (lit "error") error_message)) ->
  errorState st' <> []
  /\ pollInterval st' = None
  /\ activeTimers CbFetchTranscript st' = []
  /\ statusInterval st' = statusInterval st
  /\ transcript st' = transcript st.
Proof.
  intros Hreach Hstep Hev.
  assert (Hinv' : timers_owned st').
  { eapply timers_owned_step; [|exact Hstep].
    now apply reachable_timers_owned. }
  assert (H : errorState st' <> [] /\ pollInterval st' = None
              /\ statusInterval st' = statusInterval st
              /\ transcript st' = transcript st).
  { destruct Hev as [(detail & fresh & -> & Hterm)|(msg & ->)];
      simpl in Hstep.
    - destruct (pendingTranscript st); [discriminate|].
      destruct (timers st !! fresh); [discriminate|].
      inversion Hstep; subst; clear Hstep. simpl. rewrite Hterm. simpl.
      repeat split. intros ->. discriminate Hterm.
    - destruct (pendingRecording st); [discriminate|].
      inversion Hstep; subst; clear Hstep. simpl.
      destruct (decide (lit "error" = lit "error")) as [_|Hne];
        [|contradiction].
      simpl. repeat split. destruct msg; discriminate. }
  destruct H as (H1 & H2 & H3 & H4).
  repeat split; try assumption. now apply activeTimers_none.
Qed.

Lemma failure_stops_transcript_polling_witness :
  let notReady := NotFound (lit "Transcript not ready") in
  let failed := NotFound (lit "Transcription FAILED: no speech") in
  exists st st',
    run init [Mount 1; TranscriptSettled notReady 2; Tick 2] = Some st
    /\ activeTimers CbFetchTranscript st = [2%positive]
    /\ step st (TranscriptSettled failed 3) = Some st'
    /\ activeTimers CbFetchTranscript st' = []
    /\ errorState st' = lit "Transcription FAILED: no speech".
Proof.
  intros notReady failed.
  destruct (run init [Mount 1; TranscriptSettled notReady 2; Tick 2])
    as [st|] eqn:Hrun; [|vm_compute in Hrun; discriminate].
  destruct (step st (TranscriptSettled failed 3)) as [st'|] eqn:Hstep;
    [|vm_compute in Hrun; inversion Hrun; subst; discriminate].
  exists st, st'.
  destruct (failure_stops_transcript_polling st _ st' (ex_intro _ _ Hrun)
              Hstep
              (or_introl (ex_intro _ _ (ex_intro _ 3%positive
                                          (conj eq_refl eq_refl)))))
    as (_ & _ & Hact & _).
  split; [reflexivity|]. split.
  - vm_compute in Hrun. inversion Hrun. reflexivity.
  - split; [exact Hstep|]. split; [exact Hact|].
    vm_compute in Hrun. inversion Hrun; subst.
    vm_compute in Hstep. inversion Hstep. reflexivity.
Defined.

End PollLifecycleFacts.

Section RenameRoundTripFacts.
Import Segments Speakers.

Lemma relabel_back originalId newName seg :
  speaker_id seg <> newName ->
  relabel newName originalId (relabel originalId newName seg) = seg.
Proof.
  intros Hfresh. unfold relabel at 2.
  destruct (decide (speaker_id seg = originalId)) as [E|Hne].
  - unfold relabel. cbn [speaker_id seg_start seg_end text].
    destruct (decide (newName = newName)) as [_|H]; [|contradiction].
    destruct seg as [sp a b tx]. cbn in *. now subst.
  - unfold relabel. destruct (decide (speaker_id seg = newName));
      [contradiction|reflexivity].
Qed.

Lemma saveSpeakerName_transcript st ed t putOk :
  editingSpeaker st = Some ed ->
  transcript st = Some t ->
  trim (name ed) <> [] ->
  trim (name ed) <> id ed ->
  transcript (fst (saveSpeakerName st putOk))
  = Some (mkTranscript (map (relabel (id ed) (trim (name ed))) (content t))
                       (plain_text t))
  /\ editingSpeaker (fst (saveSpeakerName st putOk)) = None.
Proof.
  intros Hed Ht Hne Hdiff. unfold saveSpeakerName. rewrite Hed, Ht.
  destruct (decide (trim (name ed) = [])) as [E|_]; [contradiction|].
  destruct (decide (trim (name ed) = id ed)) as [E|_]; [contradiction|].
  split; reflexivity.
Qed.

(** X14: renaming a speaker to a label that no segment carries, and then
    renaming that label back, restores the transcript exactly, when both
    requests succeed.  (A rename onto a label in use merges two speakers
    and cannot be undone this way; after a rejected request the
    transcript is fetched again and replaced by the server's copy.) *)
Theorem rename_round_trip (st : State) (t : Transcript)
    (originalId typed typedBack : jsstring) :
  transcript st = Some t ->
  editingSpeaker st = Some (mkEditing originalId typed) ->
  trim typed <> [] ->
  trim typed <> originalId ->
  trim typedBack = originalId ->
  originalId <> [] ->
  Forall (fun seg => speaker_id seg <> trim typed) (content t) ->
  let st1 := fst (saveSpeakerName st true) in
  let run2 :=
    saveSpeakerName
      (mkState (transcript st1)
               (Some (mkEditing (trim typed) typedBack))
               (speakerColors st1)) true in
  transcript (fst run2) = Some t
  /\ editingSpeaker (fst run2) = None
  /\ snd (saveSpeakerName st true)
     = [PutSpeakers originalId (trim typed); MessageSuccess]
  /\ snd run2 = [PutSpeakers (trim typed) originalId; MessageSuccess].
Proof.
  intros Ht Hed Hne Hdiff Hback Horig Hfresh st1 run2.
  destruct (saveSpeakerName_transcript st _ t true Hed Ht Hne Hdiff)
    as [H1 _].
  cbn [id name] in H1. fold st1 in H1.
  set (s := mkState (transcript st1)
                    (Some (mkEditing (trim typed) typedBack))
                    (speakerColors st1)) in *.
  assert (Hne2 : trim (name (mkEditing (trim typed) typedBack)) <> [])
    by (cbn [name]; now rewrite Hback).
  assert (Hdiff2 : trim (name (mkEditing (trim typed) typedBack))
                   <> id (mkEditing (trim typed) typedBack))
    by (cbn [name id]; rewrite Hback; congruence).
  destruct (saveSpeakerName_transcript s (mkEditing (trim typed) typedBack)
              _ true eq_refl H1 Hne2 Hdiff2) as [H2 H3].
  fold run2 in H2, H3. split; [|split; [exact H3|split]].
  - rewrite H2. cbn [id name content plain_text]. rewrite Hback.
    destruct t as [segs plain]. cbn [content plain_text] in *. do 2 f_equal.
    rewrite map_map. rewrite <- (map_id segs) at 2.
    apply map_ext_in. intros seg Hin. apply relabel_back.
    rewrite Forall_forall in Hfresh. apply Hfresh.
    now apply list_elem_of_In.
  - unfold saveSpeakerName. rewrite Hed, Ht. cbn [id name].
    destruct (decide (trim typed = [])); [contradiction|].
    destruct (decide (trim typed = originalId)); [contradiction|].
    reflexivity.
  - subst run2. unfold saveSpeakerName at 1.
    subst s. cbn [editingSpeaker transcript]. rewrite H1. cbn [id name].
    rewrite Hback.
    destruct (decide (originalId = [])); [contradiction|].
    destruct (decide (originalId = trim typed)); [congruence|].
    reflexivity.
Qed.

Lemma rename_round_trip_witness :
  let st := mkState (Some (mkTranscript example_segments []))
                    (Some (mkEditing (lit "Speaker 1") (lit " Alice ")))
                    ∅ in
  let st1 := fst (saveSpeakerName st true) in
  let st2 :=
    fst (saveSpeakerName
           (mkState (transcript st1)
                    (Some (mkEditing (lit "Alice") (lit "Speaker 1")))
                    (speakerColors st1)) true) in
  option_map (fun t => map speaker_id (content t)) (transcript st1)
  = Some [lit "Alice"; lit "Speaker 2"; lit "Alice"; lit "Speaker 2";
          lit "Alice"]
  /\ transcript st2 = Some (mkTranscript example_segments []).
Proof.
  intros st st1 st2. split; [reflexivity|].
  assert (Hfresh : Forall (fun seg => speaker_id seg <> trim (lit " Alice "))
                          (content (mkTranscript example_segments [])))
    by (repeat constructor; discriminate).
  assert (H1 : trim (lit " Alice ") <> []) by discriminate.
  assert (H2 : trim (lit " Alice ") <> lit "Speaker 1") by discriminate.
  assert (H3 : lit "Speaker 1" <> []) by discriminate.
  exact (proj1 (rename_round_trip st (mkTranscript example_segments [])
                  (lit "Speaker 1") (lit " Alice ") (lit "Speaker 1")
                  eq_refl eq_refl H1 H2 eq_refl H3 Hfresh)).
Defined.

End RenameRoundTripFacts.

(** * Further properties of the minutes view *)

Section MinutesEditFacts.
Import MinutesStream.

Lemma readAll_chunks (chunks : list jsstring) : forall acc,
  readAll (map Chunk chunks) acc = (acc ++ concat chunks, None).
Proof.
  induction chunks as [|c chunks IH]; intros acc; cbn [map readAll concat].
  - now rewrite app_nil_r.
  - now rewrite IH, app_assoc.
Qed.

(** X15: a run of [startStreaming] whose reads all succeed ends showing
    the stored minutes when the refetch returns a non-empty content, and
    otherwise the concatenation of all chunks in the order they arrived;
    the text shown before the run is discarded, the stored minutes are
    those of the refetch, and no notification is added. *)
Theorem startStreaming_success (statusText : jsstring)
    (chunks : list jsstring) (refetch : MinutesOutcome) (st : State) :
  let response := FetchResponse true statusText (Some (map Chunk chunks)) in
  let st' := startStreaming response refetch st in
  streamContent st'
  = match refetch with
    | MinutesOk (Some (c :: cs)) => c :: cs
    | _ => concat chunks
    end
  /\ minutes st'
     = match refetch with
       | MinutesOk content => Some content
       | MinutesRejected => None
       end
  /\ notifications st' = notifications st.
Proof.
  intros response st'. subst st' response. unfold startStreaming.
  rewrite readAll_chunks. cbn [app].
  destruct refetch as [[[|c cs]|]|]; repeat split.
Qed.

(** X16: saving the minutes editor.  When the PUT succeeds and either the
    edited text is not empty or a minutes object is loaded, the view shows
    exactly the edited text afterwards and the editor is closed; opened
    and saved without a change, the text shown stays as it was.  When the
    PUT fails, the view, the open editor and the text typed are all left
    as they were, so no edit is lost. *)
Theorem saveMinutes_shows_edit (e : Editor) (refetch : MinutesOutcome) :
  editedMinutesContent e <> [] \/ minutes (view e) <> None ->
  (shownContent (view (saveMinutes true refetch e)) = editedMinutesContent e
   /\ isEditingMinutes (saveMinutes true refetch e) = false)
  /\ (view (saveMinutes false refetch e) = view e
      /\ isEditingMinutes (saveMinutes false refetch e) = isEditingMinutes e
      /\ editedMinutesContent (saveMinutes false refetch e)
         = editedMinutesContent e)
  /\ (editedMinutesContent e = shownContent (view e) ->
      shownContent (view (saveMinutes true refetch e))
      = shownContent (view e)).
Proof.
  intros H.
  assert (Hshown : shownContent (view (saveMinutes true refetch e))
                   = editedMinutesContent e).
  { unfold saveMinutes, shownContent.
    cbn [view withContent streamContent minutes].
    destruct (editedMinutesContent e) as [|c cs] eqn:Hed; [|reflexivity].
    destruct H as [H|H]; [contradiction|].
    destruct (minutes (view e)) as [m|]; [reflexivity|contradiction]. }
  split; [split; [exact Hshown|reflexivity]|].
  split; [repeat split|].
  intros E. now rewrite Hshown.
Qed.

Lemma saveMinutes_shows_edit_witness :
  let st := mkState false false [] (Some (Some (lit "# Old"))) [] in
  let e := mkEditor st true (lit "# New") [] in
  shownContent st = lit "# Old"
  /\ shownContent (view (saveMinutes true MinutesRejected e)) = lit "# New".
Proof.
  intros st e. split; [reflexivity|].
  assert (H : editedMinutesContent e <> [] \/ minutes (view e) <> None)
    by (left; discriminate).
  destruct (saveMinutes_shows_edit e MinutesRejected H) as [[H1 _] _].
  exact H1.
Defined.

End MinutesEditFacts.

(** * Further properties of the project view *)

Section CitationPlainFacts.
Import Citations.

Variable projectId : jsstring.

Lemma noClose_closing s : noClose s -> closing s = None.
Proof.
  induction s as [|c r IH]; intros H; [reflexivity|].
  pose proof (noClose_cons _ _ H) as Hr.
  unfold noClose in H. rewrite includes_cons in H.
  apply orb_false_elim in H as [Hc _].
  cbn [closing]. change (lit "]]") with closingBrackets. rewrite Hc.
  destruct (isLineTerminator c); [reflexivity|]. now rewrite (IH Hr).
Qed.

Lemma noClose_drop n s : noClose s -> noClose (drop n s).
Proof.
  intros H. rewrite <- (take_drop n s) in H.
  now apply noClose_app_inv in H as [_ H].
Qed.

(** X17: a text without two closing brackets in a row holds no citation
    token, and [transformCitations] returns it unchanged, opening brackets
    included. *)
Theorem transformCitations_plain (html : jsstring) :
  noClose html -> transformCitations projectId html = html.
Proof.
  induction html as [|c r IH]; intros H; [reflexivity|].
  rewrite transform_copy.
  - f_equal. apply IH. now apply noClose_cons in H.
  - right. apply noClose_closing. now apply noClose_drop.
Qed.

End CitationPlainFacts.

Section CitationClickFacts.
Import Citations.

Lemma transformCitations_plain_witness :
  transformCitations project7 (lit "a[0] and [[open") = lit "a[0] and [[open".
Proof.
  exact (transformCitations_plain project7 (lit "a[0] and [[open") eq_refl).
Defined.

Lemma transform_token_witness :
  transformCitations project7 (lit "See [[PRD_7]] now")
  = lit "See " ++ replacer project7 (lit "PRD_7") ++ lit " now".
Proof.
  assert (Hlast : List.last (lit "PRD_7") 0%N <> 93%N) by discriminate.
  exact (transform_token project7 (lit "See ") (lit "PRD_7") (lit " now")
           eq_refl eq_refl eq_refl Hlast).
Defined.

Lemma parseSource_minutes_witness :
  href (parseSource project7 (lit "Minutes_Weekly sync_2024_12"))
  = lit "/recording/12/minutes"
  /\ displayName (parseSource project7 (lit "Minutes_Weekly sync_2024_12"))
     = lit "Weekly sync_2024".
Proof.
  pose proof (parseSource_minutes project7 (lit "Weekly sync_2024") (lit "12")
                eq_refl eq_refl) as H.
  change (lit "Minutes_" ++ lit "Weekly sync_2024" ++ 95%N :: lit "12")
    with (lit "Minutes_Weekly sync_2024_12") in H.
  rewrite H. split; reflexivity.
Defined.

Lemma matchNamed_id pre sourceName x d :
  matchNamed pre sourceName = Some (x, d) -> nonEmpty d = true.
Proof.
  unfold matchNamed. intros H.
  destruct (startsWithFold _ _); [|discriminate].
  destruct (splitLastUnderscore _) as [[x' d']|]; [|discriminate].
  destruct (allDigits d') eqn:Hd; [|discriminate].
  destruct (negb _); [|discriminate]. inversion H; subst.
  destruct d; [discriminate|reflexivity].
Qed.

(** X20: every citation link does something when clicked, and what it
    does agrees with where the link points.  For a name parsed as a
    minutes or transcript citation the route [handleMessageClick] pushes
    is exactly the link's [href]; for a knowledge-base citation the
    handler opens the knowledge-base tab on the section the link names,
    one of the five sections, and the [href] is the project's
    knowledge-base tab; for a document citation it opens the file list,
    as the [href] does. *)
Theorem citation_click_follows_link (projectId sourceName : jsstring) :
  let src := parseSource projectId sourceName in
  isCitation src = true ->
  match handleMessageClick (type src) (id src) (section src) with
  | RouterPush path =>
      path = href src
      /\ (type src = lit "minutes" \/ type src = lit "transcript")
  | ShowKnowledgeBase shown =>
      shown = Some (section src)
      /\ In (section src)
            [lit "prd"; lit "specs"; lit "timeline"; lit "glossary";
             lit "business_flows"]
      /\ href src = lit "/project/" ++ projectId ++ lit "?tab=kb"
  | ShowFiles =>
      type src = lit "document"
      /\ href src = lit "/project/" ++ projectId ++ lit "?tab=files"
  | NoEffect => False
  end.
Proof.
  intros src Hcit. subst src. revert Hcit. unfold parseSource.
  destruct (includes (lit "minutes") (toLowerCase sourceName)).
  { destruct (matchNamed (lit "Minutes") sourceName) as [[x d]|] eqn:E;
      [|discriminate].
    intros _. apply matchNamed_id in E.
    destruct d as [|c d]; [discriminate|].
    cbv beta iota zeta delta [type id section href].
    unfold handleMessageClick.
    rewrite (bool_decide_eq_true_2 _ eq_refl). cbn [nonEmpty andb].
    split; [reflexivity|now left]. }
  destruct (includes (lit "transcript") (toLowerCase sourceName)).
  { destruct (matchNamed (lit "Transcript") sourceName) as [[x d]|] eqn:E;
      [|discriminate].
    intros _. apply matchNamed_id in E.
    destruct d as [|c d]; [discriminate|].
    cbv beta iota zeta delta [type id section href].
    unfold handleMessageClick.
    rewrite (bool_decide_eq_false_2 (lit "transcript" = lit "minutes"))
      by discriminate.
    rewrite (bool_decide_eq_true_2 _ eq_refl). cbn [nonEmpty andb].
    split; [reflexivity|now right]. }
  destruct (matchKb sourceName) as [key|] eqn:E.
  { intros _. apply matchKb_keys in E. simpl in E.
    destruct E as [<-|[<-|[<-|[<-|[<-|[]]]]]];
      vm_compute; repeat split; tauto. }
  destruct (startsWith (lit "document_") (toLowerCase sourceName));
    [|discriminate].
  destruct (matchNamed (lit "Document") sourceName) as [[x d]|] eqn:Ed;
    [|discriminate].
  intros _. cbv beta iota zeta delta [type id section href].
  unfold handleMessageClick.
  rewrite (bool_decide_eq_false_2 (lit "document" = lit "minutes"))
    by discriminate.
  rewrite (bool_decide_eq_false_2 (lit "document" = lit "transcript"))
    by discriminate.
  rewrite (bool_decide_eq_false_2 (lit "document" = lit "kb"))
    by discriminate.
  rewrite (bool_decide_eq_true_2 _ eq_refl). cbn [andb].
  split; reflexivity.
Qed.

Lemma citation_click_follows_link_witness :
  let src := parseSource project7 (lit "Transcript_Kickoff_12") in
  handleMessageClick (type src) (id src) (section src)
  = RouterPush (lit "/recording/12")
  /\ href src = lit "/recording/12".
Proof.
  intros src.
  pose proof (citation_click_follows_link project7
                (lit "Transcript_Kickoff_12") eq_refl) as H.
  change (lit "/recording/12" = href src
          /\ (type src = lit "minutes" \/ type src = lit "transcript")) in H.
  destruct H as [H _]. split; [reflexivity|symmetry; exact H].
Defined.

End CitationClickFacts.

Section ChatStreamFacts.
Import Json Sse.

Lemma extends_refl st : extends st st.
Proof. repeat split; reflexivity. Qed.

Lemma extends_trans a b c : extends a b -> extends b c -> extends a c.
Proof.
  intros (A1 & A2 & A3 & A4 & A5) (B1 & B2 & B3 & B4 & B5).
  repeat split; try (etransitivity; eassumption).
  intros H. rewrite B5, A5; [reflexivity|assumption|].
  now rewrite A5.
Qed.

Lemma dispatchChat_extends event data st st' :
  dispatchChat event data st = Some st' -> extends st st'.
Proof.
  unfold dispatchChat. intros H.
  repeat match type of H with
         | (if ?c then _ else _) = _ => destruct c eqn:?
         | match ?x with _ => _ end = _ => destruct x eqn:?
         end;
    try discriminate; inversion H; subst; clear H;
    unfold extends, appendContent, withMessage;
    cbn [assistantMsg currentSessionId content thoughts actions isStreaming];
    repeat split;
    try reflexivity; try (apply prefix_app_r; reflexivity);
    try (intros; congruence).
Qed.

(** Only the message and the session id matter. *)
Lemma extends_fields a a' b b' :
  assistantMsg a' = assistantMsg a ->
  currentSessionId a' = currentSessionId a ->
  assistantMsg b' = assistantMsg b ->
  currentSessionId b' = currentSessionId b ->
  extends a b -> extends a' b'.
Proof.
  unfold extends. intros -> -> -> ->. tauto.
Qed.

Lemma handleChatBlock_extends line st : extends st (handleChatBlock line st).
Proof.
  unfold handleChatBlock.
  destruct (startsWith (lit "event:") line); [|apply extends_refl].
  destruct (hd [] (split [10%N] line)) as [|e es]; [apply extends_refl|].
  destruct (join [10%N] (tl (split [10%N] line))) as [|d ds];
    [apply extends_refl|].
  destruct (JSON_parse _) as [data|];
    [|apply (extends_fields st st st); try reflexivity; apply extends_refl].
  match goal with
  | |- context [dispatchChat ?ev data ?s] =>
      destruct (dispatchChat ev data s) as [st2|] eqn:E
  end.
  - apply dispatchChat_extends in E.
    eapply extends_fields; [| | | |exact E]; reflexivity.
  - apply (extends_fields st st st); try reflexivity. apply extends_refl.
Qed.

Lemma chatStream_extends chunks : forall st, extends st (chatStream chunks st).
Proof.
  assert (Hfold : forall lines st,
            extends st (fold_left (fun s line => handleChatBlock line s)
                                  lines st)).
  { induction lines as [|l lines IH]; intros st; [apply extends_refl|].
    cbn [fold_left]. eapply extends_trans; [|apply IH].
    apply handleChatBlock_extends. }
  unfold chatStream.
  induction chunks as [|c chunks IH]; intros st; [apply extends_refl|].
  cbn [fold_left]. eapply extends_trans; [|apply IH].
  apply Hfold.
Qed.

(** X21: the reader of [sendChatMessage] only ever appends to the
    assistant message.  Whatever chunks arrive, complete or cut anywhere,
    well-formed or not, the content, the thoughts and the actions the
    message had before are a prefix of what it has afterwards, and its
    [isStreaming] flag is not touched by the loop. *)
Theorem chatStream_append_only (chunks : list jsstring) (st : ChatState) :
  let st' := chatStream chunks st in
  content (assistantMsg st) `prefix_of` content (assistantMsg st')
  /\ thoughts (assistantMsg st) `prefix_of` thoughts (assistantMsg st')
  /\ actions (assistantMsg st) `prefix_of` actions (assistantMsg st')
  /\ isStreaming (assistantMsg st') = isStreaming (assistantMsg st).
Proof.
  intros st'. destruct (chatStream_extends chunks st) as (H1 & H2 & H3 & H4 & _).
  repeat split; assumption.
Qed.

(** X23: a session that is set is never replaced by the stream: when
    [currentSessionId] is truthy before the loop, no [session_id] event,
    whatever id it carries, changes it. *)
Theorem chatStream_session_sticky (chunks : list jsstring) (st : ChatState) :
  truthy (currentSessionId st) = true ->
  currentSessionId (chatStream chunks st) = currentSessionId st.
Proof.
  intros H. destruct (chatStream_extends chunks st) as (_ & _ & _ & _ & H5).
  now apply H5.
Qed.

Lemma chatStream_session_sticky_witness :
  let st := mkChat (mkMessage [] [] [] true) (Some (JNumber (lit "5")))
                   [] 0 0 0 in
  let chunk := lit "event: session_id" ++ [10%N] ++ lit "data: {"
                 ++ [34%N] ++ lit "id" ++ [34%N] ++ lit ":9}" ++ blank in
  received (chatStream [chunk] st)
  = [(lit "session_id", JObject [(lit "id", JNumber (lit "9"))])]
  /\ currentSessionId (chatStream [chunk] st) = Some (JNumber (lit "5")).
Proof.
  intros st chunk. split; [vm_compute; reflexivity|].
  exact (chatStream_session_sticky [chunk] st eq_refl).
Defined.

End ChatStreamFacts.

Section KbStreamFacts.
Import Json Sse.

Lemma settles_refl st : settles st st.
Proof.
  exists []. split; [now rewrite app_nil_r|].
  split; [intros _; repeat split|intros H; contradiction].
Qed.

Lemma settles_trans a b c : settles a b -> settles b c -> settles a c.
Proof.
  intros (k1 & E1 & S1 & F1) (k2 & E2 & S2 & F2).
  exists (k1 ++ k2). split; [now rewrite E2, E1, app_assoc|]. split.
  - intros H. apply app_eq_nil in H as [-> ->].
    destruct (S1 eq_refl) as (? & ? & ?), (S2 eq_refl) as (? & ? & ?).
    repeat split; congruence.
  - intros H. destruct k2 as [|t k2].
    + destruct (S2 eq_refl) as (-> & -> & _). apply F1.
      intros ->. now apply H.
    + apply F2. discriminate.
Qed.

Lemma settles_finished t st st0 :
  toasts st0 = toasts st -> settles st (kbFinished t st0).
Proof.
  intros E. exists [t]. unfold kbFinished. cbn. rewrite E.
  split; [reflexivity|]. split; [discriminate|intros _; split; reflexivity].
Qed.

Lemma settles_same st st0 :
  toasts st0 = toasts st -> isGeneratingKB st0 = isGeneratingKB st ->
  showResearchModal st0 = showResearchModal st ->
  knowledgeBase st0 = knowledgeBase st -> settles st st0.
Proof.
  intros E1 E2 E3 E4. exists []. rewrite app_nil_r.
  split; [assumption|].
  split; [intros _; repeat split; assumption|intros H; contradiction].
Qed.

Lemma handleKbBlock_settles line st : settles st (handleKbBlock line st).
Proof.
  unfold handleKbBlock.
  repeat match goal with
         | |- settles _ (if ?c then _ else _) => destruct c
         | |- settles _ (match ?x with _ => _ end) => destruct x eqn:?
         | |- settles _ (kbFinished _ (match ?x with _ => _ end)) =>
             destruct x eqn:?
         end;
    first [ apply settles_refl
          | apply settles_finished; reflexivity
          | apply settles_same; reflexivity ].
Qed.

Lemma kbStream_settles chunks : forall s,
  settles (snd s) (snd (fold_left kbChunk chunks s)).
Proof.
  assert (Hfold : forall lines st,
            settles st (fold_left (fun s line => handleKbBlock line s)
                                  lines st)).
  { induction lines as [|l lines IH]; intros st; [apply settles_refl|].
    cbn [fold_left]. eapply settles_trans; [|apply IH].
    apply handleKbBlock_settles. }
  induction chunks as [|c chunks IH]; intros s; [apply settles_refl|].
  cbn [fold_left]. eapply settles_trans; [|apply IH].
  unfold kbChunk. cbn [snd]. apply Hfold.
Qed.

Lemma kbRead_settles body : forall s,
  settles (snd s) (snd (fst (kbRead body s))).
Proof.
  induction body as [|[text|err] body IH]; intros s; cbn [kbRead fst snd];
    try apply settles_refl.
  eapply settles_trans; [|apply IH].
  exact (kbStream_settles [text] s).
Qed.

Lemma kbRead_throws body statusText : forall s,
  snd (kbRead body s)
  = throws (MinutesStream.FetchResponse true statusText (Some body)).
Proof.
  cbn [throws].
  induction body as [|[text|e] body IH]; intros s;
    [reflexivity| |reflexivity].
  cbn [kbRead existsb orb]. apply IH.
Qed.

(** X24: [confirmGenerate] closes the progress modal exactly together
    with a toast.  A run that starts (something is selected) only adds
    toasts; if it adds none, which is what happens when the stream ends
    without a [done] or [error] event that parses, [isGeneratingKB] and
    [showResearchModal] are still set when the function returns; if it
    adds one (completion, a reported error, or the failure of the request
    or of a read) both are cleared.  With nothing selected the function
    returns after its warning, before it touches any state. *)
Theorem confirmGenerate_modal_follows_toasts
    (selectedMinutes selectedDocuments : nat)
    (response : MinutesStream.FetchOutcome) (st : KbState) :
  (confirmGenerate selectedMinutes selectedDocuments response st = None
   <-> selectedMinutes = 0%nat /\ selectedDocuments = 0%nat)
  /\ forall st',
      confirmGenerate selectedMinutes selectedDocuments response st
      = Some st' ->
      exists added,
        toasts st' = toasts st ++ added
        /\ (added = [] ->
            isGeneratingKB st' = true /\ showResearchModal st' = true)
        /\ (added <> [] ->
            isGeneratingKB st' = false /\ showResearchModal st' = false)
        /\ (throws response = true -> added <> []).
Proof.
  split.
  { unfold confirmGenerate.
    destruct selectedMinutes, selectedDocuments; split;
      try discriminate; try tauto; intros [? ?]; discriminate. }
  intros st' H.
  set (st0 := mkKb (Some (JString (lit "Starting Deep Research Agent...")))
                   (match knowledgeBase st with
                    | Some kb => Some kb
                    | None => Some emptyKnowledgeBase
                    end)
                   true true (toasts st) (consoleErrors st)).
  assert (Hcaught : forall s, settles st0 s ->
            exists added,
              toasts (kbFinished (ToastError msgGenerationFailed) (kbLogged s))
              = toasts st ++ added
              /\ added <> []).
  { intros s (k & E & _). exists (k ++ [ToastError msgGenerationFailed]).
    cbn. rewrite E. cbn. rewrite app_assoc. split; [reflexivity|].
    destruct k; discriminate. }
  assert (Hst' :
    st' = match response with
          | MinutesStream.FetchResponse true _ (Some body) =>
              let '(s, threw) := kbRead body ([], st0) in
              if threw
              then kbFinished (ToastError msgGenerationFailed)
                              (kbLogged (snd s))
              else snd s
          | _ => kbFinished (ToastError msgGenerationFailed) (kbLogged st0)
          end).
  { unfold confirmGenerate in H.
    destruct selectedMinutes, selectedDocuments; try discriminate;
      inversion H; reflexivity. }
  clear H.
  destruct response as [err|[|] statusText [body|]]; subst st';
    try (destruct (Hcaught st0 (settles_refl st0)) as (k & E & Hk);
         exists k; split; [exact E|];
         split; [intros ->; contradiction|];
         split; [intros _; split; reflexivity|intros _; exact Hk]).
  pose proof (kbRead_settles body ([], st0)) as Hs. cbn [snd] in Hs.
  pose proof (kbRead_throws body statusText ([], st0)) as Hthrew.
  cbn [throws] in Hthrew.
  destruct (kbRead body ([], st0)) as [s threw]. cbn [fst snd] in *.
  subst threw. cbn [throws]. destruct (existsb _ body) eqn:Hex.
  - destruct (Hcaught (snd s) Hs) as (k & E & Hk).
    exists k. split; [exact E|].
    split; [intros ->; contradiction|].
    split; [intros _; split; reflexivity|intros _; exact Hk].
  - destruct Hs as (k & E & Hsame & Hflags).
    exists k. split; [exact E|].
    split; [intros Hk; destruct (Hsame Hk) as (-> & -> & _); split; reflexivity|].
    split; [exact Hflags|discriminate].
Qed.

Lemma confirmGenerate_modal_follows_toasts_witness :
  let st := mkKb None None false false [] 0 in
  exists st',
    confirmGenerate 1 0
      (MinutesStream.FetchResponse true (lit "OK") (Some status_stream)) st
    = Some st'
    /\ toasts st' = []
    /\ isGeneratingKB st' = true
    /\ showResearchModal st' = true.
Proof.
  intros st.
  destruct (confirmGenerate 1 0
              (MinutesStream.FetchResponse true (lit "OK")
                 (Some status_stream)) st) as [st'|] eqn:E;
    [|vm_compute in E; discriminate].
  exists st'.
  destruct (confirmGenerate_modal_follows_toasts 1 0
              (MinutesStream.FetchResponse true (lit "OK")
                 (Some status_stream)) st) as [_ H].
  destruct (H st' E) as (added & Ht & Hnone & _).
  assert (Hadded : added = []).
  { vm_compute in E. inversion E; subst. cbn in Ht.
    destruct added; [reflexivity|discriminate]. }
  subst added. destruct (Hnone eq_refl) as [H1 H2].
  split; [reflexivity|]. split; [now rewrite Ht|]. split; assumption.
Defined.

End KbStreamFacts.

Section FormatDurationFacts.
Import TimeFormat.

(** X25: [formatDuration] shows "--:--" for a missing, NaN or zero
    duration.  For a positive whole number of seconds below 2^53, the
    range in which the double arithmetic of the code is exact, it prints
    the minutes without padding, a colon and the seconds in exactly two
    digits, and the two fields read back as the duration: sixty times the
    minutes plus the seconds. *)
Theorem formatDuration_fields (seconds : Z) :
  0 < seconds ->
  seconds < maxSafe ->
  (formatDuration Undefined = lit "--:--"
   /\ formatDuration Null = lit "--:--"
   /\ formatDuration (Number NaN) = lit "--:--"
   /\ formatDuration (Number (Num 0)) = lit "--:--")
  /\ exists m s,
       formatDuration (Number (Num seconds)) = m ++ lit ":" ++ s
       /\ m = digits (Z.to_N (seconds / 60))
       /\ length s = 2%nat
       /\ Z.of_N (digitsValue m) * 60 + Z.of_N (digitsValue s) = seconds.
Proof.
  intros Hpos _. split; [repeat split|].
  pose proof (Z.div_pos seconds 60 ltac:(lia) ltac:(lia)) as Hq.
  pose proof (Z.mod_pos_bound seconds 60 ltac:(lia)) as Hr.
  exists (digits (Z.to_N (seconds / 60))),
         (padStart 2 48%N (digits (Z.to_N (seconds mod 60)))).
  split; [|split; [reflexivity|split]].
  - destruct seconds as [|p|p]; try lia.
    unfold formatDuration, floorDiv, remainder, toString.
    rewrite Z.rem_mod_nonneg by lia.
    destruct (Z.ltb_spec (Z.pos p / 60) 0); [lia|].
    destruct (Z.ltb_spec (Z.pos p mod 60) 0); [lia|]. reflexivity.
  - rewrite padStart_length.
    destruct (Z.lt_ge_cases (seconds mod 60) 10).
    + rewrite digits_small by lia. reflexivity.
    + rewrite digits_two by lia. reflexivity.
  - rewrite digitsValue_padStart, !digits_value, !Z2N.id by lia.
    pose proof (Z.div_mod seconds 60 ltac:(lia)). lia.
Qed.

Lemma formatDuration_fields_witness :
  formatDuration (Number (Num 3725)) = lit "62:05"
  /\ exists s,
       formatDuration (Number (Num 3725)) = lit "62" ++ lit ":" ++ s
       /\ length s = 2%nat
       /\ digitsValue s = 5%N.
Proof.
  split; [reflexivity|].
  assert (Hsafe : 3725 < maxSafe) by reflexivity.
  destruct (formatDuration_fields 3725 ltac:(lia) Hsafe)
    as (_ & m & s & E & -> & Hl & Hv).
  exists s. split; [exact E|]. split; [exact Hl|].
  change (digits (Z.to_N (3725 / 60))) with (lit "62") in Hv.
  change (Z.of_N (digitsValue (lit "62"))) with 62 in Hv.
  lia.
Defined.

End FormatDurationFacts.

Section ChatSendFacts.
Import Json Sse.





End ChatSendFacts.
